(** * bcparse: the parser of the pie bytecode assembler, embedded in Rocq

    A shallow embedding of [src/bcparse/parser.cpp], of the driver
    [CompilerHelper::buildSourceFile] of [src/bcparse/main.cpp] and of
    [include/bcparse/emit/obj_loc.hpp].  Pointers that may be null are
    options, the objects a [Parser] points to (token stream, compilation
    unit, AST iterator) are fields of an explicit state that every member
    function takes and returns, and loops that the C++ code runs until the
    token stream is exhausted are recursions on a fuel that the wrappers set
    from the number of tokens left. *)

From Stdlib Require Import ZArith Lia Bool Ascii.
From Stdlib Require Import DecimalString DecimalPos.
From Stdlib Require Import Sorting.Permutation.
From stdpp Require Import base option strings list gmap.

Local Open Scope Z_scope.

(** ** Source locations and tokens *)

(** Modelled from the spec: [source_location.hpp] is not among the sources; a
    location is the (filename, line, column) triple of the data model. *)
Record SourceLocation := mkSourceLocation {
  getLine : Z;
  getColumn : Z;
  getFileName : string
}.

#[global] Instance SourceLocation_eq_dec : EqDecision SourceLocation.
Proof. solve_decision. Defined.

(** Modelled from the spec: the location carried by the end-of-stream
    sentinel. *)
Definition SourceLocation_eof : SourceLocation := mkSourceLocation (-1) (-1) "".

(** Modelled from the spec: [token.hpp] is not among the sources.  The classes
    are the ones [parser.cpp] names, with [TK_EMPTY] for the sentinel. *)
Inductive TokenClass :=
| TK_EMPTY
| TK_INTEGER
| TK_FLOAT
| TK_STRING
| TK_IDENT
| TK_LABEL
| TK_DIRECTIVE
| TK_INTERPOLATION
| TK_REG
| TK_LOCAL
| TK_NEWLINE
| TK_OPEN_PARENTH
| TK_CLOSE_PARENTH
| TK_OPEN_BRACKET
| TK_CLOSE_BRACKET
| TK_OPEN_BRACE
| TK_CLOSE_BRACE.

#[global] Instance TokenClass_eq_dec : EqDecision TokenClass.
Proof. solve_decision. Defined.

Module Token.

Record t := mk {
  getTokenClass : TokenClass;
  getValue : string;
  getLocation : SourceLocation
}.

(** [Token::EMPTY] *)
Definition EMPTY : t := mk TK_EMPTY "" SourceLocation_eof.

Definition empty (tok : t) : bool :=
  bool_decide (getTokenClass tok = TK_EMPTY).

(** [explicit operator bool]: a token is true when it is not the empty one. *)
Definition to_bool (tok : t) : bool := negb (empty tok).

End Token.

Abbreviation Token := Token.t.

#[global] Instance Token_eq_dec : EqDecision Token.
Proof. solve_decision. Defined.

(** ** The token stream

    Modelled from the spec: [token_stream.hpp] is not among the sources.  The
    stream is an indexed buffer of tokens with a read cursor; [peek] past
    either end gives the empty token, [next] past the end gives the empty
    token and leaves the cursor where it is, [rewind] moves the cursor back
    one position. *)
Module TokenStream.

Record t := mk {
  m_tokens : list Token;
  m_position : nat
}.

Definition peek (n : Z) (ts : t) : Token :=
  let pos := Z.of_nat (m_position ts) + n in
  if pos <? 0 then Token.EMPTY
  else default Token.EMPTY (m_tokens ts !! Z.to_nat pos).

Definition hasNext (ts : t) : bool :=
  bool_decide (m_position ts < length (m_tokens ts))%nat.

Definition next (ts : t) : Token * t :=
  match m_tokens ts !! m_position ts with
  | Some tok => (tok, mk (m_tokens ts) (S (m_position ts)))
  | None => (Token.EMPTY, ts)
  end.

Definition rewind (ts : t) : t :=
  mk (m_tokens ts) (Nat.pred (m_position ts)).

Definition last (ts : t) : Token :=
  List.last (m_tokens ts) Token.EMPTY.

Definition getSize (ts : t) : nat := length (m_tokens ts).

(** Tokens that have not been read yet: the measure of every loop below. *)
Definition remaining (ts : t) : nat :=
  (length (m_tokens ts) - m_position ts)%nat.

End TokenStream.

Abbreviation TokenStream := TokenStream.t.

(** ** Diagnostics

    Modelled from the spec: [compiler_error.hpp] and [error_list.hpp] are not
    among the sources.  A diagnostic is (severity, message kind, location,
    optional context text); the message kinds are the ones the sources name.
    The list is append-only and a diagnostic at error severity or above makes
    it fatal. *)
Inductive ErrorLevel := LEVEL_INFO | LEVEL_WARN | LEVEL_ERROR.

Inductive ErrorMessage :=
| Msg_expected_identifier
| Msg_expected_token
| Msg_expected_end_of_statement
| Msg_unexpected_eof
| Msg_unexpected_eol
| Msg_unexpected_token
| Msg_undeclared_identifier
| Msg_illegal_expression
| Msg_unknown_opcode.

#[global] Instance ErrorLevel_eq_dec : EqDecision ErrorLevel.
Proof. solve_decision. Defined.

#[global] Instance ErrorMessage_eq_dec : EqDecision ErrorMessage.
Proof. solve_decision. Defined.

Record CompilerError := mkCompilerError {
  getLevel : ErrorLevel;
  getMessage : ErrorMessage;
  getErrorLocation : SourceLocation;
  getText : string
}.

#[global] Instance CompilerError_eq_dec : EqDecision CompilerError.
Proof. solve_decision. Defined.

Module ErrorList.

Definition t := list CompilerError.

Definition addError (e : CompilerError) (l : t) : t := l ++ [e].

Definition isFatal (e : CompilerError) : bool :=
  match getLevel e with
  | LEVEL_ERROR => true
  | _ => false
  end.

Definition hasFatalErrors (l : t) : bool := existsb isFatal l.

(** The order diagnostics are reported in: by line, then by column. *)
Definition before (a b : CompilerError) : bool :=
  let la := getErrorLocation a in
  let lb := getErrorLocation b in
  (getLine la <? getLine lb)
  || ((getLine la =? getLine lb) && (getColumn la <=? getColumn lb)).

Fixpoint insertSorted (e : CompilerError) (l : t) : t :=
  match l with
  | [] => [e]
  | x :: r => if before e x then e :: l else x :: insertSorted e r
  end.

Definition sortErrors (l : t) : t := foldr insertSorted [] l.

End ErrorList.

(** ** Object locations ([include/bcparse/emit/obj_loc.hpp]) *)
Module ObjLoc.

Inductive DataStoreLocation :=
| NullDataStore
| StaticDataStore
| LocalDataStore
| RegisterDataStore.


Record t := mk {
  getLocation : Z;
  getDataStoreLocation : DataStoreLocation
}.

(** The copy constructor. *)
Definition copy (other : t) : t :=
  mk (getLocation other) (getDataStoreLocation other).

End ObjLoc.

Abbreviation ObjLoc := ObjLoc.t.

#[global] Instance DataStoreLocation_eq_dec : EqDecision ObjLoc.DataStoreLocation.
Proof. solve_decision. Defined.

#[global] Instance ObjLoc_eq_dec : EqDecision ObjLoc.
Proof. solve_decision. Defined.

(** ** The AST nodes the parser builds

    [AstExpression] derives from [AstStatement]: [AstExpr] is that upcast.
    The node classes are declared in headers that are not among the sources;
    each constructor here takes what [parser.cpp] passes to the C++
    constructor of the same name. *)
Inductive JumpMode :=
| JumpMode_None
| JumpIfEqual
| JumpIfNotEqual
| JumpIfGreater
| JumpIfGreaterOrEqual.

Inductive AstExpression :=
| AstLabel (name : string) (location : SourceLocation)
| AstIdentifier (name : string) (location : SourceLocation)
| AstIntegerLiteral (value : Z) (location : SourceLocation)
| AstStringLiteral (value : string) (location : SourceLocation)
| AstDataLocation (value : Z) (storageType : ObjLoc.DataStoreLocation)
    (location : SourceLocation).

Inductive AstStatement :=
| AstExpr (expr : AstExpression)
| AstDirective (name : string) (arguments : list AstExpression)
    (body : string) (location : SourceLocation)
| AstLabelDecl (name : string) (astLabel : AstExpression)
    (location : SourceLocation)
| AstJmpStatement (expr : AstExpression) (jumpMode : JumpMode)
    (location : SourceLocation)
| AstCmpStatement (lhs rhs : AstExpression) (location : SourceLocation).

#[global] Instance JumpMode_eq_dec : EqDecision JumpMode.
Proof. solve_decision. Defined.

#[global] Instance AstExpression_eq_dec : EqDecision AstExpression.
Proof. solve_decision. Defined.

#[global] Instance AstStatement_eq_dec : EqDecision AstStatement.
Proof. solve_decision. Defined.

(** Modelled from the spec: [AstStatement::isHoisted] is declared in a header
    that is not among the sources; the hoisted kinds are directives and label
    declarations. *)
Definition isHoisted (stmt : AstStatement) : bool :=
  match stmt with
  | AstDirective _ _ _ _ | AstLabelDecl _ _ _ => true
  | _ => false
  end.


(** ** The symbol table ("bound globals")

    Modelled from the spec: [bound_variables.hpp] is not among the sources.
    [set] overwrites (last writer wins), [get] falls back to the parent table
    when there is one.  The parent is a pointer in C++; a child table only
    reads through it, so the model holds the parent by value. *)
Module BoundGlobals.

#[local] Set Warnings "-register-all".

Inductive t := mk {
  m_map : gmap string AstExpression;
  m_parent : option t
}.

Definition empty : t := mk ∅ None.

Definition set (name : string) (value : AstExpression) (bg : t) : t :=
  mk (<[name := value]> (m_map bg)) (m_parent bg).

Definition setParent (parent : t) (bg : t) : t :=
  mk (m_map bg) (Some parent).

Fixpoint get (name : string) (bg : t) : option AstExpression :=
  match m_map bg !! name with
  | Some value => Some value
  | None =>
      match m_parent bg with
      | Some parent => get name parent
      | None => None
      end
  end.

End BoundGlobals.

Abbreviation BoundGlobals := BoundGlobals.t.

(** ** Reading a number from a token's text

    [std::istringstream ss(text); T value; ss >> value;] for a signed integer
    type [T] with range [lo..hi]: leading white space is skipped; when the
    text ends there (an empty or blank text) the extraction fails before
    anything is read and nothing is stored in [value]; otherwise an optional
    sign and then decimal digits are read up to the first other character,
    with no digit 0 is stored, and a number outside the range of [T] is
    stored as the nearest bound. *)
Module IStream.

Definition isspace (c : ascii) : bool :=
  let n := N_of_ascii c in
  ((n =? 32) || ((9 <=? n) && (n <=? 13)))%N.

Definition digit (c : ascii) : option Z :=
  let n := Z.of_N (N_of_ascii c) in
  if (48 <=? n) && (n <=? 57) then Some (n - 48) else None.

Fixpoint skipws (s : string) : string :=
  match s with
  | String c r => if isspace c then skipws r else s
  | EmptyString => s
  end.

(** The digits at the front of [s], accumulated onto [acc]. *)
Fixpoint digits (s : string) (acc : Z) : Z :=
  match s with
  | String c r =>
      match digit c with
      | Some d => digits r (10 * acc + d)
      | None => acc
      end
  | EmptyString => acc
  end.

Definition starts_with_digit (s : string) : bool :=
  match s with
  | String c _ => bool_decide (is_Some (digit c))
  | EmptyString => false
  end.

Definition clamp (lo hi v : Z) : Z :=
  if v <? lo then lo else if hi <? v then hi else v.

(** What is stored for the text [s], which does not start with white
    space and is not empty. *)
Definition number (lo hi : Z) (s : string) : Z :=
  let '(negative, s) :=
    match s with
    | String "-"%char r => (true, r)
    | String "+"%char r => (false, r)
    | _ => (false, s)
    end in
  if starts_with_digit s then
    let v := digits s 0 in
    clamp lo hi (if negative then - v else v)
  else 0.

(** What [ss >> value] stores in [value], [None] when it stores nothing. *)
Definition stored (lo hi : Z) (text : string) : option Z :=
  match skipws text with
  | EmptyString => None
  | s => Some (number lo hi s)
  end.

(** What [value] holds after [ss >> value], when it held [value] before. *)
Definition extract (lo hi : Z) (value : Z) (text : string) : Z :=
  default value (stored lo hi text).

Definition INT_MIN : Z := - 2 ^ 31.
Definition INT_MAX : Z := 2 ^ 31 - 1.
Definition INT64_MIN : Z := - 2 ^ 63.
Definition INT64_MAX : Z := 2 ^ 63 - 1.

(** The decimal text of an integer: the digits, after a minus sign when it
    is negative. *)
Definition decimal (n : Z) : string := NilZero.string_of_int (Z.to_int n).

Definition extract_int : Z -> string -> Z := extract INT_MIN INT_MAX.
Definition extract_int64 : Z -> string -> Z := extract INT64_MIN INT64_MAX.

End IStream.

(** ** The compilation unit, the AST sequence and the parser state *)
Module CompilationUnit.

(** [m_dataStorage] is a pointer to an allocator shared with nested units;
    the parser only passes it on. *)
Record t := mk {
  m_dataStorage : option nat;
  m_variableMode : bool;
  m_errorList : ErrorList.t;
  m_boundGlobals : BoundGlobals
}.

(** The constructor of [compilation_unit.cpp]. *)
Definition new (dataStorage : option nat) : t :=
  mk dataStorage false [] BoundGlobals.empty.

Definition with_errorList (f : ErrorList.t -> ErrorList.t) (u : t) : t :=
  mk (m_dataStorage u) (m_variableMode u) (f (m_errorList u)) (m_boundGlobals u).

Definition with_boundGlobals (f : BoundGlobals -> BoundGlobals) (u : t) : t :=
  mk (m_dataStorage u) (m_variableMode u) (m_errorList u) (f (m_boundGlobals u)).

End CompilationUnit.

Abbreviation CompilationUnit := CompilationUnit.t.

(** Modelled from the spec: [ast_iterator.hpp] is not among the sources; the
    AST sequence is the ordered list of top-level statements with a cursor. *)
Module AstIterator.

Record t := mk {
  m_list : list AstStatement;
  m_position : nat
}.

Definition new : t := mk [] 0%nat.

Definition push (stmt : AstStatement) (it : t) : t :=
  mk (m_list it ++ [stmt]) (m_position it).

Definition resetPosition (it : t) : t := mk (m_list it) 0%nat.

End AstIterator.

Abbreviation AstIterator := AstIterator.t.

Record SourceFile := mkSourceFile {
  getFilePath : string;
  getBuffer : string
}.

(** ** The parser ([src/bcparse/parser.cpp]) *)
Module Parser.

Record t := mk {
  m_astIterator : AstIterator;
  m_tokenStream : TokenStream;
  m_compilationUnit : CompilationUnit
}.

Definition with_tokenStream (f : TokenStream -> TokenStream) (p : t) : t :=
  mk (m_astIterator p) (f (m_tokenStream p)) (m_compilationUnit p).

Definition with_compilationUnit (f : CompilationUnit -> CompilationUnit)
    (p : t) : t :=
  mk (m_astIterator p) (m_tokenStream p) (f (m_compilationUnit p)).

(** [m_compilationUnit->getErrorList().addError(e)] *)
Definition addError (e : CompilerError) (p : t) : t :=
  with_compilationUnit (CompilationUnit.with_errorList (ErrorList.addError e)) p.

(** [m_tokenStream->next()], the token it returns dropped *)
Definition next (p : t) : t :=
  with_tokenStream (fun ts => snd (TokenStream.next ts)) p.

Definition hasNext (p : t) : bool := TokenStream.hasNext (m_tokenStream p).

Definition getErrors (p : t) : ErrorList.t :=
  CompilationUnit.m_errorList (m_compilationUnit p).

Definition getBoundGlobals (p : t) : BoundGlobals :=
  CompilationUnit.m_boundGlobals (m_compilationUnit p).

Definition position (p : t) : nat := TokenStream.m_position (m_tokenStream p).

Definition remaining (p : t) : nat := TokenStream.remaining (m_tokenStream p).

(** The table local to [parseCommand]. *)
Definition jumpModeStrings : gmap string JumpMode :=
  list_to_map
    [ ("jmp", JumpMode_None);
      ("je", JumpIfEqual);
      ("jne", JumpIfNotEqual);
      ("jg", JumpIfGreater);
      ("jge", JumpIfGreaterOrEqual) ].

Definition match_ (tokenClass : TokenClass) (read : bool) (p : t) : Token * t :=
  let peek := TokenStream.peek 0 (m_tokenStream p) in
  if Token.to_bool peek && bool_decide (Token.getTokenClass peek = tokenClass)
  then
    if read && hasNext p then (peek, next p) else (peek, p)
  else (Token.EMPTY, p).

Definition matchAhead (tokenClass : TokenClass) (n : Z) (p : t) : Token * t :=
  let peek := TokenStream.peek n (m_tokenStream p) in
  if Token.to_bool peek && bool_decide (Token.getTokenClass peek = tokenClass)
  then (peek, p)
  else (Token.EMPTY, p).

(** The diagnostics of the mini-parser of [parseInterpolation]. *)
Definition undeclaredError (token : Token) : CompilerError :=
  mkCompilerError LEVEL_ERROR Msg_undeclared_identifier (Token.getLocation token)
    (Token.getValue token).

Definition expectedIdentifierError (token : Token) : CompilerError :=
  mkCompilerError LEVEL_ERROR Msg_expected_identifier (Token.getLocation token) "".

(** The classes the [if] chain of [parseTerm] tests with [match]; a token
    of any other class reaches the final [else]. *)
Definition parseTerm_tests (c : TokenClass) : bool :=
  match c with
  | TK_IDENT | TK_OPEN_PARENTH | TK_OPEN_BRACKET | TK_INTEGER | TK_FLOAT
  | TK_STRING | TK_INTERPOLATION | TK_REG | TK_LOCAL => true
  | _ => false
  end.

(** The classes among them for which the branch calls a parsing function;
    the branches for an open parenthesis, an open bracket and a float are
    empty (the calls are commented out). *)
Definition parseTerm_parses (c : TokenClass) : bool :=
  match c with
  | TK_IDENT | TK_INTEGER | TK_STRING | TK_INTERPOLATION | TK_REG | TK_LOCAL =>
      true
  | _ => false
  end.

(** The diagnostic of that final [else]. *)
Definition unexpectedError (token : Token) : CompilerError :=
  match Token.getTokenClass token with
  | TK_NEWLINE =>
      mkCompilerError LEVEL_ERROR Msg_unexpected_eol (Token.getLocation token) ""
  | _ =>
      mkCompilerError LEVEL_ERROR Msg_unexpected_token (Token.getLocation token)
        (Token.getValue token)
  end.

Definition currentLocation (p : t) : SourceLocation :=
  if negb (TokenStream.getSize (m_tokenStream p) =? 0)%nat && negb (hasNext p)
  then Token.getLocation (TokenStream.last (m_tokenStream p))
  else Token.getLocation (TokenStream.peek 0 (m_tokenStream p)).

Section Externals.

(** What the parser calls and the sources do not define: the lexer
    ([Lexer::analyze], run on a source file for a unit, gives the tokens
    it pushed and the unit as it leaves it), and two tables of [Token]
    ([Token::tokenTypeToString], [Token::getRepr]). *)
Variable Lexer_analyze :
  SourceFile -> CompilationUnit -> list Token * CompilationUnit.
Variable tokenTypeToString : TokenClass -> string.
Variable getRepr : Token -> string.

(** [parseIntegerLiteral], [parseRegister] and [parseLocal] declare
    [value] without an initialiser.  What it holds before [ss >> value] is
    decided by nothing in the program: it is left open, and may differ from
    one call to the next (it is given the state of the parser at the
    declaration). *)
Variable indeterminate : t -> Z.

Definition expect (tokenClass : TokenClass) (read : bool) (p : t) : Token * t :=
  let '(token, p) := match_ tokenClass read p in
  if negb (Token.to_bool token) then
    let location := currentLocation p in
    let '(errorMsg, errorStr) :=
      match tokenClass with
      | TK_IDENT => (Msg_expected_identifier, "")
      | _ => (Msg_expected_token, tokenTypeToString tokenClass)
      end in
    (token, addError (mkCompilerError LEVEL_ERROR errorMsg location errorStr) p)
  else (token, p).

(** The [do ... while] of [expectEndOfStmt]. *)
Fixpoint expectEndOfStmt_skip (fuel : nat) (p : t) : option t :=
  match fuel with
  | O => None
  | S fuel =>
      let p := next p in
      if hasNext p then
        let '(token, p) := match_ TK_NEWLINE true p in
        if negb (Token.to_bool token) then expectEndOfStmt_skip fuel p
        else Some p
      else Some p
  end.

Definition expectEndOfStmt (p : t) : option (bool * t) :=
  let location := currentLocation p in
  let '(token, p) := match_ TK_NEWLINE true p in
  if negb (Token.to_bool token) then
    let p :=
      addError
        (mkCompilerError LEVEL_ERROR Msg_expected_end_of_statement location "")
        p in
    p ← expectEndOfStmt_skip (S (remaining p)) p;
    Some (false, p)
  else Some (true, p).

Fixpoint skipStatementTerminators_loop (fuel : nat) (p : t) : option t :=
  match fuel with
  | O => None
  | S fuel =>
      let '(token, p) := match_ TK_NEWLINE true p in
      if Token.to_bool token then skipStatementTerminators_loop fuel p
      else Some p
  end.

Definition skipStatementTerminators (p : t) : option t :=
  skipStatementTerminators_loop (S (remaining p)) p.

Definition parseIdentifier (p : t) : option AstExpression * t :=
  let '(token, p) := expect TK_IDENT true p in
  if Token.to_bool token then
    (Some (AstIdentifier (Token.getValue token) (Token.getLocation token)), p)
  else (None, p).

Definition parseIntegerLiteral (p : t) : option AstExpression * t :=
  let '(token, p) := expect TK_INTEGER true p in
  if Token.to_bool token then
    let value := indeterminate p in
    let value := IStream.extract_int64 value (Token.getValue token) in
    (Some (AstIntegerLiteral value (Token.getLocation token)), p)
  else (None, p).

Definition parseStringLiteral (p : t) : option AstExpression * t :=
  let '(token, p) := expect TK_STRING true p in
  if Token.to_bool token then
    (Some (AstStringLiteral (Token.getValue token) (Token.getLocation token)), p)
  else (None, p).

Definition parseRegister (p : t) : option AstExpression * t :=
  let '(token, p) := expect TK_REG true p in
  if Token.to_bool token then
    let value := indeterminate p in
    let value := IStream.extract_int value (Token.getValue token) in
    (Some (AstDataLocation value ObjLoc.RegisterDataStore
             (Token.getLocation token)), p)
  else (None, p).

Definition parseLocal (p : t) : option AstExpression * t :=
  let '(token, p) := expect TK_LOCAL true p in
  if Token.to_bool token then
    let value := indeterminate p in
    let value := IStream.extract_int value (Token.getValue token) in
    (Some (AstDataLocation value ObjLoc.LocalDataStore
             (Token.getLocation token)), p)
  else (None, p).

(** The mini-parser of [parseInterpolation]: the [while] over the tokens
    of the nested stream, which is read from its first token on. *)
Fixpoint parseInterpolation_loop (tokens : list Token) (p : t)
    : option AstExpression * t :=
  match tokens with
  | [] => (None, p)
  | token :: tokens =>
      match Token.getTokenClass token with
      | TK_IDENT =>
          match BoundGlobals.get (Token.getValue token) (getBoundGlobals p) with
          | Some value => (Some value, p)
          | None =>
              parseInterpolation_loop tokens (addError (undeclaredError token) p)
          end
      | _ =>
          parseInterpolation_loop tokens
            (addError (expectedIdentifierError token) p)
      end
  end.

(** The tokens the nested lexer produces for an interpolation token: the
    body is lexed as a source file of its own, for a fresh unit whose
    symbol table has the current one as parent. *)
Definition interpolationTokens (token : Token) (p : t) : list Token :=
  let body := Token.getValue token in
  let sourceFile :=
    mkSourceFile (getFileName (Token.getLocation token)) body in
  let subUnit :=
    CompilationUnit.with_boundGlobals
      (BoundGlobals.setParent (getBoundGlobals p))
      (CompilationUnit.new (CompilationUnit.m_dataStorage (m_compilationUnit p))) in
  fst (Lexer_analyze sourceFile subUnit).

Definition parseInterpolation (p : t) : option AstExpression * t :=
  let '(token, p) := expect TK_INTERPOLATION true p in
  if Token.empty token then (None, p)
  else parseInterpolation_loop (interpolationTokens token p) p.

Definition parseTerm (p : t) : option AstExpression * t :=
  let token := TokenStream.peek 0 (m_tokenStream p) in
  if negb (Token.to_bool token) then
    let p :=
      addError
        (mkCompilerError LEVEL_ERROR Msg_unexpected_eof (currentLocation p) "")
        p in
    let p := if hasNext p then next p else p in
    (None, p)
  else
    let '(m, p) := match_ TK_IDENT false p in
    if Token.to_bool m then parseIdentifier p else
    let '(m, p) := match_ TK_OPEN_PARENTH false p in
    if Token.to_bool m then (None, p) else
    let '(m, p) := match_ TK_OPEN_BRACKET false p in
    if Token.to_bool m then (None, p) else
    let '(m, p) := match_ TK_INTEGER false p in
    if Token.to_bool m then parseIntegerLiteral p else
    let '(m, p) := match_ TK_FLOAT false p in
    if Token.to_bool m then (None, p) else
    let '(m, p) := match_ TK_STRING false p in
    if Token.to_bool m then parseStringLiteral p else
    let '(m, p) := match_ TK_INTERPOLATION false p in
    if Token.to_bool m then parseInterpolation p else
    let '(m, p) := match_ TK_REG false p in
    if Token.to_bool m then parseRegister p else
    let '(m, p) := match_ TK_LOCAL false p in
    if Token.to_bool m then parseLocal p else
    let p := addError (unexpectedError token) p in
    let p := if hasNext p then next p else p in
    (None, p).

Definition parseExpression (p : t) : option AstExpression * t :=
  let '(term, p) := parseTerm p in
  match term with
  | Some term => (Some term, p)
  | None => (None, p)
  end.

(** The argument loop of [parseDirective]. *)
Fixpoint parseDirective_arguments (fuel : nat)
    (arguments : list AstExpression) (p : t)
    : option (list AstExpression * t) :=
  match fuel with
  | O => None
  | S fuel =>
      if hasNext p then
        let '(m, p) := match_ TK_NEWLINE false p in
        if negb (Token.to_bool m) then
          let '(m, p) := match_ TK_OPEN_BRACE false p in
          if negb (Token.to_bool m) then
            let '(expr, p) := parseTerm p in
            match expr with
            | Some expr =>
                parseDirective_arguments fuel (arguments ++ [expr]) p
            | None => Some (arguments, p)
            end
          else Some (arguments, p)
        else Some (arguments, p)
      else Some (arguments, p)
  end.

(** The body loop of [parseDirective]; [parenCounter] is an [int] that
    moves by one per token, kept here as an unbounded integer. *)
Fixpoint parseDirective_body (fuel : nat) (parenCounter : Z) (body : string)
    (p : t) : option (string * t) :=
  match fuel with
  | O => None
  | S fuel =>
      if hasNext p then
        let step parenCounter p :=
          let body :=
            body +:+ getRepr (TokenStream.peek 0 (m_tokenStream p)) +:+ " " in
          parseDirective_body fuel parenCounter body (next p) in
        let '(m, p) := match_ TK_OPEN_BRACE false p in
        if Token.to_bool m then step (parenCounter + 1) p
        else
          let '(m, p) := match_ TK_CLOSE_BRACE false p in
          if Token.to_bool m then
            let parenCounter := parenCounter - 1 in
            if parenCounter =? 0 then Some (body, next p)
            else step parenCounter p
          else step parenCounter p
      else Some (body, p)
  end.

Definition parseDirective (p : t) : option (option AstStatement * t) :=
  let '(token, p) := expect TK_DIRECTIVE true p in
  if Token.to_bool token then
    '(arguments, p) ← parseDirective_arguments (S (remaining p)) [] p;
    '(body, p) ←
      (let '(m, p) := match_ TK_OPEN_BRACE true p in
       if Token.to_bool m then parseDirective_body (S (remaining p)) 1 "" p
       else Some ("", p));
    Some (Some (AstDirective (Token.getValue token) arguments body
                  (Token.getLocation token)), p)
  else Some (None, p).

(** [parseLabel] also writes a trace line to the standard output, which
    is not modelled. *)
Definition parseLabel (p : t) : option AstStatement * t :=
  let '(token, p) := expect TK_LABEL true p in
  if Token.to_bool token then
    let astLabel := AstLabel (Token.getValue token) (Token.getLocation token) in
    let p :=
      with_compilationUnit
        (CompilationUnit.with_boundGlobals
           (BoundGlobals.set (Token.getValue token) astLabel))
        p in
    (Some (AstLabelDecl (Token.getValue token) astLabel
             (Token.getLocation token)), p)
  else (None, p).

Definition parseCommand (p : t) : option AstStatement * t :=
  let '(token, p) := expect TK_IDENT true p in
  if Token.to_bool token then
    match jumpModeStrings !! Token.getValue token with
    | Some jumpMode =>
        let '(expr, p) := parseExpression p in
        match expr with
        | None => (None, p)
        | Some expr =>
            (Some (AstJmpStatement expr jumpMode (Token.getLocation token)), p)
        end
    | None =>
        if bool_decide (Token.getValue token = "cmp") then
          let '(lhs, p) := parseExpression p in
          match lhs with
          | None => (None, p)
          | Some lhs =>
              let '(rhs, p) := parseExpression p in
              match rhs with
              | None => (None, p)
              | Some rhs =>
                  (Some (AstCmpStatement lhs rhs (Token.getLocation token)), p)
              end
          end
        else
          let p := with_tokenStream TokenStream.rewind p in
          let '(ident, p) := parseIdentifier p in
          (AstExpr <$> ident, p)
    end
  else (None, next p).

Definition parseStatement (p : t) : option (option AstStatement * t) :=
  p ← skipStatementTerminators p;
  if negb (hasNext p) then Some (None, p)
  else
    '(res, p) ←
      (let '(m, p) := match_ TK_DIRECTIVE false p in
       if Token.to_bool m then parseDirective p else
       let '(m, p) := match_ TK_LABEL false p in
       if Token.to_bool m then Some (parseLabel p) else
       let '(m, p) := match_ TK_IDENT false p in
       if Token.to_bool m then Some (parseCommand p) else
       let '(expr, p) := parseExpression p in
       Some (AstExpr <$> expr, p));
    if bool_decide (is_Some res) && hasNext p then
      '(_, p) ← expectEndOfStmt p;
      Some (res, p)
    else Some (res, p).

(** The [while] of [parse]. *)
Fixpoint parse_loop (fuel : nat) (hoisted otherStmts : list AstStatement)
    (p : t) : option (list AstStatement * list AstStatement * t) :=
  match fuel with
  | O => None
  | S fuel =>
      if hasNext p then
        '(stmt, p) ← parseStatement p;
        match stmt with
        | Some stmt =>
            if isHoisted stmt
            then parse_loop fuel (hoisted ++ [stmt]) otherStmts p
            else parse_loop fuel hoisted (otherStmts ++ [stmt]) p
        | None => Some (hoisted, otherStmts, p)
        end
      else Some (hoisted, otherStmts, p)
  end.

(** [for (const auto &stmt : stmts) m_astIterator->push(stmt);] *)
Definition pushAll (stmts : list AstStatement) (p : t) : t :=
  foldl
    (fun p stmt =>
       mk (AstIterator.push stmt (m_astIterator p)) (m_tokenStream p)
         (m_compilationUnit p))
    p stmts.

Definition parse (p : t) : option t :=
  p ← skipStatementTerminators p;
  '(hoisted, otherStmts, p) ← parse_loop (S (remaining p)) [] [] p;
  Some (pushAll otherStmts (pushAll hoisted p)).

(** The statements that the [while] of [parse] obtains from
    [parseStatement], in the order it obtains them, and the state it
    leaves: the reference the two lists of [parse_loop] are compared
    with. *)
Fixpoint parsedStatements (fuel : nat) (p : t)
    : option (list AstStatement * t) :=
  match fuel with
  | O => None
  | S fuel =>
      if hasNext p then
        '(stmt, p) ← parseStatement p;
        match stmt with
        | Some stmt =>
            '(stmts, p) ← parsedStatements fuel p;
            Some (stmt :: stmts, p)
        | None => Some ([], p)
        end
      else Some ([], p)
  end.

End Externals.

End Parser.

(** ** Analysis and emission

    Modelled from the spec: [analyzer.hpp], [compiler.hpp],
    [bytecode_chunk.hpp] and the [visit] and [build] members of the AST nodes
    are not among the sources.  The analyzer and the compiler are each a
    single forward pass over the AST sequence that invokes the node's
    operation; what a node's [visit] does to the unit and what its [build]
    appends to the chunk are left open. *)
Definition BytecodeChunk := list Z.

Section Passes.

Variable visit : AstStatement -> CompilationUnit -> CompilationUnit.
Variable build :
  AstStatement -> CompilationUnit * BytecodeChunk -> CompilationUnit * BytecodeChunk.

Definition Analyzer_analyze (iterator : AstIterator) (unit : CompilationUnit)
    : CompilationUnit :=
  foldl (fun unit stmt => visit stmt unit) unit
    (drop (AstIterator.m_position iterator) (AstIterator.m_list iterator)).

Definition Compiler_compile (iterator : AstIterator) (unit : CompilationUnit)
    (chunk : BytecodeChunk) : CompilationUnit * BytecodeChunk :=
  foldl (fun state stmt => build stmt state) (unit, chunk)
    (drop (AstIterator.m_position iterator) (AstIterator.m_list iterator)).

End Passes.

(** ** The driver ([CompilerHelper::buildSourceFile] of [src/bcparse/main.cpp]) *)
Module CompilerHelper.

(** What a call leaves behind: the [Result] pair it returns, the unit, and
    the local [chunk] when the compiler ran. *)
Record Outcome := mkOutcome {
  result : bool * string;
  unit_after : CompilationUnit;
  emitted : option BytecodeChunk
}.

Section Externals.

Variable Lexer_analyze :
  SourceFile -> CompilationUnit -> list Token * CompilationUnit.
Variable tokenTypeToString : TokenClass -> string.
Variable getRepr : Token -> string.
Variable visit : AstStatement -> CompilationUnit -> CompilationUnit.
Variable build :
  AstStatement -> CompilationUnit * BytecodeChunk -> CompilationUnit * BytecodeChunk.
(** [ErrorList::writeOutput], the rendering of the diagnostics. *)
Variable writeOutput : ErrorList.t -> string.
(** What the uninitialised locals of the parser hold. *)
Variable indeterminate : Parser.t -> Z.

(** The stages up to the gate: lexing, parsing, analysis, and the sort of
    the diagnostics. *)
Definition frontEnd (sourceFile : SourceFile) (unit : CompilationUnit)
    : option (AstIterator * CompilationUnit) :=
  let '(tokens, unit) := Lexer_analyze sourceFile unit in
  let tokenStream := TokenStream.mk tokens 0 in
  let iterator := AstIterator.new in
  parser ←
    Parser.parse Lexer_analyze tokenTypeToString getRepr indeterminate
      (Parser.mk iterator tokenStream unit);
  let iterator := Parser.m_astIterator parser in
  let unit := Analyzer_analyze visit iterator (Parser.m_compilationUnit parser) in
  let unit := CompilationUnit.with_errorList ErrorList.sortErrors unit in
  Some (iterator, unit).

(** [in_file] is the content of the file named [filename], or [None] when
    it cannot be opened. *)
Definition buildSourceFile (in_file : option string) (filename : string)
    (unit : CompilationUnit) : option Outcome :=
  match in_file with
  | None => Some (mkOutcome (false, "") unit None)
  | Some buffer =>
      '(iterator, unit) ← frontEnd (mkSourceFile filename buffer) unit;
      let ss := writeOutput (CompilationUnit.m_errorList unit) in
      if negb (ErrorList.hasFatalErrors (CompilationUnit.m_errorList unit))
      then
        let iterator := AstIterator.resetPosition iterator in
        let '(unit, chunk) := Compiler_compile build iterator unit [] in
        Some (mkOutcome (true, "") unit (Some chunk))
      else Some (mkOutcome (false, ss) unit None)
  end.

End Externals.

End CompilerHelper.

(** ** Stand-ins for what the sources leave out

    Concrete values for the externals, used to run the embedding on examples:
    a lexer that makes one token of each blank-separated word (an identifier
    when the word starts with a letter or an underscore, an integer when it
    starts with a digit), a table of class names, an analyzer that checks
    nothing and a compiler that emits one byte per statement. *)
Module Examples.

Definition isIdentStart (c : ascii) : bool :=
  let n := N_of_ascii c in
  (((65 <=? n) && (n <=? 90)) || ((97 <=? n) && (n <=? 122)) || (n =? 95))%N.

Definition flush (word : string) : list string :=
  match word with
  | EmptyString => []
  | _ => [word]
  end.

Fixpoint words (s : string) (word : string) : list string :=
  match s with
  | EmptyString => flush word
  | String c r =>
      if IStream.isspace c then flush word ++ words r ""
      else words r (word +:+ String c "")
  end.

Definition classify (word : string) : TokenClass :=
  match word with
  | String c _ =>
      if isIdentStart c then TK_IDENT
      else if bool_decide (is_Some (IStream.digit c)) then TK_INTEGER
      else TK_STRING
  | EmptyString => TK_EMPTY
  end.

Definition lexer (sourceFile : SourceFile) (unit : CompilationUnit)
    : list Token * CompilationUnit :=
  (map
     (fun word =>
        Token.mk (classify word) word (mkSourceLocation 0 0 (getFilePath sourceFile)))
     (words (getBuffer sourceFile) ""),
   unit).

Definition tokenTypeToString (c : TokenClass) : string :=
  match c with
  | TK_EMPTY => "empty"
  | TK_INTEGER => "integer"
  | TK_FLOAT => "float"
  | TK_STRING => "string"
  | TK_IDENT => "identifier"
  | TK_LABEL => "label"
  | TK_DIRECTIVE => "directive"
  | TK_INTERPOLATION => "interpolation"
  | TK_REG => "register"
  | TK_LOCAL => "local"
  | TK_NEWLINE => "newline"
  | TK_OPEN_PARENTH => "("
  | TK_CLOSE_PARENTH => ")"
  | TK_OPEN_BRACKET => "["
  | TK_CLOSE_BRACKET => "]"
  | TK_OPEN_BRACE => "{"
  | TK_CLOSE_BRACE => "}"
  end.

Definition getRepr (token : Token) : string := Token.getValue token.

Definition visit (stmt : AstStatement) (unit : CompilationUnit) : CompilationUnit :=
  unit.

Definition build (stmt : AstStatement) (state : CompilationUnit * BytecodeChunk)
    : CompilationUnit * BytecodeChunk :=
  (fst state, snd state ++ [0]).

Definition writeOutput (errors : ErrorList.t) : string :=
  foldr (fun e out => getText e +:+ ";" +:+ out) "" errors.

(** A value for the uninitialised locals of the parser. *)
Definition indeterminate (p : Parser.t) : Z := 32767.

Definition parse : Parser.t -> option Parser.t :=
  Parser.parse lexer tokenTypeToString getRepr indeterminate.

Definition buildSourceFile
    : option string -> string -> CompilationUnit -> option CompilerHelper.Outcome :=
  CompilerHelper.buildSourceFile lexer tokenTypeToString getRepr visit build
    writeOutput indeterminate.

(** A parser at the start of [tokens], with a fresh unit and an empty AST
    sequence. *)
Definition start (tokens : list Token) : Parser.t :=
  Parser.mk AstIterator.new (TokenStream.mk tokens 0) (CompilationUnit.new None).

Definition at_ (line column : Z) : SourceLocation :=
  mkSourceLocation line column "a.pie".

(** The tokens still to be read. *)
Definition unread (p : Parser.t) : list Token :=
  drop (Parser.position p) (TokenStream.m_tokens (Parser.m_tokenStream p)).

Definition statements (p : Parser.t) : list AstStatement :=
  AstIterator.m_list (Parser.m_astIterator p).

(** A parser at one token, in a unit that binds the label [lbl]. *)
Definition withLabel (token : Token) : Parser.t :=
  Parser.mk AstIterator.new (TokenStream.mk [token] 0)
    (CompilationUnit.with_boundGlobals
       (BoundGlobals.set "lbl" (AstLabel "lbl" (at_ 1 1)))
       (CompilationUnit.new None)).

(** [jmp lbl], [cmp] with no operand, then the declaration [lbl:]. *)
Definition jmp_cmp_label : list Token :=
  [ Token.mk TK_IDENT "jmp" (at_ 1 1);
    Token.mk TK_IDENT "lbl" (at_ 1 5);
    Token.mk TK_NEWLINE "" (at_ 1 8);
    Token.mk TK_IDENT "cmp" (at_ 2 1);
    Token.mk TK_NEWLINE "" (at_ 2 4);
    Token.mk TK_LABEL "lbl" (at_ 3 1) ].

(** [cmp] with no operand, then the statement [jmp 7]. *)
Definition cmp_then_jmp : list Token :=
  [ Token.mk TK_IDENT "cmp" (at_ 1 1);
    Token.mk TK_NEWLINE "" (at_ 1 4);
    Token.mk TK_IDENT "jmp" (at_ 2 1);
    Token.mk TK_INTEGER "7" (at_ 2 5);
    Token.mk TK_NEWLINE "" (at_ 2 6) ].

End Examples.

(** ** The state at another cursor position *)
Module Cursor.

Import Parser.

(** The parser state [p] with the cursor of its token stream at [k]. *)
Definition seek (k : nat) (p : t) : t :=
  mk (m_astIterator p)
    (TokenStream.mk (TokenStream.m_tokens (m_tokenStream p)) k)
    (m_compilationUnit p).

(** The class of the token at index [i] of the stream, if there is one. *)
Definition classAt (i : nat) (p : t) : option TokenClass :=
  Token.getTokenClass <$> TokenStream.m_tokens (m_tokenStream p) !! i.

End Cursor.

(** ** Nodes and diagnostics read off single tokens *)
Module Nodes.

Import Parser.

(** The node that [parseIdentifier], [parseIntegerLiteral],
    [parseStringLiteral], [parseRegister] and [parseLocal] build from a
    token of their class, when the token decides it.  For an integer,
    register or local token whose text is empty or blank nothing is stored
    in the number of the node, which is then whatever the uninitialised
    local held: no node is given for such a token. *)
Definition valueNode (token : Token) : option AstExpression :=
  match Token.getTokenClass token with
  | TK_IDENT =>
      Some (AstIdentifier (Token.getValue token) (Token.getLocation token))
  | TK_INTEGER =>
      value ← IStream.stored IStream.INT64_MIN IStream.INT64_MAX
                (Token.getValue token);
      Some (AstIntegerLiteral value (Token.getLocation token))
  | TK_STRING =>
      Some (AstStringLiteral (Token.getValue token) (Token.getLocation token))
  | TK_REG =>
      value ← IStream.stored IStream.INT_MIN IStream.INT_MAX
                (Token.getValue token);
      Some (AstDataLocation value ObjLoc.RegisterDataStore
              (Token.getLocation token))
  | TK_LOCAL =>
      value ← IStream.stored IStream.INT_MIN IStream.INT_MAX
                (Token.getValue token);
      Some (AstDataLocation value ObjLoc.LocalDataStore
              (Token.getLocation token))
  | _ => None
  end.

(** The diagnostic the mini-parser of [parseInterpolation] appends for a
    token it does not resolve. *)
Definition interpolationError (token : Token) : CompilerError :=
  if decide (Token.getTokenClass token = TK_IDENT) then undeclaredError token
  else expectedIdentifierError token.

(** The classes of those five functions: the tokens for which [parseTerm]
    returns a node, whatever their text. *)
Definition valueClass (c : TokenClass) : bool :=
  match c with
  | TK_IDENT | TK_INTEGER | TK_STRING | TK_REG | TK_LOCAL => true
  | _ => false
  end.

(** An identifier token whose name the symbol table [bg] binds: the tokens
    at which the mini-parser returns. *)
Definition resolvable (bg : BoundGlobals) (token : Token) : Prop :=
  Token.getTokenClass token = TK_IDENT
  /\ is_Some (BoundGlobals.get (Token.getValue token) bg).

#[global] Instance resolvable_dec (bg : BoundGlobals) (token : Token) :
  Decision (resolvable bg token).
Proof. unfold resolvable. apply _. Defined.

(** The state [p] with the diagnostics [errors] appended, in order. *)
Definition addErrors (errors : list CompilerError) (p : t) : t :=
  with_compilationUnit
    (CompilationUnit.with_errorList (fun l => l ++ errors)) p.

(** The token [n] positions after the cursor. *)
Definition tokenAt (n : nat) (p : t) : Token :=
  TokenStream.peek 0 (m_tokenStream (Cursor.seek (position p + n) p)).

(** The tokens of the stream from index [from] on are [tokens], none of
    them a brace. *)
Definition plain (p : t) (from : nat) (tokens : list Token) : Prop :=
  forall j token,
    tokens !! j = Some token ->
    TokenStream.m_tokens (m_tokenStream p) !! (from + j)%nat = Some token
    /\ Token.getTokenClass token <> TK_OPEN_BRACE
    /\ Token.getTokenClass token <> TK_CLOSE_BRACE.

(** The tokens of the stream from index [from] on are tokens that give the
    nodes [nodes], one each (so none of them is an integer, register or
    local token with an empty or blank text). *)
Definition valueTokens (p : t) (from : nat) (nodes : list AstExpression) : Prop :=
  forall j node,
    nodes !! j = Some node ->
    valueNode (TokenStream.peek 0 (m_tokenStream (Cursor.seek (from + j) p))) = Some node.

End Nodes.

(** ** The text of an Object Location ([ObjLoc::toString]) and of a directive
    body *)
Module Texts.

(** [ObjLoc::toString]: the name of the storage class, nothing for the null
    store, then the slot in brackets. *)
Definition ObjLoc_toString (objLoc : ObjLoc) : string :=
  match ObjLoc.getDataStoreLocation objLoc with
  | ObjLoc.StaticDataStore => "STATIC"
  | ObjLoc.LocalDataStore => "LOCAL"
  | ObjLoc.RegisterDataStore => "REGISTER"
  | ObjLoc.NullDataStore => ""
  end
  +:+ "[" +:+ IStream.decimal (ObjLoc.getLocation objLoc) +:+ "]".

(** What the body loop of [parseDirective] appends to [body] for the tokens
    it copies: the representation of each, followed by a space. *)
Definition bodyText (getRepr : Token -> string) (body : string)
    (tokens : list Token) : string :=
  foldl (fun body token => body +:+ getRepr token +:+ " ") body tokens.

End Texts.

(** * Properties *)

(** ** The token stream and [match] *)
Module StreamFacts.

Import Parser.

Lemma peek_0 (ts : TokenStream) :
  TokenStream.peek 0 ts
  = default Token.EMPTY (TokenStream.m_tokens ts !! TokenStream.m_position ts).
Proof.
  unfold TokenStream.peek. rewrite Z.add_0_r.
  destruct (Z.ltb_spec (Z.of_nat (TokenStream.m_position ts)) 0); [lia|].
  by rewrite Nat2Z.id.
Qed.

Lemma peek_true_lookup (ts : TokenStream) :
  Token.to_bool (TokenStream.peek 0 ts) = true ->
  TokenStream.m_tokens ts !! TokenStream.m_position ts
  = Some (TokenStream.peek 0 ts).
Proof.
  rewrite peek_0.
  destruct (TokenStream.m_tokens ts !! TokenStream.m_position ts); [done|].
  discriminate.
Qed.

Lemma hasNext_lt (p : t) :
  hasNext p = true <-> (position p < length (TokenStream.m_tokens (m_tokenStream p)))%nat.
Proof. unfold hasNext, TokenStream.hasNext, position. by rewrite bool_decide_eq_true. Qed.

Lemma hasNext_remaining (p : t) : hasNext p = true <-> (0 < remaining p)%nat.
Proof. rewrite hasNext_lt. unfold remaining, TokenStream.remaining, position. lia. Qed.

Lemma peek_true_hasNext (p : t) :
  Token.to_bool (TokenStream.peek 0 (m_tokenStream p)) = true -> hasNext p = true.
Proof.
  intros H%peek_true_lookup. apply hasNext_lt. by eapply lookup_lt_Some.
Qed.

(** [next] on a stream that has a token left moves the cursor by one and
    touches nothing else. *)
Lemma next_hasNext (p : t) :
  hasNext p = true ->
  next p
  = mk (m_astIterator p)
      (TokenStream.mk (TokenStream.m_tokens (m_tokenStream p)) (S (position p)))
      (m_compilationUnit p).
Proof.
  intros H%hasNext_lt. unfold next, with_tokenStream, TokenStream.next, position in *.
  destruct (lookup_lt_is_Some_2 _ _ H) as [tok ->]. done.
Qed.

Lemma next_at_end (p : t) : hasNext p = false -> next p = p.
Proof.
  unfold hasNext, TokenStream.hasNext. rewrite bool_decide_eq_false. intros H.
  unfold next, with_tokenStream, TokenStream.next.
  rewrite (proj2 (lookup_ge_None _ _)) by lia. by destruct p.
Qed.

Lemma match_no_read (c : TokenClass) (p : t) : snd (match_ c false p) = p.
Proof. unfold match_. by repeat case_match. Qed.

(** The two outcomes of [match]: the peeked token with the cursor moved (or
    not, when [read] is off), or the empty token and the same state. *)
Lemma match_cases (c : TokenClass) (read : bool) (p : t) :
  let peek := TokenStream.peek 0 (m_tokenStream p) in
  (Token.to_bool peek = true /\ Token.getTokenClass peek = c
   /\ match_ c read p = (peek, if read then next p else p))
  \/ ((Token.to_bool peek = false \/ Token.getTokenClass peek <> c)
      /\ match_ c read p = (Token.EMPTY, p)).
Proof.
  intros peek. unfold match_. fold peek.
  destruct (Token.to_bool peek) eqn:Hb; simpl; [|by right; split; [left|]].
  case_bool_decide as Hc; [|by right; split; [right|]].
  left. split_and!; [done..|].
  rewrite (peek_true_hasNext p Hb). by destruct read.
Qed.

Lemma match_hit (c : TokenClass) (read : bool) (p : t) :
  Token.to_bool (TokenStream.peek 0 (m_tokenStream p)) = true ->
  Token.getTokenClass (TokenStream.peek 0 (m_tokenStream p)) = c ->
  match_ c read p
  = (TokenStream.peek 0 (m_tokenStream p), if read then next p else p).
Proof.
  intros Hb Hc. destruct (match_cases c read p) as [(_ & _ & ->)|[[?|?] _]];
    [done|congruence..].
Qed.

Lemma match_miss (c : TokenClass) (read : bool) (p : t) :
  Token.getTokenClass (TokenStream.peek 0 (m_tokenStream p)) <> c ->
  match_ c read p = (Token.EMPTY, p).
Proof.
  intros Hc. destruct (match_cases c read p) as [(_ & ? & _)|[_ ->]]; done.
Qed.

Lemma match_eof (c : TokenClass) (read : bool) (p : t) :
  Token.to_bool (TokenStream.peek 0 (m_tokenStream p)) = false ->
  match_ c read p = (Token.EMPTY, p).
Proof.
  intros Hb. destruct (match_cases c read p) as [(? & _ & _)|[_ ->]];
    [congruence|done].
Qed.

(** C10. [Parser::match(c, read)] moves the token-stream cursor only when
    the peeked token is non-empty, has class [c], [read] is true and the
    stream has a next token, and then by one position, leaving the rest of
    the state alone; when the class of the peeked token differs from [c] it
    returns the empty token and the state it was given; and
    [Parser::matchAhead] never changes the state, so never moves the
    cursor. *)
Theorem match_frame (c : TokenClass) (read : bool) (n : Z) (p : t) :
  let peek := TokenStream.peek 0 (m_tokenStream p) in
  (position (snd (match_ c read p)) <> position p ->
     Token.to_bool peek = true /\ Token.getTokenClass peek = c
     /\ read = true /\ hasNext p = true
     /\ snd (match_ c read p) = next p
     /\ position (snd (match_ c read p)) = S (position p))
  /\ (Token.getTokenClass peek <> c -> match_ c read p = (Token.EMPTY, p))
  /\ snd (matchAhead c n p) = p
  /\ position (snd (matchAhead c n p)) = position p.
Proof.
  intros peek. split_and!.
  - destruct (match_cases c read p) as [(Hb & Hc & ->)|[_ ->]]; simpl; [|done].
    destruct read; [|done]. intros _.
    pose proof (peek_true_hasNext p Hb) as Hn.
    split_and!; try done. by rewrite (next_hasNext p Hn).
  - apply match_miss.
  - unfold matchAhead. by case_match.
  - unfold matchAhead. by case_match.
Qed.

End StreamFacts.

(** ** Terms and commands *)
Module TermFacts.

Import Parser StreamFacts Nodes.

Lemma addErrors_nil (p : t) : addErrors [] p = p.
Proof.
  destruct p as [? ? []].
  unfold addErrors, with_compilationUnit, CompilationUnit.with_errorList.
  cbn [m_astIterator m_tokenStream m_compilationUnit CompilationUnit.m_dataStorage
       CompilationUnit.m_variableMode CompilationUnit.m_errorList
       CompilationUnit.m_boundGlobals].
  by rewrite app_nil_r.
Qed.

Lemma addErrors_addError (e : CompilerError) (errors : list CompilerError) (p : t) :
  addErrors errors (addError e p) = addErrors (e :: errors) p.
Proof.
  destruct p as [? ? []].
  unfold addErrors, addError, with_compilationUnit, CompilationUnit.with_errorList,
    ErrorList.addError.
  cbn [m_astIterator m_tokenStream m_compilationUnit CompilationUnit.m_dataStorage
       CompilationUnit.m_variableMode CompilationUnit.m_errorList
       CompilationUnit.m_boundGlobals].
  by rewrite <- app_assoc.
Qed.

Section Externals.

Context (Lexer_analyze : SourceFile -> CompilationUnit -> list Token * CompilationUnit)
  (tokenTypeToString : TokenClass -> string)
  (getRepr : Token -> string)
  (indeterminate : Parser.t -> Z).

Local Abbreviation expect := (expect tokenTypeToString).
Local Abbreviation parseIdentifier := (parseIdentifier tokenTypeToString).
Local Abbreviation parseTerm := (parseTerm Lexer_analyze tokenTypeToString indeterminate).
Local Abbreviation parseCommand := (parseCommand Lexer_analyze tokenTypeToString indeterminate).
Local Abbreviation parseInterpolation :=
  (parseInterpolation Lexer_analyze tokenTypeToString).
Local Abbreviation interpolationTokens := (interpolationTokens Lexer_analyze).

Lemma expect_hit (c : TokenClass) (read : bool) (p : t) :
  Token.to_bool (TokenStream.peek 0 (m_tokenStream p)) = true ->
  Token.getTokenClass (TokenStream.peek 0 (m_tokenStream p)) = c ->
  expect c read p
  = (TokenStream.peek 0 (m_tokenStream p), if read then next p else p).
Proof.
  intros Hb Hc. unfold Parser.expect. rewrite (match_hit c read p Hb Hc).
  by rewrite Hb.
Qed.

Lemma addError_hasNext (e : CompilerError) (p : t) :
  hasNext (addError e p) = hasNext p.
Proof. done. Qed.

Lemma addError_next (e : CompilerError) (p : t) :
  next (addError e p) = addError e (next p).
Proof. done. Qed.

Lemma getErrors_addError (e : CompilerError) (p : t) :
  getErrors (addError e p) = getErrors p ++ [e].
Proof. done. Qed.

Lemma getErrors_next (p : t) : getErrors (next p) = getErrors p.
Proof. done. Qed.

Lemma position_next (p : t) :
  hasNext p = true -> position (next p) = S (position p).
Proof. intros H. by rewrite (next_hasNext p H). Qed.

Lemma tokens_next (p : t) :
  TokenStream.m_tokens (m_tokenStream (next p))
  = TokenStream.m_tokens (m_tokenStream p).
Proof.
  unfold next, with_tokenStream, TokenStream.next. simpl. by case_match.
Qed.

(** The final [else] of [parseTerm], reached by a token that none of the
    tests of the [if] chain accepts. *)
Lemma parseTerm_final_else (p : t) :
  let token := TokenStream.peek 0 (m_tokenStream p) in
  Token.to_bool token = true ->
  parseTerm_tests (Token.getTokenClass token) = false ->
  parseTerm p = (None, next (addError (unexpectedError token) p))
  /\ getErrors (snd (parseTerm p)) = getErrors p ++ [unexpectedError token]
  /\ unexpectedError token
     = (if bool_decide (Token.getTokenClass token = TK_NEWLINE)
        then mkCompilerError LEVEL_ERROR Msg_unexpected_eol
               (Token.getLocation token) ""
        else mkCompilerError LEVEL_ERROR Msg_unexpected_token
               (Token.getLocation token) (Token.getValue token))
  /\ position (snd (parseTerm p)) = S (position p)
  /\ TokenStream.m_tokens (m_tokenStream (snd (parseTerm p)))
     = TokenStream.m_tokens (m_tokenStream p).
Proof.
  intros token Hb Hc.
  assert (parseTerm p = (None, next (addError (unexpectedError token) p))) as ->.
  { unfold Parser.parseTerm. fold token. rewrite Hb. simpl.
    rewrite !match_miss by (fold token; destruct (Token.getTokenClass token); done).
    simpl. rewrite addError_hasNext, (peek_true_hasNext p Hb). done. }
  cbn [fst snd]. split_and!; [done|done| | |by rewrite tokens_next].
  - unfold unexpectedError. by destruct (Token.getTokenClass token).
  - rewrite position_next; [done|]. rewrite addError_hasNext.
    by apply peek_true_hasNext.
Qed.

(** The three classes that the chain tests and leaves without a rule:
    [parseTerm] returns no expression and changes nothing. *)
Lemma parseTerm_reserved (p : t) :
  let token := TokenStream.peek 0 (m_tokenStream p) in
  Token.getTokenClass token = TK_OPEN_PARENTH
  \/ Token.getTokenClass token = TK_OPEN_BRACKET
  \/ Token.getTokenClass token = TK_FLOAT ->
  parseTerm p = (None, p).
Proof.
  intros token Hc.
  assert (Token.to_bool token = true) as Hb.
  { unfold Token.to_bool, Token.empty. case_bool_decide as He; [|done].
    rewrite He in Hc. by destruct Hc as [?|[?|?]]. }
  unfold Parser.parseTerm. fold token. rewrite Hb. cbn [negb].
  destruct Hc as [Hc|[Hc|Hc]].
  - rewrite (match_miss TK_IDENT) by (fold token; by rewrite Hc).
    cbn. by rewrite (match_hit TK_OPEN_PARENTH false p Hb Hc); fold token; rewrite Hb.
  - rewrite (match_miss TK_IDENT) by (fold token; by rewrite Hc). cbn.
    rewrite (match_miss TK_OPEN_PARENTH) by (fold token; by rewrite Hc). cbn.
    by rewrite (match_hit TK_OPEN_BRACKET false p Hb Hc); fold token; rewrite Hb.
  - rewrite (match_miss TK_IDENT) by (fold token; by rewrite Hc). cbn.
    rewrite (match_miss TK_OPEN_PARENTH) by (fold token; by rewrite Hc). cbn.
    rewrite (match_miss TK_OPEN_BRACKET) by (fold token; by rewrite Hc). cbn.
    rewrite (match_miss TK_INTEGER) by (fold token; by rewrite Hc). cbn.
    by rewrite (match_hit TK_FLOAT false p Hb Hc); fold token; rewrite Hb.
Qed.

(** C6, amended. When the token [parseTerm] peeks is of a class for which
    it has no parsing function, it returns no expression, and what else it
    does depends on the class.  For an open parenthesis, an open bracket or
    a float, which the [if] chain tests and leaves without a rule, it
    appends no diagnostic and discards no token: the state is unchanged.
    For a token of any other such class it appends exactly one diagnostic
    (unexpected-end-of-line for a newline token, otherwise unexpected-token
    with the text of the token) and moves the cursor past exactly that one
    token. *)
Theorem parseTerm_unrecognized (p : t) :
  let token := TokenStream.peek 0 (m_tokenStream p) in
  let reserved :=
    Token.getTokenClass token = TK_OPEN_PARENTH
    \/ Token.getTokenClass token = TK_OPEN_BRACKET
    \/ Token.getTokenClass token = TK_FLOAT in
  Token.to_bool token = true ->
  parseTerm_parses (Token.getTokenClass token) = false ->
  fst (parseTerm p) = None
  /\ (reserved -> parseTerm p = (None, p))
  /\ (~ reserved ->
      parseTerm p = (None, next (addError (unexpectedError token) p))
      /\ getErrors (snd (parseTerm p)) = getErrors p ++ [unexpectedError token]
      /\ unexpectedError token
         = (if bool_decide (Token.getTokenClass token = TK_NEWLINE)
            then mkCompilerError LEVEL_ERROR Msg_unexpected_eol
                   (Token.getLocation token) ""
            else mkCompilerError LEVEL_ERROR Msg_unexpected_token
                   (Token.getLocation token) (Token.getValue token))
      /\ position (snd (parseTerm p)) = S (position p)
      /\ TokenStream.m_tokens (m_tokenStream (snd (parseTerm p)))
         = TokenStream.m_tokens (m_tokenStream p)).
Proof.
  intros token reserved Hb Hc.
  assert (reserved -> parseTerm p = (None, p)) as Hreserved
    by apply parseTerm_reserved.
  assert (~ reserved -> parseTerm_tests (Token.getTokenClass token) = false)
    as Hother.
  { intros Hn. unfold reserved in Hn.
    destruct (Token.getTokenClass token); try done; exfalso; apply Hn; auto. }
  split; [|split].
  - destruct (parseTerm_tests (Token.getTokenClass token)) eqn:Ht.
    + rewrite Hreserved; [done|]. unfold reserved.
      destruct (Token.getTokenClass token); try done; auto.
    + by rewrite (proj1 (parseTerm_final_else p Hb Ht)).
  - exact Hreserved.
  - intros Hn. exact (parseTerm_final_else p Hb (Hother Hn)).
Qed.

Lemma class_to_bool (token : Token) (c : TokenClass) :
  Token.getTokenClass token = c -> c <> TK_EMPTY -> Token.to_bool token = true.
Proof.
  intros <- Hc. unfold Token.to_bool, Token.empty. by rewrite bool_decide_false.
Qed.

Lemma rewind_next (p : t) :
  hasNext p = true -> with_tokenStream TokenStream.rewind (next p) = p.
Proof. intros H. rewrite (next_hasNext p H). by destruct p as [? [] ?]. Qed.

Lemma parseIdentifier_hit (p : t) :
  let token := TokenStream.peek 0 (m_tokenStream p) in
  Token.getTokenClass token = TK_IDENT ->
  parseIdentifier p
  = (Some (AstIdentifier (Token.getValue token) (Token.getLocation token)),
     next p).
Proof.
  intros token Hc. pose proof (class_to_bool token _ Hc ltac:(done)) as Hb.
  unfold Parser.parseIdentifier. rewrite (expect_hit _ true p Hb Hc).
  fold token. by rewrite Hb.
Qed.

Lemma jumpModeStrings_None (name : string) :
  name ∉ ["jmp"; "je"; "jne"; "jg"; "jge"] -> jumpModeStrings !! name = None.
Proof. intros H. by apply not_elem_of_list_to_map_1. Qed.

(** C7. For an identifier token whose text is neither a jump mnemonic
    (jmp, je, jne, jg, jge) nor cmp, [parseCommand] consumes the token,
    puts it back with one [rewind], which restores the state it started
    from, and returns what [parseIdentifier] returns there: the
    identifier reference built from the token, with the token consumed
    and no diagnostic appended. *)
Theorem parseCommand_plain_identifier (p : t) :
  let token := TokenStream.peek 0 (m_tokenStream p) in
  Token.getTokenClass token = TK_IDENT ->
  Token.getValue token ∉ ["jmp"; "je"; "jne"; "jg"; "jge"] ->
  Token.getValue token <> "cmp" ->
  with_tokenStream TokenStream.rewind (snd (expect TK_IDENT true p)) = p
  /\ parseCommand p
     = (AstExpr <$> fst (parseIdentifier p), snd (parseIdentifier p))
  /\ parseCommand p
     = (Some (AstExpr (AstIdentifier (Token.getValue token)
                         (Token.getLocation token))),
        next p)
  /\ getErrors (snd (parseCommand p)) = getErrors p.
Proof.
  intros token Hc Hjmp Hcmp.
  pose proof (class_to_bool token _ Hc ltac:(done)) as Hb.
  pose proof (peek_true_hasNext p Hb) as Hn.
  assert (parseCommand p
          = (AstExpr <$> fst (parseIdentifier p), snd (parseIdentifier p))) as Hp.
  { unfold Parser.parseCommand. rewrite (expect_hit _ true p Hb Hc).
    fold token. rewrite Hb, (jumpModeStrings_None _ Hjmp).
    rewrite bool_decide_false by done. rewrite (rewind_next p Hn).
    by destruct (parseIdentifier p). }
  split_and!.
  - rewrite (expect_hit _ true p Hb Hc). by apply rewind_next.
  - done.
  - by rewrite Hp, (parseIdentifier_hit p Hc).
  - by rewrite Hp, (parseIdentifier_hit p Hc).
Qed.

Lemma parseInterpolation_loop_find (tokens : list Token) (p : t) :
  parseInterpolation_loop tokens p
  = match list_find (resolvable (getBoundGlobals p)) tokens with
    | Some (i, ident) =>
        (BoundGlobals.get (Token.getValue ident) (getBoundGlobals p),
         addErrors (map interpolationError (take i tokens)) p)
    | None => (None, addErrors (map interpolationError tokens) p)
    end.
Proof.
  revert p. induction tokens as [|token tokens IH]; intros p.
  - cbn. by rewrite addErrors_nil.
  - cbn [list_find]. destruct (decide (resolvable (getBoundGlobals p) token))
      as [[Hc [value Hget]]|Hn].
    + cbn [take map]. rewrite addErrors_nil. cbn [parseInterpolation_loop].
      by rewrite Hc, Hget.
    + assert (parseInterpolation_loop (token :: tokens) p
              = parseInterpolation_loop tokens
                  (addError (interpolationError token) p)) as ->.
      { cbn [parseInterpolation_loop]. unfold interpolationError.
        destruct (decide (Token.getTokenClass token = TK_IDENT)) as [Hc|Hc].
        - rewrite Hc.
          destruct (BoundGlobals.get (Token.getValue token) (getBoundGlobals p))
            as [value|] eqn:Hget; [|done].
          destruct Hn. split; [done|by eexists].
        - by destruct (Token.getTokenClass token). }
      rewrite IH.
      change (getBoundGlobals (addError (interpolationError token) p))
        with (getBoundGlobals p).
      destruct (list_find (resolvable (getBoundGlobals p)) tokens)
        as [[i ident]|]; cbn [fmap option_fmap option_map prod_map fst snd id];
        cbn [take map]; by rewrite addErrors_addError.
Qed.

(** C4, amended. For an interpolation token, [parseInterpolation] consumes
    the token, lexes its body and scans the tokens of the body from the
    left.  When the body lexes to one identifier that the (parent-chained)
    symbol table binds, it returns the bound expression and appends no
    diagnostic; when the body lexes to one identifier that the table does
    not bind, it appends exactly one undeclared-identifier diagnostic and
    returns no value.  For any body: when [ident], at index [i], is the
    first token that is an identifier the table binds, the expression
    bound to it is returned, each of the [i] tokens before it has yielded
    one diagnostic (undeclared-identifier for an identifier,
    expected-identifier for a token of another kind), in order, and the
    tokens after it yield nothing; when the body has no such token, every
    token of it yields its diagnostic and no value is returned. *)
Theorem parseInterpolation_resolves (p : t) :
  let token := TokenStream.peek 0 (m_tokenStream p) in
  let tokens := interpolationTokens token p in
  Token.getTokenClass token = TK_INTERPOLATION ->
  (forall ident value,
     tokens = [ident] ->
     Token.getTokenClass ident = TK_IDENT ->
     BoundGlobals.get (Token.getValue ident) (getBoundGlobals p) = Some value ->
     parseInterpolation p = (Some value, next p))
  /\ (forall ident,
        tokens = [ident] ->
        Token.getTokenClass ident = TK_IDENT ->
        BoundGlobals.get (Token.getValue ident) (getBoundGlobals p) = None ->
        parseInterpolation p = (None, addError (undeclaredError ident) (next p))
        /\ getErrors (snd (parseInterpolation p))
           = getErrors p
             ++ [mkCompilerError LEVEL_ERROR Msg_undeclared_identifier
                   (Token.getLocation ident) (Token.getValue ident)])
  /\ (forall i ident,
        tokens !! i = Some ident ->
        resolvable (getBoundGlobals p) ident ->
        (forall j other,
           (j < i)%nat -> tokens !! j = Some other ->
           ~ resolvable (getBoundGlobals p) other) ->
        exists value,
          BoundGlobals.get (Token.getValue ident) (getBoundGlobals p)
          = Some value
          /\ parseInterpolation p
             = (Some value,
                addErrors (map interpolationError (take i tokens)) (next p))
          /\ getErrors (snd (parseInterpolation p))
             = getErrors p ++ map interpolationError (take i tokens))
  /\ ((forall other,
         other ∈ tokens -> ~ resolvable (getBoundGlobals p) other) ->
      parseInterpolation p
      = (None, addErrors (map interpolationError tokens) (next p))
      /\ getErrors (snd (parseInterpolation p))
         = getErrors p ++ map interpolationError tokens).
Proof.
  intros token tokens Hc.
  pose proof (class_to_bool token _ Hc ltac:(done)) as Hb.
  assert (parseInterpolation p = parseInterpolation_loop tokens (next p)) as Hp.
  { unfold Parser.parseInterpolation. rewrite (expect_hit _ true p Hb Hc).
    fold token. unfold Token.to_bool in Hb. apply negb_true_iff in Hb.
    by rewrite Hb. }
  split; [|split; [|split]].
  - intros ident value Hbody Hi Hget. rewrite Hp, Hbody. simpl.
    rewrite Hi. change (getBoundGlobals (next p)) with (getBoundGlobals p).
    by rewrite Hget.
  - intros ident Hbody Hi Hget. rewrite Hp, Hbody. simpl.
    rewrite Hi. change (getBoundGlobals (next p)) with (getBoundGlobals p).
    by rewrite Hget.
  - intros i ident Hi Hident Hfirst.
    assert (list_find (resolvable (getBoundGlobals p)) tokens = Some (i, ident))
      as Hfind.
    { apply list_find_Some. split; [exact Hi|]. split; [exact Hident|].
      intros j other Hj Hlt. by apply (Hfirst j other). }
    destruct Hident as [_ [value Hget]].
    exists value. split; [exact Hget|].
    rewrite Hp, parseInterpolation_loop_find.
    change (getBoundGlobals (next p)) with (getBoundGlobals p).
    by rewrite Hfind, Hget.
  - intros Hnone.
    assert (list_find (resolvable (getBoundGlobals p)) tokens = None) as Hfind.
    { apply list_find_None, Forall_forall. exact Hnone. }
    rewrite Hp, parseInterpolation_loop_find.
    change (getBoundGlobals (next p)) with (getBoundGlobals p).
    by rewrite Hfind.
Qed.

End Externals.

End TermFacts.

(** ** Progress: what any parsing function may do to the state

    [steps p p'] holds when [p'] has the tokens and the AST sequence of [p],
    at most as many unread tokens, the diagnostics of [p] followed by new
    ones, and still binds every label that [p] binds. *)
Module Progress.

Import Parser StreamFacts TermFacts.

Definition labelBound (name : string) (bg : BoundGlobals) : Prop :=
  exists location, BoundGlobals.m_map bg !! name = Some (AstLabel name location).

Record steps (p p' : t) : Prop := mkSteps {
  steps_tokens :
    TokenStream.m_tokens (m_tokenStream p') = TokenStream.m_tokens (m_tokenStream p);
  steps_remaining : (remaining p' <= remaining p)%nat;
  steps_errors : getErrors p `prefix_of` getErrors p';
  steps_ast : m_astIterator p' = m_astIterator p;
  steps_labels :
    forall name,
      labelBound name (getBoundGlobals p) -> labelBound name (getBoundGlobals p')
}.

#[local] Hint Constructors steps : core.

Lemma steps_refl (p : t) : steps p p.
Proof. by split. Qed.

Lemma steps_trans (p q r : t) : steps p q -> steps q r -> steps p r.
Proof.
  intros [] []. split; [congruence|lia|by etrans|congruence|auto].
Qed.

Lemma steps_addError (e : CompilerError) (p : t) : steps p (addError e p).
Proof. split; [done|done| |done|done]. by apply prefix_app_r. Qed.

Lemma remaining_next (p : t) :
  hasNext p = true -> S (remaining (next p)) = remaining p.
Proof.
  intros H. rewrite (next_hasNext p H). apply hasNext_lt in H.
  unfold remaining, TokenStream.remaining, position in *. simpl. lia.
Qed.

Lemma steps_next (p : t) : steps p (next p).
Proof.
  destruct (hasNext p) eqn:H.
  - split; [apply tokens_next| |done..].
    pose proof (remaining_next p H). lia.
  - rewrite (next_at_end p H). apply steps_refl.
Qed.

Lemma match_steps (c : TokenClass) (read : bool) (p : t) :
  steps p (snd (match_ c read p))
  /\ (Token.to_bool (fst (match_ c read p)) = true -> read = true ->
      S (remaining (snd (match_ c read p))) = remaining p).
Proof.
  destruct (match_cases c read p) as [(Hb & _ & ->)|[_ ->]]; simpl.
  - destruct read; split; auto using steps_next, steps_refl; [|done].
    intros _ _. by apply remaining_next, peek_true_hasNext.
  - split; [apply steps_refl|done].
Qed.

Section Externals.

Context (Lexer_analyze : SourceFile -> CompilationUnit -> list Token * CompilationUnit)
  (tokenTypeToString : TokenClass -> string)
  (getRepr : Token -> string)
  (indeterminate : Parser.t -> Z).

Local Abbreviation expect := (expect tokenTypeToString).
Local Abbreviation parseTerm := (parseTerm Lexer_analyze tokenTypeToString indeterminate).
Local Abbreviation parseExpression :=
  (parseExpression Lexer_analyze tokenTypeToString indeterminate).
Local Abbreviation parseInterpolation :=
  (parseInterpolation Lexer_analyze tokenTypeToString).

Lemma expect_steps (c : TokenClass) (read : bool) (p : t) :
  steps p (snd (expect c read p))
  /\ (Token.to_bool (fst (expect c read p)) = true -> read = true ->
      S (remaining (snd (expect c read p))) = remaining p).
Proof.
  unfold Parser.expect. pose proof (match_steps c read p) as [Hs Hr].
  destruct (match_ c read p) as [token q]. simpl in *.
  destruct (Token.to_bool token) eqn:Hb; simpl.
  - split; [done|]. intros _ Hread. by apply Hr.
  - destruct c; simpl; rewrite Hb;
      (split; [eapply steps_trans; [done|apply steps_addError]|done]).
Qed.

(** A parsing function returning an optional node is productive when it
    never gives back unread tokens and reads at least one token whenever
    it returns a node. *)
Definition productive {A : Type} (f : t -> option A * t) : Prop :=
  forall p,
    steps p (snd (f p))
    /\ (is_Some (fst (f p)) -> (remaining (snd (f p)) < remaining p)%nat).

Lemma expect_node_productive (c : TokenClass)
    (node : Token -> t -> AstExpression) :
  productive
    (fun p =>
       let '(token, p) := expect c true p in
       if Token.to_bool token then (Some (node token p), p) else (None, p)).
Proof.
  intros p. pose proof (expect_steps c true p) as [Hs Hr].
  destruct (expect c true p) as [token q]. simpl in *.
  destruct (Token.to_bool token) eqn:Hb; simpl; (split; [done|]).
  - intros _. specialize (Hr eq_refl eq_refl). lia.
  - by intros [? ?].
Qed.

Lemma parseIdentifier_productive :
  productive (Parser.parseIdentifier tokenTypeToString).
Proof.
  apply (expect_node_productive TK_IDENT
           (fun token _ =>
              AstIdentifier (Token.getValue token) (Token.getLocation token))).
Qed.

Lemma parseIntegerLiteral_productive :
  productive (Parser.parseIntegerLiteral tokenTypeToString indeterminate).
Proof.
  apply (expect_node_productive TK_INTEGER
           (fun token p =>
              AstIntegerLiteral
                (IStream.extract_int64 (indeterminate p) (Token.getValue token))
                (Token.getLocation token))).
Qed.

Lemma parseStringLiteral_productive :
  productive (Parser.parseStringLiteral tokenTypeToString).
Proof.
  apply (expect_node_productive TK_STRING
           (fun token _ =>
              AstStringLiteral (Token.getValue token) (Token.getLocation token))).
Qed.

Lemma parseRegister_productive :
  productive (Parser.parseRegister tokenTypeToString indeterminate).
Proof.
  apply (expect_node_productive TK_REG
           (fun token p =>
              AstDataLocation
                (IStream.extract_int (indeterminate p) (Token.getValue token))
                ObjLoc.RegisterDataStore (Token.getLocation token))).
Qed.

Lemma parseLocal_productive :
  productive (Parser.parseLocal tokenTypeToString indeterminate).
Proof.
  apply (expect_node_productive TK_LOCAL
           (fun token p =>
              AstDataLocation
                (IStream.extract_int (indeterminate p) (Token.getValue token))
                ObjLoc.LocalDataStore (Token.getLocation token))).
Qed.

Lemma parseInterpolation_loop_steps (tokens : list Token) (p : t) :
  steps p (snd (parseInterpolation_loop tokens p))
  /\ remaining (snd (parseInterpolation_loop tokens p)) = remaining p.
Proof.
  revert p. induction tokens as [|token tokens IH]; intros p; simpl.
  - split; [apply steps_refl|done].
  - destruct (Token.getTokenClass token);
      try (destruct (IH (addError (expectedIdentifierError token) p)) as [Hs ->];
           split; [|done];
           eapply steps_trans; [apply steps_addError|exact Hs]).
    destruct (BoundGlobals.get _ _); simpl; [split; [apply steps_refl|done]|].
    destruct (IH (addError (undeclaredError token) p)) as [Hs ->].
    split; [|done]. eapply steps_trans; [apply steps_addError|exact Hs].
Qed.

Lemma parseInterpolation_productive : productive parseInterpolation.
Proof.
  intros p. unfold Parser.parseInterpolation.
  pose proof (expect_steps TK_INTERPOLATION true p) as [Hs Hr].
  destruct (Parser.expect _ TK_INTERPOLATION true p) as [token q]. simpl in *.
  destruct (Token.empty token) eqn:He; simpl.
  - split; [done|]. by intros [? ?].
  - destruct (parseInterpolation_loop_steps
                (Parser.interpolationTokens Lexer_analyze token q) q) as [Hs' Hr'].
    split; [by eapply steps_trans|]. intros _. rewrite Hr'.
    unfold Token.to_bool in Hr. rewrite He in Hr.
    specialize (Hr eq_refl eq_refl). lia.
Qed.

(** One test of an [if] chain: [match] without [read] leaves the state. *)
Ltac test_class :=
  match goal with
  | |- context [match_ ?c false ?p] =>
      let m := fresh "m" in
      let q := fresh "q" in
      let E := fresh "E" in
      let H := fresh "H" in
      destruct (match_ c false p) as [m q] eqn:E;
      pose proof (match_no_read c p) as H;
      rewrite E in H; simpl in H; subst q;
      destruct (Token.to_bool m) eqn:?; cbn [negb]
  end.

Lemma none_productive (p q : t) :
  steps p q ->
  steps p (snd (@None AstExpression, q))
  /\ (is_Some (fst (@None AstExpression, q)) -> (remaining (snd (@None AstExpression, q)) < remaining p)%nat).
Proof. intros H. split; [done|]. by intros [? ?]. Qed.

Lemma parseTerm_productive : productive parseTerm.
Proof.
  intros p. unfold Parser.parseTerm.
  destruct (Token.to_bool (TokenStream.peek 0 (m_tokenStream p))); cbn [negb].
  - test_class; [apply parseIdentifier_productive|].
    test_class; [apply none_productive, steps_refl|].
    test_class; [apply none_productive, steps_refl|].
    test_class; [apply parseIntegerLiteral_productive|].
    test_class; [apply none_productive, steps_refl|].
    test_class; [apply parseStringLiteral_productive|].
    test_class; [apply parseInterpolation_productive|].
    test_class; [apply parseRegister_productive|].
    test_class; [apply parseLocal_productive|].
    apply none_productive. rewrite addError_hasNext.
    eapply steps_trans; [apply steps_addError|].
    destruct (hasNext p); [apply steps_next|apply steps_refl].
  - apply none_productive. rewrite addError_hasNext.
    eapply steps_trans; [apply steps_addError|].
    destruct (hasNext p); [apply steps_next|apply steps_refl].
Qed.

Lemma parseExpression_productive : productive parseExpression.
Proof.
  intros p. unfold Parser.parseExpression.
  pose proof (parseTerm_productive p) as [Hs Hr].
  destruct (parseTerm p) as [[term|] q]; simpl in *; by split.
Qed.

(** *** The loops run out of tokens before they run out of fuel *)

Lemma skipStatementTerminators_loop_total (fuel : nat) (p : t) :
  (remaining p < fuel)%nat ->
  exists p', skipStatementTerminators_loop fuel p = Some p' /\ steps p p'.
Proof.
  revert p. induction fuel as [|fuel IH]; intros p Hf; [lia|]. simpl.
  pose proof (match_steps TK_NEWLINE true p) as [Hs Hr].
  destruct (match_ TK_NEWLINE true p) as [token q]. simpl in *.
  destruct (Token.to_bool token).
  - specialize (Hr eq_refl eq_refl).
    destruct (IH q ltac:(lia)) as (p' & -> & Hs').
    exists p'. split; [done|]. by eapply steps_trans.
  - by exists q.
Qed.

Lemma skipStatementTerminators_total (p : t) :
  exists p', skipStatementTerminators p = Some p' /\ steps p p'.
Proof. apply skipStatementTerminators_loop_total. lia. Qed.

Lemma expectEndOfStmt_skip_total (fuel : nat) (p : t) :
  (remaining p < fuel)%nat ->
  exists p', expectEndOfStmt_skip fuel p = Some p' /\ steps p p'.
Proof.
  revert p. induction fuel as [|fuel IH]; intros p Hf; [lia|]. simpl.
  pose proof (steps_next p) as Hn.
  destruct (hasNext (next p)) eqn:Hh; [|by exists (next p)].
  assert (hasNext p = true) as Hp.
  { destruct (hasNext p) eqn:Hp; [done|]. by rewrite (next_at_end p Hp), Hp in Hh. }
  pose proof (remaining_next p Hp) as Hr.
  pose proof (match_steps TK_NEWLINE true (next p)) as [Hs _].
  destruct (match_ TK_NEWLINE true (next p)) as [token q]. simpl in *.
  assert (steps p q) as Hq by (by eapply steps_trans).
  destruct (Token.to_bool token); simpl; [by exists q|].
  destruct (IH q) as (p' & -> & Hs').
  { pose proof (steps_remaining _ _ Hs). lia. }
  exists p'. split; [done|]. by eapply steps_trans.
Qed.

Lemma expectEndOfStmt_total (p : t) :
  exists r, expectEndOfStmt p = Some r /\ steps p (snd r).
Proof.
  unfold expectEndOfStmt.
  pose proof (match_steps TK_NEWLINE true p) as [Hs _].
  destruct (match_ TK_NEWLINE true p) as [token q]. cbn [fst snd] in *.
  destruct (Token.to_bool token); cbn [negb]; [by eexists|].
  set (q' := addError _ q).
  destruct (expectEndOfStmt_skip_total (S (remaining q')) q' ltac:(lia))
    as (p' & -> & Hs').
  simpl. eexists. split; [done|]. simpl.
  eapply steps_trans; [exact Hs|]. eapply steps_trans; [|exact Hs'].
  apply steps_addError.
Qed.

Lemma parseDirective_arguments_total (fuel : nat)
    (arguments : list AstExpression) (p : t) :
  (remaining p < fuel)%nat ->
  exists r,
    parseDirective_arguments Lexer_analyze tokenTypeToString indeterminate fuel arguments p
    = Some r
    /\ steps p (snd r).
Proof.
  revert arguments p. induction fuel as [|fuel IH]; intros arguments p Hf; [lia|].
  cbn [Parser.parseDirective_arguments].
  destruct (hasNext p); [|eexists; split; [done|apply steps_refl]].
  test_class; [eexists; split; [done|apply steps_refl]|].
  test_class; [eexists; split; [done|apply steps_refl]|].
  pose proof (parseTerm_productive p) as [Hs Hr].
  destruct (parseTerm p) as [[expr|] q]; cbn [fst snd] in *; [|by eexists].
  specialize (Hr ltac:(done)).
  destruct (IH (arguments ++ [expr]) q ltac:(lia)) as (r & -> & Hs').
  exists r. split; [done|]. by eapply steps_trans.
Qed.

Lemma parseDirective_body_total (fuel : nat) (parenCounter : Z)
    (body : string) (p : t) :
  (remaining p < fuel)%nat ->
  exists r,
    parseDirective_body getRepr fuel parenCounter body p = Some r
    /\ steps p (snd r).
Proof.
  revert parenCounter body p.
  induction fuel as [|fuel IH]; intros parenCounter body p Hf; [lia|].
  cbn [Parser.parseDirective_body].
  destruct (hasNext p) eqn:Hn; [|eexists; split; [done|apply steps_refl]].
  pose proof (remaining_next p Hn) as Hr.
  assert (forall n b,
            exists r, parseDirective_body getRepr fuel n b (next p) = Some r
                      /\ steps p (snd r)) as Hstep.
  { intros n b. destruct (IH n b (next p) ltac:(lia)) as (r & -> & Hs).
    exists r. split; [done|]. eapply steps_trans; [apply steps_next|done]. }
  test_class; [apply Hstep|].
  test_class; [|apply Hstep].
  destruct (parenCounter - 1 =? 0); [|apply Hstep].
  eexists. split; [done|]. apply steps_next.
Qed.

(** A label declaration is returned only with its label bound. *)
Definition declares (stmt : option AstStatement) (p : t) : Prop :=
  forall name astLabel location,
    stmt = Some (AstLabelDecl name astLabel location) ->
    labelBound name (getBoundGlobals p).

(** A statement-level function is productive when it always returns,
    never gives back unread tokens, reads at least one token whenever it
    returns a statement, and binds the label of a declaration it
    returns. *)
Definition productiveS (f : t -> option (option AstStatement * t)) : Prop :=
  forall p,
    exists r,
      f p = Some r
      /\ steps p (snd r)
      /\ (is_Some (fst r) -> (remaining (snd r) < remaining p)%nat)
      /\ declares (fst r) (snd r).

Lemma parseDirective_productive :
  productiveS (parseDirective Lexer_analyze tokenTypeToString getRepr indeterminate).
Proof.
  intros p. unfold parseDirective.
  pose proof (expect_steps TK_DIRECTIVE true p) as [Hs Hr].
  destruct (Parser.expect _ TK_DIRECTIVE true p) as [token q]. cbn [fst snd] in *.
  destruct (Token.to_bool token).
  - specialize (Hr eq_refl eq_refl).
    destruct (parseDirective_arguments_total (S (remaining q)) [] q ltac:(lia))
      as ([arguments q1] & -> & Hs1).
    cbn [fst snd mbind option_bind] in *.
    pose proof (match_steps TK_OPEN_BRACE true q1) as [Hs2 _].
    destruct (match_ TK_OPEN_BRACE true q1) as [m q2]. cbn [fst snd] in *.
    assert (steps p q2) as Hq2 by eauto using steps_trans.
    pose proof (steps_remaining _ _ Hs1). pose proof (steps_remaining _ _ Hs2).
    destruct (Token.to_bool m).
    + destruct (parseDirective_body_total (S (remaining q2)) 1 "" q2 ltac:(lia))
        as ([body q3] & -> & Hs3).
      cbn [fst snd mbind option_bind] in *.
      pose proof (steps_remaining _ _ Hs3).
      eexists. split; [done|]. cbn [fst snd].
      split_and!; [by eapply steps_trans|intros _; lia|by intros ???].
    + cbn [fst snd mbind option_bind]. eexists. split; [done|]. cbn [fst snd].
      split_and!; [done|intros _; lia|by intros ???].
  - eexists. split; [done|]. cbn [fst snd].
    split_and!; [done|by intros [? ?]|by intros ???].
Qed.

Lemma labelBound_set (name : string) (location : SourceLocation)
    (bg : BoundGlobals) :
  labelBound name (BoundGlobals.set name (AstLabel name location) bg).
Proof. exists location. simpl. apply lookup_insert_eq. Qed.

Lemma labelBound_set_mono (name name' : string) (location : SourceLocation)
    (bg : BoundGlobals) :
  labelBound name' bg ->
  labelBound name' (BoundGlobals.set name (AstLabel name location) bg).
Proof.
  intros [location' H]. destruct (decide (name = name')) as [<-|Hne].
  - apply labelBound_set.
  - exists location'. simpl. by rewrite lookup_insert_ne.
Qed.

Lemma labelBound_get (name : string) (bg : BoundGlobals) :
  labelBound name bg ->
  exists location, BoundGlobals.get name bg = Some (AstLabel name location).
Proof. intros [location H]. exists location. destruct bg. simpl in *. by rewrite H. Qed.

(** What [parseLabel] returns: the declaration of the label token, with
    the label bound in the symbol table. *)
Lemma parseLabel_spec (p : t) :
  let r := parseLabel tokenTypeToString p in
  steps p (snd r)
  /\ (is_Some (fst r) -> (remaining (snd r) < remaining p)%nat)
  /\ (forall stmt, fst r = Some stmt ->
        exists name location,
          stmt = AstLabelDecl name (AstLabel name location) location
          /\ labelBound name (getBoundGlobals (snd r))).
Proof.
  unfold parseLabel.
  pose proof (expect_steps TK_LABEL true p) as [Hs Hr].
  destruct (Parser.expect _ TK_LABEL true p) as [token q]. cbn [fst snd] in *.
  destruct (Token.to_bool token); cbn [fst snd].
  - specialize (Hr eq_refl eq_refl). split_and!.
    + eapply steps_trans; [exact Hs|]. split; try done.
      intros name'. apply labelBound_set_mono.
    + intros _. unfold remaining, with_compilationUnit in *.
      cbn [m_tokenStream] in *. lia.
    + intros stmt [= <-]. eexists _, _. split; [done|]. apply labelBound_set.
  - split_and!; [done|by intros [? ?]|done].
Qed.

Lemma parseLabel_productive :
  productiveS (fun p => Some (parseLabel tokenTypeToString p)).
Proof.
  intros p. destruct (parseLabel_spec p) as (Hs & Hr & Hl).
  eexists. split_and!; [done..|].
  intros name astLabel location Heq.
  destruct (Hl _ Heq) as (name' & location' & [= -> -> ->] & Hb). done.
Qed.

Lemma steps_rewind_next (p : t) :
  hasNext p = true -> steps p (with_tokenStream TokenStream.rewind (next p)).
Proof. intros H. rewrite (rewind_next p H). apply steps_refl. Qed.

(** [parseCommand] never returns a label declaration. *)
Definition notLabelDecl (stmt : option AstStatement) : Prop :=
  forall name astLabel location, stmt <> Some (AstLabelDecl name astLabel location).

Lemma parseCommand_spec (p : t) :
  let r := parseCommand Lexer_analyze tokenTypeToString indeterminate p in
  steps p (snd r)
  /\ (is_Some (fst r) -> (remaining (snd r) < remaining p)%nat)
  /\ notLabelDecl (fst r).
Proof.
  unfold parseCommand.
  destruct (match_cases TK_IDENT true p) as [(Hb & Hc & Hm)|[Hmiss Hm]].
  - rewrite (expect_hit tokenTypeToString TK_IDENT true p Hb Hc). rewrite Hb.
    pose proof (peek_true_hasNext p Hb) as Hn.
    pose proof (remaining_next p Hn) as Hr.
    set (token := TokenStream.peek 0 (m_tokenStream p)).
    destruct (jumpModeStrings !! Token.getValue token) as [jumpMode|].
    { pose proof (parseExpression_productive (next p)) as [Hs1 Hr1].
      destruct (parseExpression (next p)) as [[expr|] q]; cbn [fst snd] in *.
      - specialize (Hr1 ltac:(done)). split_and!; [|intros _; lia|done].
        eapply steps_trans; [apply steps_next|done].
      - split_and!; [|by intros [? ?]|done].
        eapply steps_trans; [apply steps_next|done]. }
    case_bool_decide.
    { pose proof (parseExpression_productive (next p)) as [Hs1 Hr1].
      destruct (parseExpression (next p)) as [[lhs|] q]; cbn [fst snd] in *.
      - specialize (Hr1 ltac:(done)).
        pose proof (parseExpression_productive q) as [Hs2 Hr2].
        destruct (parseExpression q) as [[rhs|] q']; cbn [fst snd] in *.
        + specialize (Hr2 ltac:(done)). split_and!; [|intros _; lia|done].
          eapply steps_trans; [apply steps_next|by eapply steps_trans].
        + split_and!; [|by intros [? ?]|done].
          eapply steps_trans; [apply steps_next|by eapply steps_trans].
      - split_and!; [|by intros [? ?]|done].
        eapply steps_trans; [apply steps_next|done]. }
    rewrite (rewind_next p Hn).
    pose proof (parseIdentifier_productive p) as [Hs1 Hr1].
    destruct (Parser.parseIdentifier tokenTypeToString p) as [[ident|] q];
      cbn [fst snd fmap option_fmap option_map] in *.
    + split_and!; [done|intros _; by apply Hr1|done].
    + split_and!; [done|by intros [? ?]|done].
  - pose proof (expect_steps TK_IDENT true p) as [Hs Hr].
    unfold Parser.expect in *. rewrite Hm in *. cbn [fst snd negb] in *.
    change (Token.to_bool Token.EMPTY) with false in *. cbn [fst snd negb] in *.
    split_and!; [|by intros [? ?]|done].
    eapply steps_trans; [exact Hs|apply steps_next].
Qed.

Lemma parseCommand_productive :
  productiveS (fun p => Some (parseCommand Lexer_analyze tokenTypeToString indeterminate p)).
Proof.
  intros p. destruct (parseCommand_spec p) as (Hs & Hr & Hl).
  eexists. split_and!; [done..|]. intros name astLabel location Heq.
  by destruct (Hl name astLabel location).
Qed.

Lemma parseExpression_statement_productive :
  productiveS
    (fun p => let '(expr, p) := parseExpression p in Some (AstExpr <$> expr, p)).
Proof.
  intros p. pose proof (parseExpression_productive p) as [Hs Hr].
  destruct (parseExpression p) as [[expr|] q]; cbn [fst snd] in *;
    (eexists; split; [done|]);
    cbn [fst snd fmap option_fmap option_map]; split_and!; try done.
  intros _. by apply Hr.
Qed.

(** The dispatch of [parseStatement] on the class of the next token. *)
Lemma parseStatement_dispatch_productive :
  productiveS
    (fun p =>
       let '(m, p) := match_ TK_DIRECTIVE false p in
       if Token.to_bool m
       then parseDirective Lexer_analyze tokenTypeToString getRepr indeterminate p else
       let '(m, p) := match_ TK_LABEL false p in
       if Token.to_bool m then Some (parseLabel tokenTypeToString p) else
       let '(m, p) := match_ TK_IDENT false p in
       if Token.to_bool m
       then Some (parseCommand Lexer_analyze tokenTypeToString indeterminate p) else
       let '(expr, p) := parseExpression p in
       Some (AstExpr <$> expr, p)).
Proof.
  intros p.
  test_class; [apply parseDirective_productive|].
  test_class; [apply parseLabel_productive|].
  test_class; [apply parseCommand_productive|].
  apply parseExpression_statement_productive.
Qed.

Lemma declares_steps (stmt : option AstStatement) (p q : t) :
  declares stmt p -> steps p q -> declares stmt q.
Proof. intros Hd Hs name astLabel location Heq. eapply steps_labels; eauto. Qed.

Theorem parseStatement_productive :
  productiveS (parseStatement Lexer_analyze tokenTypeToString getRepr indeterminate).
Proof.
  intros p. unfold parseStatement.
  destruct (skipStatementTerminators_total p) as (p1 & -> & Hs1).
  cbn [mbind option_bind].
  pose proof (steps_remaining _ _ Hs1) as Hr1.
  destruct (hasNext p1); cbn [negb].
  - destruct (parseStatement_dispatch_productive p1)
      as ([res q] & -> & Hs2 & Hr2 & Hl2).
    cbn [mbind option_bind fst snd] in *.
    assert (steps p q) as Hq by (by eapply steps_trans).
    destruct (bool_decide (is_Some res) && hasNext q).
    + destruct (expectEndOfStmt_total q) as ([ok q'] & -> & Hs3).
      cbn [mbind option_bind fst snd] in *.
      pose proof (steps_remaining _ _ Hs3).
      eexists. split; [done|]. cbn [fst snd].
      split_and!; [by eapply steps_trans|intros H'; specialize (Hr2 H'); lia|].
      by eapply declares_steps.
    + eexists. split; [done|]. cbn [fst snd].
      split_and!; [done|intros H'; specialize (Hr2 H'); lia|done].
  - eexists. split; [done|]. cbn [fst snd].
    split_and!; [done|by intros [? ?]|by intros ???].
Qed.

Local Abbreviation parseStatement :=
  (parseStatement Lexer_analyze tokenTypeToString getRepr indeterminate).
Local Abbreviation parse_loop :=
  (parse_loop Lexer_analyze tokenTypeToString getRepr indeterminate).
Local Abbreviation parsedStatements :=
  (parsedStatements Lexer_analyze tokenTypeToString getRepr indeterminate).
Local Abbreviation parse := (parse Lexer_analyze tokenTypeToString getRepr indeterminate).

(** The two lists of [parse_loop] are the hoisted and the other
    statements among the parsed ones, each in parse order. *)
Lemma parse_loop_parsedStatements (fuel : nat)
    (hoisted otherStmts : list AstStatement) (p : t) :
  parse_loop fuel hoisted otherStmts p
  = '(stmts, p') ← parsedStatements fuel p;
    Some (hoisted ++ filter (fun stmt => isHoisted stmt = true) stmts,
          otherStmts ++ filter (fun stmt => isHoisted stmt = false) stmts,
          p').
Proof.
  revert hoisted otherStmts p.
  induction fuel as [|fuel IH]; intros hoisted otherStmts p; [done|].
  cbn [Parser.parse_loop Parser.parsedStatements].
  destruct (hasNext p); [|cbn; by rewrite !app_nil_r].
  destruct (parseStatement p) as [[[stmt|] q]|]; cbn [mbind option_bind];
    [|cbn; by rewrite !app_nil_r|done].
  destruct (isHoisted stmt) eqn:Hh; rewrite IH;
    (destruct (parsedStatements fuel q) as [[stmts q']|]; [|done]);
    cbn [mbind option_bind].
  - rewrite filter_cons_True, (filter_cons_False _ stmt) by (by rewrite ?Hh).
    by rewrite <- app_assoc.
  - rewrite filter_cons_False, (filter_cons_True _ stmt) by (by rewrite ?Hh).
    by rewrite <- app_assoc.
Qed.

(** The loop of [parse] ends, either with the stream read to its end or
    right after a [parseStatement] that gave no statement. *)
Lemma parsedStatements_total (fuel : nat) (p : t) :
  (remaining p < fuel)%nat ->
  exists stmts p',
    parsedStatements fuel p = Some (stmts, p')
    /\ steps p p'
    /\ (forall name astLabel location,
          AstLabelDecl name astLabel location ∈ stmts ->
          labelBound name (getBoundGlobals p'))
    /\ (hasNext p' = false
        \/ exists q, steps p q /\ hasNext q = true
                     /\ parseStatement q = Some (None, p')).
Proof.
  revert p. induction fuel as [|fuel IH]; intros p Hf; [lia|].
  cbn [Parser.parsedStatements].
  destruct (hasNext p) eqn:Hn.
  - destruct (parseStatement_productive p) as ([stmt q] & Hp & Hs & Hr & Hl).
    rewrite Hp. cbn [mbind option_bind fst snd] in *.
    destruct stmt as [stmt|].
    + specialize (Hr ltac:(done)).
      destruct (IH q ltac:(lia)) as (stmts & p' & -> & Hs' & Hl' & Hend).
      cbn [mbind option_bind]. exists (stmt :: stmts), p'.
      split_and!; [done|by eapply steps_trans| |].
      * intros name astLabel location [Heq|Hin]%elem_of_cons; [|eauto].
        subst stmt. eapply steps_labels; [exact Hs'|]. by eapply Hl.
      * destruct Hend as [?|(q' & Hq' & Hn' & Hp')]; [by left|right].
        exists q'. split_and!; [by eapply steps_trans|done..].
    + exists [], q. split_and!; [done|done| |].
      * by intros ??? ?%elem_of_nil.
      * right. exists p. split_and!; [apply steps_refl|done..].
  - exists [], p. split_and!; [done|apply steps_refl| |by left].
    by intros ??? ?%elem_of_nil.
Qed.

Lemma pushAll_spec (stmts : list AstStatement) (p : t) :
  pushAll stmts p
  = mk (AstIterator.mk (AstIterator.m_list (m_astIterator p) ++ stmts)
          (AstIterator.m_position (m_astIterator p)))
      (m_tokenStream p) (m_compilationUnit p).
Proof.
  revert p. induction stmts as [|stmt stmts IH]; intros p.
  - destruct p as [[] ? ?]. simpl. by rewrite app_nil_r.
  - unfold pushAll in *. cbn [foldl]. rewrite IH. cbn.
    by rewrite <- app_assoc.
Qed.

End Externals.

End Progress.

(** ** [Parser::parse] *)
Module ParseFacts.

Import Parser StreamFacts TermFacts Progress.

Section Externals.

Context (Lexer_analyze : SourceFile -> CompilationUnit -> list Token * CompilationUnit)
  (tokenTypeToString : TokenClass -> string)
  (getRepr : Token -> string)
  (indeterminate : Parser.t -> Z).

Local Abbreviation parseStatement :=
  (parseStatement Lexer_analyze tokenTypeToString getRepr indeterminate).
Local Abbreviation parse_loop :=
  (parse_loop Lexer_analyze tokenTypeToString getRepr indeterminate).
Local Abbreviation parsedStatements :=
  (parsedStatements Lexer_analyze tokenTypeToString getRepr indeterminate).
Local Abbreviation parse := (parse Lexer_analyze tokenTypeToString getRepr indeterminate).

(** [parse] always returns; what it returns is described by the
    statements its loop parsed. *)
Lemma parse_spec (p : t) :
  exists p0 stmts q,
    skipStatementTerminators p = Some p0
    /\ parsedStatements (S (remaining p0)) p0 = Some (stmts, q)
    /\ parse p
       = Some (pushAll (filter (fun stmt => isHoisted stmt = false) stmts)
                 (pushAll (filter (fun stmt => isHoisted stmt = true) stmts) q))
    /\ steps p q
    /\ (forall name astLabel location,
          AstLabelDecl name astLabel location ∈ stmts ->
          labelBound name (getBoundGlobals q))
    /\ (hasNext q = false
        \/ exists r, steps p r /\ hasNext r = true
                     /\ parseStatement r = Some (None, q)).
Proof.
  destruct (skipStatementTerminators_total p) as (p0 & Hskip & Hs0).
  destruct (parsedStatements_total Lexer_analyze tokenTypeToString getRepr indeterminate
              (S (remaining p0)) p0 ltac:(lia))
    as (stmts & q & Hstmts & Hs & Hl & Hend).
  exists p0, stmts, q. split_and!; [done|done| |by eapply steps_trans|done|].
  - unfold Parser.parse. rewrite Hskip. cbn [mbind option_bind].
    rewrite parse_loop_parsedStatements, Hstmts. done.
  - destruct Hend as [?|(r & Hr & Hn & Hp)]; [by left|right].
    exists r. split_and!; [by eapply steps_trans|done..].
Qed.

(** C2, amended. For every token stream [parse] returns, having collected
    the statements that [parseStatement] yields up to the end of the
    stream or to the first call that yields no statement; it pushes the
    hoisted ones among them into the AST sequence before all the others,
    each group in parse order; and every label declaration among the
    collected statements is bound to a label of its name in the symbol
    table when [parse] returns, wherever it stands relative to the
    statements that refer to it. *)
Theorem parse_hoists (p : t) :
  exists p0 stmts q p',
    skipStatementTerminators p = Some p0
    /\ parsedStatements (S (remaining p0)) p0 = Some (stmts, q)
    /\ (hasNext q = false
        \/ exists r, hasNext r = true /\ parseStatement r = Some (None, q))
    /\ parse p = Some p'
    /\ AstIterator.m_list (m_astIterator p')
       = AstIterator.m_list (m_astIterator p)
         ++ filter (fun stmt => isHoisted stmt = true) stmts
         ++ filter (fun stmt => isHoisted stmt = false) stmts
    /\ (forall name astLabel location,
          AstLabelDecl name astLabel location ∈ stmts ->
          exists location',
            BoundGlobals.get name (getBoundGlobals p')
            = Some (AstLabel name location')).
Proof.
  destruct (parse_spec p) as (p0 & stmts & q & Hskip & Hstmts & Hp & Hs & Hl & Hend).
  eexists p0, stmts, q, _. split_and!; [done|done| |exact Hp| |].
  - destruct Hend as [?|(r & _ & ? & ?)]; [by left|right; by exists r].
  - rewrite !pushAll_spec. cbn. rewrite (steps_ast _ _ Hs).
    by rewrite <- app_assoc.
  - intros name astLabel location Hin. rewrite !pushAll_spec.
    apply labelBound_get. by eapply Hl.
Qed.

(** C3, amended. Diagnostics are appended to the list of the unit and
    never thrown: [parse] always returns, and the diagnostics it was
    given stay, in order, at the front of the list.  But when
    [parseStatement] yields no statement while tokens are left, the loop
    of [parse] ends there with the statements collected so far: [parse]
    returns either with the stream read to its end, or with the token
    stream and the unit that the first such [parseStatement] left, so the
    statements after it are not parsed in that pass. *)
Theorem parse_stops_at_failed_statement (p : t) :
  (exists p',
     parse p = Some p'
     /\ getErrors p `prefix_of` getErrors p'
     /\ (hasNext p' = false
         \/ exists q q',
              hasNext q = true
              /\ parseStatement q = Some (None, q')
              /\ m_tokenStream p' = m_tokenStream q'
              /\ m_compilationUnit p' = m_compilationUnit q'))
  /\ (forall fuel hoisted otherStmts q q',
        hasNext q = true ->
        parseStatement q = Some (None, q') ->
        parse_loop (S fuel) hoisted otherStmts q
        = Some (hoisted, otherStmts, q')).
Proof.
  split.
  - destruct (parse_spec p) as (p0 & stmts & q & _ & _ & Hp & Hs & _ & Hend).
    eexists. split_and!; [exact Hp| |].
    + rewrite !pushAll_spec. apply (steps_errors _ _ Hs).
    + rewrite !pushAll_spec.
      destruct Hend as [?|(r & _ & ? & ?)]; [by left|right; by exists r, q].
  - intros fuel hoisted otherStmts q q' Hn Hp.
    cbn [Parser.parse_loop]. by rewrite Hn, Hp.
Qed.

End Externals.

(** C2, counterexample. In the unit [jmp lbl], [cmp], [lbl:] the jump
    refers to a label that is declared in the unit, but [parse] stops at
    the [cmp] that has no operand: it collects the jump alone, leaves the
    declaration unread, and returns with [lbl] unbound. *)
Lemma parse_misses_later_label :
  Examples.statements <$> Examples.parse (Examples.start Examples.jmp_cmp_label)
  = Some [AstJmpStatement (AstIdentifier "lbl" (Examples.at_ 1 5)) JumpMode_None
            (Examples.at_ 1 1)]
  /\ Examples.unread <$> Examples.parse (Examples.start Examples.jmp_cmp_label)
     = Some [Token.mk TK_LABEL "lbl" (Examples.at_ 3 1)]
  /\ (fun p => BoundGlobals.get "lbl" (getBoundGlobals p))
       <$> Examples.parse (Examples.start Examples.jmp_cmp_label)
     = Some None.
Proof. split_and!; vm_compute; reflexivity. Qed.

(** C3, counterexample. After [cmp] fails to parse, the statement [jmp 7]
    that follows it is not parsed: [parse] returns with its three tokens
    unread, no statement collected, and the one diagnostic of the [cmp]. *)
Lemma parse_does_not_continue :
  Examples.unread <$> Examples.parse (Examples.start Examples.cmp_then_jmp)
  = Some [ Token.mk TK_IDENT "jmp" (Examples.at_ 2 1);
           Token.mk TK_INTEGER "7" (Examples.at_ 2 5);
           Token.mk TK_NEWLINE "" (Examples.at_ 2 6) ]
  /\ hasNext <$> Examples.parse (Examples.start Examples.cmp_then_jmp) = Some true
  /\ Examples.statements <$> Examples.parse (Examples.start Examples.cmp_then_jmp)
     = Some []
  /\ getErrors <$> Examples.parse (Examples.start Examples.cmp_then_jmp)
     = Some [mkCompilerError LEVEL_ERROR Msg_unexpected_eol (Examples.at_ 1 4) ""].
Proof. split_and!; vm_compute; reflexivity. Qed.

End ParseFacts.

(** ** The driver and the gate on emission *)
Module DriverFacts.

Import Parser StreamFacts TermFacts Progress ParseFacts.

Lemma insertSorted_perm (e : CompilerError) (l : ErrorList.t) :
  ErrorList.insertSorted e l ≡ₚ e :: l.
Proof.
  induction l as [|x l IH]; [done|]. simpl.
  destruct (ErrorList.before e x); [done|]. rewrite IH. apply Permutation_swap.
Qed.

Lemma sortErrors_perm (l : ErrorList.t) : ErrorList.sortErrors l ≡ₚ l.
Proof.
  induction l as [|x l IH]; [done|]. unfold ErrorList.sortErrors in *. simpl.
  by rewrite insertSorted_perm, IH.
Qed.

Lemma hasFatalErrors_true (l : ErrorList.t) :
  ErrorList.hasFatalErrors l = true
  <-> exists e, e ∈ l /\ ErrorList.isFatal e = true.
Proof.
  unfold ErrorList.hasFatalErrors. rewrite existsb_exists.
  by setoid_rewrite list_elem_of_In.
Qed.

(** Sorting the diagnostics neither adds nor removes a fatal one. *)
Lemma hasFatalErrors_sortErrors (l : ErrorList.t) :
  ErrorList.hasFatalErrors (ErrorList.sortErrors l) = ErrorList.hasFatalErrors l.
Proof.
  apply eq_true_iff_eq. rewrite !hasFatalErrors_true.
  by setoid_rewrite (sortErrors_perm l).
Qed.

Lemma hasFatalErrors_addError (e : CompilerError) (l : ErrorList.t) :
  getLevel e = LEVEL_ERROR ->
  ErrorList.hasFatalErrors (ErrorList.addError e l) = true.
Proof.
  intros He. apply hasFatalErrors_true. exists e. split.
  - unfold ErrorList.addError. apply elem_of_app. right. by apply list_elem_of_singleton.
  - unfold ErrorList.isFatal. by rewrite He.
Qed.

Lemma Compiler_compile_empty
    (build : AstStatement -> CompilationUnit * BytecodeChunk
             -> CompilationUnit * BytecodeChunk)
    (iterator : AstIterator) (unit : CompilationUnit) (chunk : BytecodeChunk) :
  AstIterator.m_list iterator = [] ->
  Compiler_compile build iterator unit chunk = (unit, chunk).
Proof. unfold Compiler_compile. intros ->. by rewrite drop_nil. Qed.

Section Externals.

Context (Lexer_analyze : SourceFile -> CompilationUnit -> list Token * CompilationUnit)
  (tokenTypeToString : TokenClass -> string)
  (getRepr : Token -> string)
  (visit : AstStatement -> CompilationUnit -> CompilationUnit)
  (build : AstStatement -> CompilationUnit * BytecodeChunk
           -> CompilationUnit * BytecodeChunk)
  (writeOutput : ErrorList.t -> string)
  (indeterminate : Parser.t -> Z).

Local Abbreviation parse :=
  (parse Lexer_analyze tokenTypeToString getRepr indeterminate).
Local Abbreviation frontEnd :=
  (CompilerHelper.frontEnd Lexer_analyze tokenTypeToString getRepr visit
     indeterminate).
Local Abbreviation buildSourceFile :=
  (CompilerHelper.buildSourceFile Lexer_analyze tokenTypeToString getRepr visit
     build writeOutput indeterminate).

Lemma frontEnd_total (sourceFile : SourceFile) (unit : CompilationUnit) :
  is_Some (frontEnd sourceFile unit).
Proof.
  unfold CompilerHelper.frontEnd.
  destruct (Lexer_analyze sourceFile unit) as [tokens unit'].
  destruct (parse_spec Lexer_analyze tokenTypeToString getRepr indeterminate
              (mk AstIterator.new (TokenStream.mk tokens 0) unit'))
    as (? & ? & ? & _ & _ & -> & _).
  by eexists.
Qed.

(** The two ways out of [buildSourceFile] once the file is open. *)
Lemma buildSourceFile_opened (buffer filename : string)
    (unit unit' : CompilationUnit) (iterator : AstIterator) :
  frontEnd (mkSourceFile filename buffer) unit = Some (iterator, unit') ->
  buildSourceFile (Some buffer) filename unit
  = Some
      (if ErrorList.hasFatalErrors (CompilationUnit.m_errorList unit')
       then
         CompilerHelper.mkOutcome
           (false, writeOutput (CompilationUnit.m_errorList unit')) unit' None
       else
         CompilerHelper.mkOutcome (true, "")
           (fst (Compiler_compile build (AstIterator.resetPosition iterator)
                   unit' []))
           (Some (snd (Compiler_compile build
                         (AstIterator.resetPosition iterator) unit' [])))).
Proof.
  intros Hfront. unfold CompilerHelper.buildSourceFile. rewrite Hfront.
  cbn [mbind option_bind].
  destruct (ErrorList.hasFatalErrors (CompilationUnit.m_errorList unit'));
    cbn [negb]; [done|].
  by destruct (Compiler_compile build (AstIterator.resetPosition iterator) unit' []).
Qed.

(** C1, amended. [buildSourceFile] always returns.  The emission pass
    runs, and a chunk is produced, exactly when the source file could be
    opened and the diagnostic list has no fatal entry after lexing,
    parsing and analysis; then the call succeeds and the chunk is what
    the compiler's pass over the AST sequence appended to an empty chunk,
    which is the empty chunk when the sequence has no statement.  With a
    fatal diagnostic no chunk is produced and the call fails with the
    rendered diagnostics. *)
Theorem buildSourceFile_gate (in_file : option string) (filename : string)
    (unit : CompilationUnit) :
  exists out,
    buildSourceFile in_file filename unit = Some out
    /\ (in_file = None ->
        CompilerHelper.result out = (false, "")
        /\ CompilerHelper.emitted out = None)
    /\ (forall buffer,
          in_file = Some buffer ->
          exists iterator unit',
            frontEnd (mkSourceFile filename buffer) unit = Some (iterator, unit')
            /\ (is_Some (CompilerHelper.emitted out)
                <-> ErrorList.hasFatalErrors (CompilationUnit.m_errorList unit')
                    = false)
            /\ (ErrorList.hasFatalErrors (CompilationUnit.m_errorList unit') = false ->
                CompilerHelper.result out = (true, "")
                /\ CompilerHelper.emitted out
                   = Some (snd (Compiler_compile build
                                  (AstIterator.resetPosition iterator) unit' []))
                /\ (AstIterator.m_list iterator = [] ->
                    CompilerHelper.emitted out = Some []))
            /\ (ErrorList.hasFatalErrors (CompilationUnit.m_errorList unit') = true ->
                CompilerHelper.result out
                = (false, writeOutput (CompilationUnit.m_errorList unit'))
                /\ CompilerHelper.emitted out = None)).
Proof.
  destruct in_file as [buffer|].
  - destruct (frontEnd_total (mkSourceFile filename buffer) unit)
      as [[iterator unit'] Hfront].
    rewrite (buildSourceFile_opened _ _ _ _ _ Hfront).
    eexists. split; [done|]. split; [done|].
    intros ? [= <-]. exists iterator, unit'.
    destruct (ErrorList.hasFatalErrors (CompilationUnit.m_errorList unit'));
      cbn [CompilerHelper.result CompilerHelper.emitted].
    + split_and!; [done| |intros; congruence|done].
      split; [by intros [? ?]|intros; congruence].
    + split_and!; [done| | |intros; congruence].
      * split; [done|by eexists].
      * intros _. split_and!; [done|done|]. intros Hnil.
        by rewrite Compiler_compile_empty.
  - eexists. split; [done|]. split; [done|]. by intros ? [=].
Qed.

(** C5, amended. For the statement [cmp] with no operand (the
    identifier alone, or followed by the newline that ends the line),
    parsing returns with every token consumed and no statement
    collected, having appended exactly one diagnostic, for the missing
    first operand (unexpected end of file, or unexpected end of line):
    [parseCommand] returns as soon as the first operand is missing.  The
    diagnostic is fatal, so [buildSourceFile] fails and no chunk is
    emitted. *)
Theorem cmp_without_operands (location : SourceLocation) (rest : list Token)
    (filename buffer : string) (unit unit' : CompilationUnit) :
  let tokens := Token.mk TK_IDENT "cmp" location :: rest in
  (rest = []
   \/ exists value location', rest = [Token.mk TK_NEWLINE value location']) ->
  Lexer_analyze (mkSourceFile filename buffer) unit = (tokens, unit') ->
  exists p' e out,
    parse (mk AstIterator.new (TokenStream.mk tokens 0) unit') = Some p'
    /\ getErrors p' = CompilationUnit.m_errorList unit' ++ [e]
    /\ getLevel e = LEVEL_ERROR
    /\ getMessage e
       = match rest with
         | [] => Msg_unexpected_eof
         | _ => Msg_unexpected_eol
         end
    /\ position p' = length tokens
    /\ hasNext p' = false
    /\ AstIterator.m_list (m_astIterator p') = []
    /\ buildSourceFile (Some buffer) filename unit = Some out
    /\ CompilerHelper.emitted out = None
    /\ fst (CompilerHelper.result out) = false.
Proof.
  intros tokens Hrest Hlex.
  assert (exists e,
            parse (mk AstIterator.new (TokenStream.mk tokens 0) unit')
            = Some (mk AstIterator.new
                      (TokenStream.mk tokens (length tokens))
                      (CompilationUnit.with_errorList (ErrorList.addError e) unit'))
            /\ getLevel e = LEVEL_ERROR
            /\ getMessage e
               = match rest with
                 | [] => Msg_unexpected_eof
                 | _ => Msg_unexpected_eol
                 end)
    as (e & Hparse & Hlevel & Hmsg).
  { subst tokens. destruct Hrest as [->|(value & location' & ->)].
    - eexists. split; [vm_compute; reflexivity|done].
    - eexists. split; [vm_compute; reflexivity|done]. }
  destruct (frontEnd_total (mkSourceFile filename buffer) unit)
    as [[iterator unit''] Hfront].
  pose proof (buildSourceFile_opened _ _ _ _ _ Hfront) as Hout.
  unfold CompilerHelper.frontEnd in Hfront. rewrite Hlex, Hparse in Hfront.
  injection Hfront as <- <-.
  assert (ErrorList.hasFatalErrors
            (CompilationUnit.m_errorList
               (CompilationUnit.with_errorList ErrorList.sortErrors
                  (Analyzer_analyze visit AstIterator.new
                     (CompilationUnit.with_errorList (ErrorList.addError e) unit'))))
          = true) as Hfatal.
  { cbn. rewrite hasFatalErrors_sortErrors. by apply hasFatalErrors_addError. }
  rewrite Hfatal in Hout.
  eexists _, e, _.
  split_and!; [exact Hparse|done|done|done|done| |done|exact Hout|done|done].
  unfold hasNext, TokenStream.hasNext. apply bool_decide_eq_false. cbn. lia.
Qed.

End Externals.

(** C1, counterexample. The empty source file has no diagnostic at all, so
    none that is fatal; the emission pass runs and the call succeeds, and
    the chunk it produces is empty. *)
Lemma buildSourceFile_empty_source :
  CompilerHelper.result
    <$> Examples.buildSourceFile (Some "") "a.pie" (CompilationUnit.new None)
  = Some (true, "")
  /\ (fun out => CompilationUnit.m_errorList (CompilerHelper.unit_after out))
       <$> Examples.buildSourceFile (Some "") "a.pie" (CompilationUnit.new None)
     = Some []
  /\ CompilerHelper.emitted
       <$> Examples.buildSourceFile (Some "") "a.pie" (CompilationUnit.new None)
     = Some (Some []).
Proof. split_and!; vm_compute; reflexivity. Qed.

End DriverFacts.

(** ** Numbers read from token texts, and data locations *)
Module DataLocationFacts.

Import Parser StreamFacts TermFacts.










Section Externals.

Context (Lexer_analyze : SourceFile -> CompilationUnit -> list Token * CompilationUnit)
  (tokenTypeToString : TokenClass -> string)
  (indeterminate : Parser.t -> Z).

Local Abbreviation parseTerm := (parseTerm Lexer_analyze tokenTypeToString indeterminate).
Local Abbreviation parseRegister := (parseRegister tokenTypeToString indeterminate).
Local Abbreviation parseLocal := (parseLocal tokenTypeToString indeterminate).






End Externals.

End DataLocationFacts.

(** ** The theorems at concrete inputs *)
Module Instances.

Import Examples.

Lemma parseInterpolation_resolves_witness :
  fst (Parser.parseInterpolation lexer tokenTypeToString
         (withLabel (Token.mk TK_INTERPOLATION "7 x lbl y" (at_ 2 5))))
  = Some (AstLabel "lbl" (at_ 1 1))
  /\ Parser.getErrors
       (snd (Parser.parseInterpolation lexer tokenTypeToString
               (withLabel (Token.mk TK_INTERPOLATION "7 x lbl y" (at_ 2 5)))))
     = [ mkCompilerError LEVEL_ERROR Msg_expected_identifier
           (mkSourceLocation 0 0 "a.pie") "";
         mkCompilerError LEVEL_ERROR Msg_undeclared_identifier
           (mkSourceLocation 0 0 "a.pie") "x" ].
Proof.
  destruct (proj1 (proj2 (proj2
              (TermFacts.parseInterpolation_resolves lexer tokenTypeToString
                 (withLabel (Token.mk TK_INTERPOLATION "7 x lbl y" (at_ 2 5)))
                 eq_refl)))
              2%nat (Token.mk TK_IDENT "lbl" (mkSourceLocation 0 0 "a.pie")))
    as (value & Hget & Hp & He).
  - vm_compute. reflexivity.
  - split; [reflexivity|]. eexists. vm_compute. reflexivity.
  - intros [|[|j]] other Hj Hother [Hc [value Hget]]; [| |lia].
    + injection Hother as <-. discriminate Hc.
    + injection Hother as <-. vm_compute in Hget. discriminate Hget.
  - rewrite He, Hp. cbn [fst]. rewrite <- Hget.
    split; vm_compute; reflexivity.
Defined.

(** C4, counterexample. With [lbl] declared, the body [7 lbl] holds a token
    that is not an identifier, and a value is returned all the same, beside
    the one diagnostic for [7]; for the body [lbl 7] a value is returned and
    the token [7] yields no diagnostic at all; and for the body [x lbl],
    with [x] undeclared, the undeclared-identifier diagnostic comes with a
    value. *)
Lemma parseInterpolation_value_beside_other_tokens :
  fst (Parser.parseInterpolation lexer tokenTypeToString
         (withLabel (Token.mk TK_INTERPOLATION "7 lbl" (at_ 2 5))))
  = Some (AstLabel "lbl" (at_ 1 1))
  /\ Parser.getErrors
       (snd (Parser.parseInterpolation lexer tokenTypeToString
               (withLabel (Token.mk TK_INTERPOLATION "7 lbl" (at_ 2 5)))))
     = [ mkCompilerError LEVEL_ERROR Msg_expected_identifier
           (mkSourceLocation 0 0 "a.pie") "" ]
  /\ fst (Parser.parseInterpolation lexer tokenTypeToString
            (withLabel (Token.mk TK_INTERPOLATION "lbl 7" (at_ 2 5))))
     = Some (AstLabel "lbl" (at_ 1 1))
  /\ Parser.getErrors
       (snd (Parser.parseInterpolation lexer tokenTypeToString
               (withLabel (Token.mk TK_INTERPOLATION "lbl 7" (at_ 2 5)))))
     = []
  /\ fst (Parser.parseInterpolation lexer tokenTypeToString
            (withLabel (Token.mk TK_INTERPOLATION "x lbl" (at_ 2 5))))
     = Some (AstLabel "lbl" (at_ 1 1))
  /\ Parser.getErrors
       (snd (Parser.parseInterpolation lexer tokenTypeToString
               (withLabel (Token.mk TK_INTERPOLATION "x lbl" (at_ 2 5)))))
     = [ mkCompilerError LEVEL_ERROR Msg_undeclared_identifier
           (mkSourceLocation 0 0 "a.pie") "x" ].
Proof. split_and!; vm_compute; reflexivity. Qed.

Lemma parseTerm_unrecognized_witness :
  Parser.getErrors
    (snd (Parser.parseTerm lexer tokenTypeToString indeterminate
            (start [Token.mk TK_CLOSE_BRACE "}" (at_ 1 1)])))
  = [mkCompilerError LEVEL_ERROR Msg_unexpected_token (at_ 1 1) "}"]
  /\ Parser.position
       (snd (Parser.parseTerm lexer tokenTypeToString indeterminate
               (start [Token.mk TK_CLOSE_BRACE "}" (at_ 1 1)])))
     = 1%nat.
Proof.
  destruct (TermFacts.parseTerm_unrecognized lexer tokenTypeToString indeterminate
              (start [Token.mk TK_CLOSE_BRACE "}" (at_ 1 1)]) eq_refl eq_refl)
    as (_ & _ & Hother).
  destruct Hother as (_ & Herrors & _ & Hposition & _).
  - by intros [H|[H|H]].
  - split; [exact Herrors|exact Hposition].
Defined.

(** C6, counterexample. An open parenthesis is a token [parseTerm] has no
    rule for, and on it [parseTerm] returns no expression without appending
    a diagnostic and without discarding the token: the cursor stays on
    it. *)
Lemma parseTerm_keeps_open_parenthesis :
  fst (Parser.parseTerm lexer tokenTypeToString indeterminate
         (start [Token.mk TK_OPEN_PARENTH "(" (at_ 1 1)]))
  = None
  /\ Parser.getErrors
       (snd (Parser.parseTerm lexer tokenTypeToString indeterminate
               (start [Token.mk TK_OPEN_PARENTH "(" (at_ 1 1)])))
     = []
  /\ Parser.position
       (snd (Parser.parseTerm lexer tokenTypeToString indeterminate
               (start [Token.mk TK_OPEN_PARENTH "(" (at_ 1 1)])))
     = 0%nat.
Proof. split_and!; vm_compute; reflexivity. Qed.

Lemma parseCommand_plain_identifier_witness :
  Parser.parseCommand lexer tokenTypeToString indeterminate
    (start [Token.mk TK_IDENT "mov" (at_ 1 1)])
  = (Some (AstExpr (AstIdentifier "mov" (at_ 1 1))),
     Parser.next (start [Token.mk TK_IDENT "mov" (at_ 1 1)])).
Proof.
  refine (proj1 (proj2 (proj2
            (TermFacts.parseCommand_plain_identifier lexer tokenTypeToString indeterminate
               (start [Token.mk TK_IDENT "mov" (at_ 1 1)]) eq_refl _ _)))).
  - cbn. rewrite !not_elem_of_cons. split_and!; try done. apply not_elem_of_nil.
  - done.
Defined.


Lemma cmp_without_operands_witness :
  exists out,
    buildSourceFile (Some "cmp") "a.pie" (CompilationUnit.new None) = Some out
    /\ CompilerHelper.emitted out = None
    /\ fst (CompilerHelper.result out) = false.
Proof.
  destruct (DriverFacts.cmp_without_operands lexer tokenTypeToString getRepr visit
              build writeOutput indeterminate (mkSourceLocation 0 0 "a.pie") [] "a.pie" "cmp"
              (CompilationUnit.new None) (CompilationUnit.new None)
              (or_introl eq_refl) eq_refl)
    as (p' & e & out & _ & _ & _ & _ & _ & _ & _ & Hout & Hemitted & Hresult).
  exists out. split_and!; [exact Hout|exact Hemitted|exact Hresult].
Defined.

(** C5, counterexample. For [cmp] with no operand the specification asks for two
    diagnostics, one for each missing operand; the parser appends one, for
    the first operand, both when the stream ends after [cmp] and when a
    newline follows it. *)
Lemma cmp_appends_one_diagnostic :
  Parser.getErrors <$> parse (start [Token.mk TK_IDENT "cmp" (at_ 1 1)])
  = Some [mkCompilerError LEVEL_ERROR Msg_unexpected_eof (at_ 1 1) ""]
  /\ Parser.getErrors
       <$> parse (start [Token.mk TK_IDENT "cmp" (at_ 1 1);
                         Token.mk TK_NEWLINE "" (at_ 1 4)])
     = Some [mkCompilerError LEVEL_ERROR Msg_unexpected_eol (at_ 1 4) ""]
  /\ (fun out =>
        length (CompilationUnit.m_errorList (CompilerHelper.unit_after out)))
       <$> buildSourceFile (Some "cmp") "a.pie" (CompilationUnit.new None)
     = Some 1%nat.
Proof. split_and!; vm_compute; reflexivity. Qed.

End Instances.

(** ** Expecting a token, and resynchronising on the end of a statement *)
Module RecoveryFacts.

Import Parser StreamFacts TermFacts Progress Cursor.

Lemma seek_position (p : t) : seek (position p) p = p.
Proof. by destruct p as [? [] ?]. Qed.

Lemma seek_seek (j k : nat) (p : t) : seek k (seek j p) = seek k p.
Proof. done. Qed.

Lemma next_seek (p : t) : hasNext p = true -> next p = seek (S (position p)) p.
Proof. apply next_hasNext. Qed.

Lemma classAt_peek (p : t) :
  Token.to_bool (TokenStream.peek 0 (m_tokenStream p)) = true ->
  classAt (position p) p
  = Some (Token.getTokenClass (TokenStream.peek 0 (m_tokenStream p))).
Proof. intros H%peek_true_lookup. unfold classAt, position. by rewrite H. Qed.

Lemma peek_class_lookup (p : t) (c : TokenClass) :
  c <> TK_EMPTY ->
  Token.getTokenClass (TokenStream.peek 0 (m_tokenStream p)) = c <->
  classAt (position p) p = Some c.
Proof.
  intros Hc. unfold classAt, position. rewrite peek_0.
  destruct (TokenStream.m_tokens (m_tokenStream p) !! TokenStream.m_position (m_tokenStream p));
    simpl; split; congruence.
Qed.

(** A miss of [match] on a class other than the empty one says that the
    token at the cursor, if any, is not of that class. *)
Lemma miss_classAt (p : t) (c : TokenClass) :
  c <> TK_EMPTY ->
  (Token.to_bool (TokenStream.peek 0 (m_tokenStream p)) = false
   \/ Token.getTokenClass (TokenStream.peek 0 (m_tokenStream p)) <> c) ->
  classAt (position p) p <> Some c.
Proof.
  intros Hc Hmiss Hat. apply (peek_class_lookup p c Hc) in Hat.
  destruct Hmiss as [Hb|Hne]; [|done].
  unfold Token.to_bool, Token.empty in Hb. apply negb_false_iff in Hb.
  apply bool_decide_eq_true in Hb. congruence.
Qed.

Lemma skipStatementTerminators_loop_spec (fuel : nat) (p : t) :
  (remaining p < fuel)%nat ->
  exists k,
    skipStatementTerminators_loop fuel p = Some (seek k p)
    /\ (position p <= k)%nat
    /\ (forall i, (position p <= i < k)%nat -> classAt i p = Some TK_NEWLINE)
    /\ classAt k p <> Some TK_NEWLINE.
Proof.
  revert p. induction fuel as [|fuel IH]; intros p Hf; [lia|].
  cbn [skipStatementTerminators_loop].
  destruct (match_cases TK_NEWLINE true p) as [(Hb & Hc & ->)|[Hmiss ->]].
  - rewrite Hb. pose proof (peek_true_hasNext p Hb) as Hn.
    pose proof (remaining_next p Hn) as Hr.
    destruct (IH (next p) ltac:(lia)) as (k & -> & Hk & Hall & Hstop).
    rewrite (next_seek p Hn) in *. cbn [seek position m_tokenStream TokenStream.m_position] in Hk.
    exists k. split_and!; [done|lia| |done].
    intros i Hi. destruct (decide (i = position p)) as [->|Hne].
    + by rewrite (classAt_peek p Hb), Hc.
    + apply (Hall i). cbn. lia.
  - change (Token.to_bool Token.EMPTY) with false. cbn iota.
    exists (position p). rewrite seek_position.
    split_and!; [done|lia|intros; lia|by apply miss_classAt].
Qed.

Lemma skipStatementTerminators_seek (p : t) :
  exists k,
    skipStatementTerminators p = Some (seek k p)
    /\ (position p <= k)%nat
    /\ (forall i, (position p <= i < k)%nat -> classAt i p = Some TK_NEWLINE)
    /\ classAt k p <> Some TK_NEWLINE.
Proof. apply skipStatementTerminators_loop_spec. lia. Qed.

(** X3. [skipStatementTerminators] reads past newline tokens only: it
    returns with the cursor at the first token, from the cursor on, that is
    not a newline (or at the end of the stream), and changes nothing but
    the cursor. *)
Theorem skipStatementTerminators_only_newlines (p : t) :
  exists k,
    skipStatementTerminators p = Some (seek k p)
    /\ (position p <= k)%nat
    /\ (forall i, (position p <= i < k)%nat -> classAt i p = Some TK_NEWLINE)
    /\ classAt k p <> Some TK_NEWLINE.
Proof. apply skipStatementTerminators_seek. Qed.

Lemma hasNext_seek (k : nat) (p : t) :
  hasNext (seek k p) = true
  <-> (k < length (TokenStream.m_tokens (m_tokenStream p)))%nat.
Proof. apply (hasNext_lt (seek k p)). Qed.

Lemma expectEndOfStmt_skip_spec (fuel : nat) (p : t) :
  (remaining p < fuel)%nat ->
  hasNext p = true ->
  exists k,
    expectEndOfStmt_skip fuel p = Some (seek k p)
    /\ (position p < k <= length (TokenStream.m_tokens (m_tokenStream p)))%nat
    /\ (forall i, (position p < i)%nat -> (S i < k)%nat ->
          classAt i p <> Some TK_NEWLINE)
    /\ (k = length (TokenStream.m_tokens (m_tokenStream p))
        \/ ((S (position p) < k)%nat /\ classAt (Nat.pred k) p = Some TK_NEWLINE)).
Proof.
  revert p. induction fuel as [|fuel IH]; intros p Hf Hn; [lia|].
  cbn [expectEndOfStmt_skip].
  pose proof (remaining_next p Hn) as Hr.
  pose proof (proj1 (hasNext_lt p) Hn) as Hlt.
  rewrite (next_seek p Hn). set (p1 := seek (S (position p)) p).
  destruct (hasNext p1) eqn:Hn1.
  - destruct (match_cases TK_NEWLINE true p1) as [(Hb & Hc & ->)|[Hmiss ->]].
    + rewrite Hb. cbn [negb]. rewrite (next_seek p1 Hn1).
      apply hasNext_seek in Hn1.
      exists (S (S (position p))).
      split; [done|]. split; [cbn; lia|]. split; [intros; lia|].
      right. split; [lia|]. cbn [Nat.pred].
      rewrite <- Hc. apply (classAt_peek p1 Hb).
    + change (Token.to_bool Token.EMPTY) with false. cbn [negb].
      destruct (IH p1) as (k & -> & Hk & Hall & Hend).
      { rewrite (next_seek p Hn) in Hr. fold p1 in Hr. lia. }
      { done. }
      cbn [p1 seek position m_tokenStream TokenStream.m_position
           TokenStream.m_tokens] in Hk, Hend.
      exists k. split; [done|]. split; [lia|]. split.
      * intros i Hi Hi'. destruct (decide (i = S (position p))) as [->|Hne].
        -- apply (miss_classAt p1); [done|exact Hmiss].
        -- apply (Hall i); cbn; lia.
      * destruct Hend as [?|[? ?]]; [by left|right]. split; [lia|done].
  - exists (S (position p)).
    assert (length (TokenStream.m_tokens (m_tokenStream p)) <= S (position p))%nat
      as Hge.
    { apply Nat.nlt_ge. intros H. apply hasNext_seek in H. fold p1 in H. congruence. }
    split; [done|]. split; [lia|]. split; [intros; lia|left; lia].
Qed.

Section Externals.

Context (Lexer_analyze : SourceFile -> CompilationUnit -> list Token * CompilationUnit)
  (tokenTypeToString : TokenClass -> string)
  (getRepr : Token -> string)
  (indeterminate : Parser.t -> Z).

Local Abbreviation expect := (expect tokenTypeToString).
Local Abbreviation parseTerm := (parseTerm Lexer_analyze tokenTypeToString indeterminate).

(** X1. [expect] either finds a non-empty token of the class it was asked
    for, which it returns, reading it when [read] is set and appending no
    diagnostic; or it returns the empty token, leaves the cursor where it
    is and appends exactly one diagnostic at the current location:
    expected-identifier with no text for the identifier class,
    expected-token with the name of the class for any other. *)
Theorem expect_outcome (c : TokenClass) (read : bool) (p : t) :
  let peek := TokenStream.peek 0 (m_tokenStream p) in
  (Token.to_bool peek = true /\ Token.getTokenClass peek = c
   /\ expect c read p = (peek, if read then seek (S (position p)) p else p))
  \/ ((Token.to_bool peek = false \/ Token.getTokenClass peek <> c)
      /\ expect c read p
         = (Token.EMPTY,
            addError
              (mkCompilerError LEVEL_ERROR
                 (if decide (c = TK_IDENT) then Msg_expected_identifier
                  else Msg_expected_token)
                 (currentLocation p)
                 (if decide (c = TK_IDENT) then "" else tokenTypeToString c))
              p)).
Proof.
  intros peek. unfold Parser.expect.
  destruct (match_cases c read p) as [(Hb & Hc & ->)|[Hmiss ->]].
  - left. cbv beta iota zeta. subst peek. rewrite Hb. cbn [negb].
    split_and!; [done..|].
    by rewrite (next_seek p (peek_true_hasNext p Hb)).
  - right. split; [done|]. cbv beta iota zeta.
    change (Token.to_bool Token.EMPTY) with false. cbn [negb]. by destruct c.
Qed.

End Externals.

Lemma expectEndOfStmt_outcome (p : t) :
  hasNext p = true ->
  (classAt (position p) p = Some TK_NEWLINE ->
   expectEndOfStmt p = Some (true, seek (S (position p)) p))
  /\ (classAt (position p) p <> Some TK_NEWLINE ->
      exists k,
        expectEndOfStmt p
        = Some (false,
                addError
                  (mkCompilerError LEVEL_ERROR Msg_expected_end_of_statement
                     (currentLocation p) "")
                  (seek k p))
        /\ (position p < k <= length (TokenStream.m_tokens (m_tokenStream p)))%nat
        /\ (forall i, (position p < i)%nat -> (S i < k)%nat ->
              classAt i p <> Some TK_NEWLINE)
        /\ (k = length (TokenStream.m_tokens (m_tokenStream p))
            \/ ((S (position p) < k)%nat
                /\ classAt (Nat.pred k) p = Some TK_NEWLINE))).
Proof.
  intros Hn. split; intros Hclass; unfold expectEndOfStmt.
  - apply (peek_class_lookup p TK_NEWLINE ltac:(done)) in Hclass.
    pose proof (class_to_bool _ _ Hclass ltac:(done)) as Hb.
    rewrite (match_hit TK_NEWLINE true p Hb Hclass), Hb. cbn [negb].
    by rewrite (next_seek p Hn).
  - rewrite (match_miss TK_NEWLINE true p).
    2:{ intros H. by apply (peek_class_lookup p TK_NEWLINE ltac:(done)) in H. }
    change (Token.to_bool Token.EMPTY) with false. cbn [negb].
    set (e := mkCompilerError _ _ _ _).
    destruct (expectEndOfStmt_skip_spec (S (remaining (addError e p))) (addError e p)
                ltac:(lia) Hn) as (k & -> & Hk & Hall & Hend).
    exists k. split; [done|]. split; [exact Hk|]. split; [exact Hall|exact Hend].
Qed.

(** X2. When tokens are left and the next one is not a newline,
    [expectEndOfStmt] appends exactly one expected-end-of-statement
    diagnostic at the current location, returns false, and discards tokens:
    the next token, and then every token up to and including the first
    newline after it, or up to the end of the stream when no newline
    follows.  When the next token is a newline it reads it, returns true
    and appends nothing. *)
Theorem expectEndOfStmt_resync (p : t) :
  hasNext p = true ->
  (classAt (position p) p = Some TK_NEWLINE ->
   expectEndOfStmt p = Some (true, seek (S (position p)) p))
  /\ (classAt (position p) p <> Some TK_NEWLINE ->
      exists k,
        expectEndOfStmt p
        = Some (false,
                addError
                  (mkCompilerError LEVEL_ERROR Msg_expected_end_of_statement
                     (currentLocation p) "")
                  (seek k p))
        /\ (position p < k <= length (TokenStream.m_tokens (m_tokenStream p)))%nat
        /\ (forall i, (position p < i)%nat -> (S i < k)%nat ->
              classAt i p <> Some TK_NEWLINE)
        /\ (k = length (TokenStream.m_tokens (m_tokenStream p))
            \/ ((S (position p) < k)%nat
                /\ classAt (Nat.pred k) p = Some TK_NEWLINE))).
Proof. apply expectEndOfStmt_outcome. Qed.

(** X4. The location [currentLocation] gives for a diagnostic is the
    location of a token of the stream whenever the stream has a token: the
    token at the cursor, or the last token once the cursor is at the end.
    Only for a stream with no token is it the location of the empty
    token. *)
Theorem currentLocation_of_token (p : t) :
  (TokenStream.m_tokens (m_tokenStream p) = [] ->
   currentLocation p = SourceLocation_eof)
  /\ (TokenStream.m_tokens (m_tokenStream p) <> [] ->
      exists token,
        token ∈ TokenStream.m_tokens (m_tokenStream p)
        /\ currentLocation p = Token.getLocation token
        /\ (hasNext p = true ->
            TokenStream.m_tokens (m_tokenStream p) !! position p = Some token)
        /\ (hasNext p = false ->
            token = List.last (TokenStream.m_tokens (m_tokenStream p)) Token.EMPTY)).
Proof.
  unfold currentLocation, TokenStream.getSize, TokenStream.last. split.
  - intros Hnil. rewrite Hnil. cbn. rewrite peek_0, Hnil. done.
  - intros Hne.
    destruct (TokenStream.m_tokens (m_tokenStream p)) as [|first tokens] eqn:Htokens;
      [done|].
    cbn [length Nat.eqb negb andb].
    destruct (hasNext p) eqn:Hn; cbn [negb].
    + pose proof (proj1 (hasNext_lt p) Hn) as Hlt.
      destruct (lookup_lt_is_Some_2 _ _ Hlt) as [token Htoken].
      exists token. rewrite Htokens in Htoken. split_and!; [|..|done|done].
      * by eapply list_elem_of_lookup_2.
      * rewrite peek_0. unfold position in *. rewrite Htokens, Htoken. done.
    + exists (List.last (first :: tokens) Token.EMPTY). split_and!; [|done|done|done].
      apply list_elem_of_In.
      clear. revert first. induction tokens as [|x l IH]; intros first; [by left|].
      right. apply (IH x).
Qed.

End RecoveryFacts.

(** ** Terms, commands, labels and interpolations *)
Module NodeFacts.

Import Parser StreamFacts TermFacts Progress Cursor Nodes RecoveryFacts.

Lemma tokenAt_0 (p : t) : tokenAt 0 p = TokenStream.peek 0 (m_tokenStream p).
Proof. unfold tokenAt. by rewrite Nat.add_0_r, seek_position. Qed.

Lemma tokenAt_S (n : nat) (p : t) :
  tokenAt (S n) p = tokenAt n (seek (S (position p)) p).
Proof. unfold tokenAt. cbn. by rewrite Nat.add_succ_r. Qed.

Lemma valueNode_to_bool (token : Token) (node : AstExpression) :
  valueNode token = Some node -> Token.to_bool token = true.
Proof.
  unfold valueNode, Token.to_bool, Token.empty.
  by destruct (Token.getTokenClass token).
Qed.

Section Externals.

Context (Lexer_analyze : SourceFile -> CompilationUnit -> list Token * CompilationUnit)
  (tokenTypeToString : TokenClass -> string)
  (getRepr : Token -> string)
  (indeterminate : Parser.t -> Z).

Local Abbreviation expect := (expect tokenTypeToString).
Local Abbreviation parseTerm := (parseTerm Lexer_analyze tokenTypeToString indeterminate).
Local Abbreviation parseExpression :=
  (parseExpression Lexer_analyze tokenTypeToString indeterminate).
Local Abbreviation parseCommand := (parseCommand Lexer_analyze tokenTypeToString indeterminate).
Local Abbreviation parseLabel := (parseLabel tokenTypeToString).
Local Abbreviation parseInterpolation :=
  (parseInterpolation Lexer_analyze tokenTypeToString).
Local Abbreviation interpolationTokens := (interpolationTokens Lexer_analyze).

Lemma parseTerm_value (p : t) (node : AstExpression) :
  valueNode (TokenStream.peek 0 (m_tokenStream p)) = Some node ->
  parseTerm p = (Some node, seek (S (position p)) p).
Proof.
  intros Hnode. pose proof (valueNode_to_bool _ _ Hnode) as Hb.
  rewrite <- (next_seek p (peek_true_hasNext p Hb)).
  unfold valueNode in Hnode. unfold Parser.parseTerm. rewrite Hb. cbn [negb].
  destruct (Token.getTokenClass (TokenStream.peek 0 (m_tokenStream p))) eqn:Hc;
    try discriminate;
    repeat (rewrite (match_miss _ false p) by (by rewrite Hc); cbn);
    rewrite (match_hit _ false p Hb Hc), Hb;
    unfold Parser.parseIdentifier, Parser.parseIntegerLiteral,
      Parser.parseStringLiteral, Parser.parseRegister, Parser.parseLocal;
    rewrite (expect_hit _ _ true p Hb Hc), Hb;
    change (Token.to_bool Token.EMPTY) with false; cbv iota;
    unfold IStream.extract_int, IStream.extract_int64, IStream.extract;
    try (destruct (IStream.stored _ _ _) eqn:Hs; [|discriminate Hnode]);
    cbn [mbind option_bind default from_option id] in *; congruence.
Qed.

Lemma parseTerm_operand (p : t) :
  valueClass (Token.getTokenClass (TokenStream.peek 0 (m_tokenStream p))) = true ->
  exists node, parseTerm p = (Some node, seek (S (position p)) p).
Proof.
  intros Hv.
  assert (Token.to_bool (TokenStream.peek 0 (m_tokenStream p)) = true) as Hb.
  { unfold Token.to_bool, Token.empty. apply negb_true_iff, bool_decide_eq_false.
    intros He. by rewrite He in Hv. }
  rewrite <- (next_seek p (peek_true_hasNext p Hb)).
  unfold Parser.parseTerm. rewrite Hb. cbn [negb].
  destruct (Token.getTokenClass (TokenStream.peek 0 (m_tokenStream p))) eqn:Hc;
    try discriminate;
    repeat (rewrite (match_miss _ false p) by (by rewrite Hc); cbn);
    rewrite (match_hit _ false p Hb Hc), Hb;
    unfold Parser.parseIdentifier, Parser.parseIntegerLiteral,
      Parser.parseStringLiteral, Parser.parseRegister, Parser.parseLocal;
    rewrite (expect_hit _ _ true p Hb Hc), Hb;
    change (Token.to_bool Token.EMPTY) with false; cbv iota;
    by eexists.
Qed.

Lemma parseExpression_value (p : t) (node : AstExpression) :
  valueNode (TokenStream.peek 0 (m_tokenStream p)) = Some node ->
  parseExpression p = (Some node, seek (S (position p)) p).
Proof.
  intros H. unfold Parser.parseExpression. by rewrite (parseTerm_value p node H).
Qed.

(** X7. For an identifier, integer, string, register or local token
    [parseTerm] returns a node, reads exactly that token and appends no
    diagnostic.  The node is the one built from the text and the location
    of the token; for an integer, register or local token the text fixes
    the number of the node when it is not empty or blank (from a blank text
    nothing is read, and the number is what the uninitialised local
    held). *)
Theorem parseTerm_value_token (p : t) :
  let token := TokenStream.peek 0 (m_tokenStream p) in
  valueClass (Token.getTokenClass token) = true ->
  (exists node, parseTerm p = (Some node, seek (S (position p)) p))
  /\ getErrors (snd (parseTerm p)) = getErrors p
  /\ (forall node,
        valueNode token = Some node ->
        parseTerm p = (Some node, seek (S (position p)) p)).
Proof.
  intros token Hclass. destruct (parseTerm_operand p Hclass) as [node Hnode].
  split; [by exists node|]. split; [by rewrite Hnode|].
  intros node' H. apply (parseTerm_value p node' H).
Qed.

(** X5. At the end of the stream [parseTerm] appends exactly one
    unexpected-end-of-file diagnostic at the current location, returns no
    expression and leaves the cursor where it is. *)
Theorem parseTerm_end_of_stream (p : t) :
  hasNext p = false ->
  parseTerm p
  = (None,
     addError
       (mkCompilerError LEVEL_ERROR Msg_unexpected_eof (currentLocation p) "") p).
Proof.
  intros Hn. unfold Parser.parseTerm.
  destruct (Token.to_bool (TokenStream.peek 0 (m_tokenStream p))) eqn:Hb.
  - apply peek_true_hasNext in Hb. congruence.
  - cbn [negb]. by rewrite addError_hasNext, Hn.
Qed.

Lemma jumpModeStrings_Some (name : string) (jumpMode : JumpMode) :
  (name, jumpMode)
    ∈ [ ("jmp", JumpMode_None); ("je", JumpIfEqual); ("jne", JumpIfNotEqual);
        ("jg", JumpIfGreater); ("jge", JumpIfGreaterOrEqual) ] ->
  jumpModeStrings !! name = Some jumpMode.
Proof.
  intros H. apply elem_of_list_to_map_1; [|done]. cbn.
  repeat (apply NoDup_cons_2;
          [rewrite ?not_elem_of_cons; split_and?; try done; apply not_elem_of_nil|]).
  apply NoDup_nil_2.
Qed.

(** X8. For a jump mnemonic followed by an operand token (an identifier,
    a string, or an integer, register or local whose text is not empty or
    blank), [parseCommand] returns the jump statement
    with the mode the table gives the mnemonic (jmp: none, je: equal, jne:
    not equal, jg: greater, jge: greater or equal), the node of the operand
    token as target and the location of the mnemonic; it reads the two
    tokens and appends no diagnostic. *)
Theorem parseCommand_jump (p : t) (jumpMode : JumpMode) (target : AstExpression) :
  Token.getTokenClass (tokenAt 0 p) = TK_IDENT ->
  (Token.getValue (tokenAt 0 p), jumpMode)
    ∈ [ ("jmp", JumpMode_None); ("je", JumpIfEqual); ("jne", JumpIfNotEqual);
        ("jg", JumpIfGreater); ("jge", JumpIfGreaterOrEqual) ] ->
  valueNode (tokenAt 1 p) = Some target ->
  parseCommand p
  = (Some (AstJmpStatement target jumpMode (Token.getLocation (tokenAt 0 p))),
     seek (S (S (position p))) p)
  /\ getErrors (snd (parseCommand p)) = getErrors p.
Proof.
  rewrite tokenAt_S, !tokenAt_0. intros Hc Hmode Htarget.
  pose proof (class_to_bool _ _ Hc ltac:(done)) as Hb.
  assert (parseCommand p
          = (Some (AstJmpStatement target jumpMode
                     (Token.getLocation (TokenStream.peek 0 (m_tokenStream p)))),
             seek (S (S (position p))) p)) as ->; [|done].
  unfold Parser.parseCommand. rewrite (expect_hit _ _ true p Hb Hc), Hb.
  rewrite (jumpModeStrings_Some _ _ Hmode).
  rewrite (next_seek p (peek_true_hasNext p Hb)).
  by rewrite (parseExpression_value _ _ Htarget).
Qed.

(** X9. For [cmp] followed by two operand tokens (each an identifier, a
    string, or an integer, register or local whose text is not empty or
    blank), [parseCommand] returns the compare statement of the two operand
    nodes, left then right, at the location of [cmp]; it reads the three
    tokens and appends no diagnostic. *)
Theorem parseCommand_cmp (p : t) (lhs rhs : AstExpression) :
  Token.getTokenClass (tokenAt 0 p) = TK_IDENT ->
  Token.getValue (tokenAt 0 p) = "cmp" ->
  valueNode (tokenAt 1 p) = Some lhs ->
  valueNode (tokenAt 2 p) = Some rhs ->
  parseCommand p
  = (Some (AstCmpStatement lhs rhs (Token.getLocation (tokenAt 0 p))),
     seek (S (S (S (position p)))) p)
  /\ getErrors (snd (parseCommand p)) = getErrors p.
Proof.
  rewrite !tokenAt_S, !tokenAt_0. intros Hc Hcmp Hlhs Hrhs.
  pose proof (class_to_bool _ _ Hc ltac:(done)) as Hb.
  assert (parseCommand p
          = (Some (AstCmpStatement lhs rhs
                     (Token.getLocation (TokenStream.peek 0 (m_tokenStream p)))),
             seek (S (S (S (position p)))) p)) as ->; [|done].
  unfold Parser.parseCommand. rewrite (expect_hit _ _ true p Hb Hc), Hb.
  rewrite Hcmp. change (jumpModeStrings !! "cmp") with (@None JumpMode).
  rewrite bool_decide_true by done.
  rewrite (next_seek p (peek_true_hasNext p Hb)).
  rewrite (parseExpression_value _ _ Hlhs).
  by rewrite (parseExpression_value _ _ Hrhs).
Qed.

(** X10. For a label token [parseLabel] returns the declaration of a
    fresh label of that name, reads the token, appends no diagnostic, and
    binds the name in the symbol table to that label: a lookup of the name
    gives the new label, whatever was bound to it before, and the lookup of
    any other name is what it was. *)
Theorem parseLabel_declares (p : t) :
  let token := TokenStream.peek 0 (m_tokenStream p) in
  let astLabel := AstLabel (Token.getValue token) (Token.getLocation token) in
  Token.getTokenClass token = TK_LABEL ->
  fst (parseLabel p)
  = Some (AstLabelDecl (Token.getValue token) astLabel (Token.getLocation token))
  /\ m_tokenStream (snd (parseLabel p)) = m_tokenStream (seek (S (position p)) p)
  /\ getErrors (snd (parseLabel p)) = getErrors p
  /\ BoundGlobals.get (Token.getValue token) (getBoundGlobals (snd (parseLabel p)))
     = Some astLabel
  /\ (forall name,
        name <> Token.getValue token ->
        BoundGlobals.get name (getBoundGlobals (snd (parseLabel p)))
        = BoundGlobals.get name (getBoundGlobals p)).
Proof.
  intros token astLabel Hc.
  pose proof (class_to_bool _ _ Hc ltac:(done)) as Hb.
  unfold Parser.parseLabel. rewrite (expect_hit _ _ true p Hb Hc). fold token.
  rewrite Hb, (next_seek p (peek_true_hasNext p Hb)). cbn [fst snd].
  split_and!; [done|done|done| |].
  - unfold getBoundGlobals. cbn. destruct (CompilationUnit.m_boundGlobals _).
    cbn. by rewrite lookup_insert_eq.
  - intros name Hne. unfold getBoundGlobals. cbn.
    destruct (CompilationUnit.m_boundGlobals _). cbn.
    by rewrite lookup_insert_ne.
Qed.

Lemma parseLabel_hit (p : t) :
  let token := TokenStream.peek 0 (m_tokenStream p) in
  Token.getTokenClass token = TK_LABEL ->
  parseLabel p
  = (Some (AstLabelDecl (Token.getValue token)
             (AstLabel (Token.getValue token) (Token.getLocation token))
             (Token.getLocation token)),
     with_compilationUnit
       (CompilationUnit.with_boundGlobals
          (BoundGlobals.set (Token.getValue token)
             (AstLabel (Token.getValue token) (Token.getLocation token))))
       (seek (S (position p)) p)).
Proof.
  intros token Hc. pose proof (class_to_bool _ _ Hc ltac:(done)) as Hb.
  unfold Parser.parseLabel. rewrite (expect_hit _ _ true p Hb Hc). fold token.
  by rewrite Hb, (next_seek p (peek_true_hasNext p Hb)).
Qed.

Lemma get_set_eq (name : string) (value : AstExpression) (bg : BoundGlobals) :
  BoundGlobals.get name (BoundGlobals.set name value bg) = Some value.
Proof. destruct bg. cbn. by rewrite lookup_insert_eq. Qed.

Lemma get_set_ne (name other : string) (value : AstExpression) (bg : BoundGlobals) :
  other <> name ->
  BoundGlobals.get other (BoundGlobals.set name value bg) = BoundGlobals.get other bg.
Proof. intros H. destruct bg. cbn. by rewrite lookup_insert_ne. Qed.

Lemma parseInterpolation_hit (p : t) :
  let token := TokenStream.peek 0 (m_tokenStream p) in
  Token.getTokenClass token = TK_INTERPOLATION ->
  parseInterpolation p
  = parseInterpolation_loop (interpolationTokens token p) (seek (S (position p)) p).
Proof.
  intros token Hc. pose proof (class_to_bool token _ Hc ltac:(done)) as Hb.
  unfold Parser.parseInterpolation. rewrite (expect_hit _ _ true p Hb Hc).
  fold token. rewrite (next_seek p (peek_true_hasNext p Hb)).
  unfold Token.to_bool in Hb. apply negb_true_iff in Hb. by rewrite Hb.
Qed.

(** The mini-parser on tokens none of which is a bound identifier. *)
Lemma parseInterpolation_loop_unresolved (pre rest : list Token) (p : t) :
  (forall token,
     token ∈ pre ->
     Token.getTokenClass token = TK_IDENT ->
     BoundGlobals.get (Token.getValue token) (getBoundGlobals p) = None) ->
  parseInterpolation_loop (pre ++ rest) p
  = parseInterpolation_loop rest (addErrors (map interpolationError pre) p).
Proof.
  revert p. induction pre as [|token pre IH]; intros p Hpre.
  - cbn. by rewrite addErrors_nil.
  - assert (parseInterpolation_loop ((token :: pre) ++ rest) p
            = parseInterpolation_loop (pre ++ rest)
                (addError (interpolationError token) p)) as ->.
    { cbn [app parseInterpolation_loop]. unfold interpolationError.
      destruct (decide (Token.getTokenClass token = TK_IDENT)) as [Hc|Hc].
      - rewrite Hc, (Hpre token); [done|by left|done].
      - by destruct (Token.getTokenClass token). }
    rewrite IH.
    + cbn [map]. by rewrite addErrors_addError.
    + intros other Hin Hc. apply (Hpre other); [by right|done].
Qed.

(** X12. [parseInterpolation] returns the expression bound to the first
    identifier of the lexed body that the symbol table binds, and ignores
    the tokens after it; each token before it yields one diagnostic
    (undeclared-identifier for an identifier, expected-identifier for any
    other token), appended in order.  When no identifier of the body is
    bound, every token of the body yields its diagnostic and no value is
    returned. *)
Theorem parseInterpolation_first_bound (p : t) :
  let token := TokenStream.peek 0 (m_tokenStream p) in
  Token.getTokenClass token = TK_INTERPOLATION ->
  (forall pre ident post value,
     interpolationTokens token p = pre ++ ident :: post ->
     (forall other,
        other ∈ pre ->
        Token.getTokenClass other = TK_IDENT ->
        BoundGlobals.get (Token.getValue other) (getBoundGlobals p) = None) ->
     Token.getTokenClass ident = TK_IDENT ->
     BoundGlobals.get (Token.getValue ident) (getBoundGlobals p) = Some value ->
     parseInterpolation p
     = (Some value,
        addErrors (map interpolationError pre) (seek (S (position p)) p)))
  /\ ((forall other,
         other ∈ interpolationTokens token p ->
         Token.getTokenClass other = TK_IDENT ->
         BoundGlobals.get (Token.getValue other) (getBoundGlobals p) = None) ->
      parseInterpolation p
      = (None,
         addErrors (map interpolationError (interpolationTokens token p))
           (seek (S (position p)) p))).
Proof.
  intros token Hc. rewrite (parseInterpolation_hit p Hc). fold token. split.
  - intros pre ident post value -> Hpre Hident Hvalue.
    rewrite parseInterpolation_loop_unresolved by exact Hpre.
    cbn [parseInterpolation_loop]. rewrite Hident.
    change (getBoundGlobals (addErrors _ _)) with (getBoundGlobals p).
    by rewrite Hvalue.
  - intros Hall.
    rewrite <- (app_nil_r (interpolationTokens token p)) at 1.
    by rewrite parseInterpolation_loop_unresolved by exact Hall.
Qed.

(** X11. A label declared by [parseLabel] is what an interpolation of its
    name resolves to afterwards: when the token after a label token is an
    interpolation whose body lexes to the identifier of the same name,
    [parseInterpolation], run in the state [parseLabel] left, returns the
    label that the declaration holds and appends no diagnostic. *)
Theorem parseLabel_then_parseInterpolation (p : t) (ident : Token) :
  let label := tokenAt 0 p in
  let q := snd (parseLabel p) in
  Token.getTokenClass label = TK_LABEL ->
  Token.getTokenClass (tokenAt 1 p) = TK_INTERPOLATION ->
  interpolationTokens (tokenAt 1 p) q = [ident] ->
  Token.getTokenClass ident = TK_IDENT ->
  Token.getValue ident = Token.getValue label ->
  fst (parseLabel p)
  = Some (AstLabelDecl (Token.getValue label)
            (AstLabel (Token.getValue label) (Token.getLocation label))
            (Token.getLocation label))
  /\ fst (parseInterpolation q)
     = Some (AstLabel (Token.getValue label) (Token.getLocation label))
  /\ getErrors (snd (parseInterpolation q)) = getErrors p
  /\ position (snd (parseInterpolation q)) = S (S (position p)).
Proof.
  intros label q. subst label. rewrite tokenAt_S, !tokenAt_0.
  intros Hc Hi Hbody Hident Hname.
  pose proof (class_to_bool _ _ Hc ltac:(done)) as Hb.
  assert (parseLabel p
          = (Some (AstLabelDecl (Token.getValue (TokenStream.peek 0 (m_tokenStream p)))
                     (AstLabel (Token.getValue (TokenStream.peek 0 (m_tokenStream p)))
                        (Token.getLocation (TokenStream.peek 0 (m_tokenStream p))))
                     (Token.getLocation (TokenStream.peek 0 (m_tokenStream p)))),
             with_compilationUnit
               (CompilationUnit.with_boundGlobals
                  (BoundGlobals.set
                     (Token.getValue (TokenStream.peek 0 (m_tokenStream p)))
                     (AstLabel (Token.getValue (TokenStream.peek 0 (m_tokenStream p)))
                        (Token.getLocation (TokenStream.peek 0 (m_tokenStream p))))))
               (seek (S (position p)) p))) as Hlabel.
  { unfold Parser.parseLabel. rewrite (expect_hit _ _ true p Hb Hc).
    by rewrite Hb, (next_seek p (peek_true_hasNext p Hb)). }
  subst q. rewrite Hlabel in *. cbn [fst snd] in *. split; [done|].
  set (q := with_compilationUnit _ _) in *.
  assert (Token.getTokenClass (TokenStream.peek 0 (m_tokenStream q)) = TK_INTERPOLATION)
    as Hi' by exact Hi.
  rewrite (parseInterpolation_hit q Hi').
  change (TokenStream.peek 0 (m_tokenStream q))
    with (TokenStream.peek 0 (m_tokenStream (seek (S (position p)) p))).
  rewrite Hbody. cbn [parseInterpolation_loop]. rewrite Hident, Hname.
  assert (BoundGlobals.get (Token.getValue (TokenStream.peek 0 (m_tokenStream p)))
            (getBoundGlobals (seek (S (position q)) q))
          = Some (AstLabel (Token.getValue (TokenStream.peek 0 (m_tokenStream p)))
                    (Token.getLocation (TokenStream.peek 0 (m_tokenStream p)))))
    as ->.
  { unfold getBoundGlobals. cbn. destruct (CompilationUnit.m_boundGlobals _).
    cbn. by rewrite lookup_insert_eq. }
  done.
Qed.

End Externals.

End NodeFacts.

(** ** Whole statements and whole streams *)
Module StatementFacts.

Import Parser StreamFacts TermFacts Progress Cursor Nodes RecoveryFacts NodeFacts.

Lemma skipStatementTerminators_noop (p : t) :
  classAt (position p) p <> Some TK_NEWLINE -> skipStatementTerminators p = Some p.
Proof.
  intros Hc. destruct (skipStatementTerminators_seek p) as (k & -> & Hk & Hall & _).
  destruct (decide (k = position p)) as [->|Hne]; [by rewrite seek_position|].
  destruct Hc. apply Hall. lia.
Qed.

Lemma peek_classAt (p : t) (c : TokenClass) :
  Token.getTokenClass (TokenStream.peek 0 (m_tokenStream p)) = c ->
  c <> TK_EMPTY ->
  classAt (position p) p = Some c.
Proof. intros H Hc. by apply peek_class_lookup. Qed.

Section Externals.

Context (Lexer_analyze : SourceFile -> CompilationUnit -> list Token * CompilationUnit)
  (tokenTypeToString : TokenClass -> string)
  (getRepr : Token -> string)
  (indeterminate : Parser.t -> Z).

Local Abbreviation parseStatement :=
  (parseStatement Lexer_analyze tokenTypeToString getRepr indeterminate).
Local Abbreviation parse := (parse Lexer_analyze tokenTypeToString getRepr indeterminate).

(** One failed test of the dispatch of [parseStatement]. *)
Ltac miss c p H :=
  rewrite (match_miss c false p) by first [exact H | by rewrite H];
  cbv beta iota zeta; change (Token.to_bool Token.EMPTY) with false; cbv iota.

(** X6. A statement that starts with an open parenthesis, an open bracket
    or a float token stops the parser without a word: [parseStatement]
    returns no statement and [parse] returns the state it was given, with
    no statement pushed, no diagnostic appended and no token read, so the
    rest of the stream is ignored. *)
Theorem parse_stops_silently (p : t) :
  Token.getTokenClass (tokenAt 0 p) = TK_OPEN_PARENTH
  \/ Token.getTokenClass (tokenAt 0 p) = TK_OPEN_BRACKET
  \/ Token.getTokenClass (tokenAt 0 p) = TK_FLOAT ->
  parseStatement p = Some (None, p) /\ parse p = Some p.
Proof.
  rewrite tokenAt_0. intros Hc.
  assert (Token.getTokenClass (TokenStream.peek 0 (m_tokenStream p)) <> TK_EMPTY
          /\ Token.getTokenClass (TokenStream.peek 0 (m_tokenStream p)) <> TK_NEWLINE
          /\ Token.getTokenClass (TokenStream.peek 0 (m_tokenStream p)) <> TK_DIRECTIVE
          /\ Token.getTokenClass (TokenStream.peek 0 (m_tokenStream p)) <> TK_LABEL
          /\ Token.getTokenClass (TokenStream.peek 0 (m_tokenStream p)) <> TK_IDENT)
    as (He & Hnl & Hd & Hl & Hi).
  { destruct Hc as [->|[->| ->]]; done. }
  pose proof (class_to_bool _ _ eq_refl He) as Hb.
  pose proof (peek_true_hasNext p Hb) as Hn.
  assert (skipStatementTerminators p = Some p) as Hskip.
  { apply skipStatementTerminators_noop. intros H.
    by apply (peek_class_lookup p TK_NEWLINE ltac:(done)) in H. }
  assert (parseStatement p = Some (None, p)) as Hstmt.
  { unfold Parser.parseStatement. rewrite Hskip. cbn [mbind option_bind].
    rewrite Hn. cbn [negb].
    miss TK_DIRECTIVE p Hd. miss TK_LABEL p Hl. miss TK_IDENT p Hi.
    unfold Parser.parseExpression.
    by rewrite (parseTerm_reserved Lexer_analyze tokenTypeToString indeterminate p Hc). }
  split; [done|]. unfold Parser.parse. rewrite Hskip. cbn [mbind option_bind].
  cbn [Parser.parse_loop]. rewrite Hn, Hstmt. done.
Qed.

(** X16. On a stream whose remaining tokens are all newlines (in
    particular on the empty stream) [parse] reads them all and returns
    with the cursor at the end, no statement pushed and no diagnostic
    appended. *)
Theorem parse_blank_stream (p : t) :
  (position p <= length (TokenStream.m_tokens (m_tokenStream p)))%nat ->
  (forall i,
     (position p <= i < length (TokenStream.m_tokens (m_tokenStream p)))%nat ->
     classAt i p = Some TK_NEWLINE) ->
  parse p = Some (seek (length (TokenStream.m_tokens (m_tokenStream p))) p).
Proof.
  intros Hpos Hblank. unfold Parser.parse.
  destruct (skipStatementTerminators_seek p) as (k & -> & Hk & Hall & Hstop).
  assert (k = length (TokenStream.m_tokens (m_tokenStream p))) as ->.
  { destruct (Nat.lt_trichotomy k (length (TokenStream.m_tokens (m_tokenStream p))))
      as [Hlt|[->|Hgt]]; [|done|].
    - destruct Hstop. apply Hblank. lia.
    - specialize (Hall (length (TokenStream.m_tokens (m_tokenStream p))) ltac:(lia)).
      unfold classAt in Hall. rewrite (proj2 (lookup_ge_None _ _)) in Hall by lia.
      done. }
  cbn [mbind option_bind]. cbn [Parser.parse_loop].
  set (q := seek _ p).
  assert (hasNext q = false) as ->.
  { destruct (hasNext q) eqn:H; [|done]. apply hasNext_seek in H. lia. }
  done.
Qed.

(** X17. [parseStatement] always returns: the fuel its loops are given
    suffices on every state.  It never changes the token buffer or the AST
    sequence, never leaves more tokens unread than it found, only appends
    to the diagnostics, and when it returns a statement it has read at
    least one token. *)
Theorem parseStatement_terminates (p : t) :
  exists stmt p',
    parseStatement p = Some (stmt, p')
    /\ TokenStream.m_tokens (m_tokenStream p') = TokenStream.m_tokens (m_tokenStream p)
    /\ m_astIterator p' = m_astIterator p
    /\ getErrors p `prefix_of` getErrors p'
    /\ (remaining p' <= remaining p)%nat
    /\ (is_Some stmt -> (remaining p' < remaining p)%nat).
Proof.
  destruct (parseStatement_productive Lexer_analyze tokenTypeToString getRepr indeterminate p)
    as ([stmt p'] & Hp & [] & Hr & _).
  exists stmt, p'. split_and!; done.
Qed.

(** X19. A label declaration that is not followed by a newline is still
    returned: when the token after the label token is not a newline,
    [parseStatement] returns the declaration with its label bound, appends
    exactly one expected-end-of-statement diagnostic at the location of
    that token, and discards the rest of the line, up to and including the
    next newline or up to the end of the stream. *)
Theorem parseStatement_label_unterminated (p : t) :
  let label := tokenAt 0 p in
  let astLabel := AstLabel (Token.getValue label) (Token.getLocation label) in
  Token.getTokenClass label = TK_LABEL ->
  (S (position p) < length (TokenStream.m_tokens (m_tokenStream p)))%nat ->
  classAt (S (position p)) p <> Some TK_NEWLINE ->
  exists k p',
    parseStatement p
    = Some (Some (AstLabelDecl (Token.getValue label) astLabel
                    (Token.getLocation label)),
            p')
    /\ getErrors p'
       = getErrors p
         ++ [mkCompilerError LEVEL_ERROR Msg_expected_end_of_statement
               (Token.getLocation (tokenAt 1 p)) ""]
    /\ BoundGlobals.get (Token.getValue label) (getBoundGlobals p') = Some astLabel
    /\ m_tokenStream p' = m_tokenStream (seek k p)
    /\ (S (position p) < k <= length (TokenStream.m_tokens (m_tokenStream p)))%nat
    /\ (forall i, (S (position p) < i)%nat -> (S i < k)%nat ->
          classAt i p <> Some TK_NEWLINE)
    /\ (k = length (TokenStream.m_tokens (m_tokenStream p))
        \/ ((S (S (position p)) < k)%nat
            /\ classAt (Nat.pred k) p = Some TK_NEWLINE)).
Proof.
  intros label astLabel. subst astLabel label. rewrite tokenAt_S, !tokenAt_0.
  intros Hc Hlen Hnext.
  pose proof (class_to_bool _ _ Hc ltac:(done)) as Hb.
  pose proof (peek_true_hasNext p Hb) as Hn.
  assert (skipStatementTerminators p = Some p) as Hskip.
  { apply skipStatementTerminators_noop.
    by rewrite (peek_classAt p TK_LABEL Hc). }
  unfold Parser.parseStatement. rewrite Hskip. cbn [mbind option_bind].
  rewrite Hn. cbn [negb].
  miss TK_DIRECTIVE p Hc.
  rewrite (match_hit TK_LABEL false p Hb Hc), Hb.
  rewrite (parseLabel_hit tokenTypeToString p Hc).
  cbn [mbind option_bind].
  set (q := with_compilationUnit _ (seek (S (position p)) p)).
  assert (hasNext q = true) as Hq by (by apply (hasNext_seek (S (position p)) p)).
  rewrite Hq. rewrite bool_decide_true by (by eexists). cbn [andb].
  destruct (proj2 (expectEndOfStmt_outcome q Hq) Hnext)
    as (k & -> & Hk & Hall & Hend).
  cbn [mbind option_bind].
  eexists k, _. split; [done|]. split.
  { cbn. unfold currentLocation. cbn.
    apply Nat.ltb_lt in Hlen as Hlen'.
    destruct (length (TokenStream.m_tokens (m_tokenStream p))) eqn:Hl; [lia|].
    cbn [Nat.eqb negb andb].
    change (hasNext _) with (hasNext q). rewrite Hq. done. }
  split; [apply get_set_eq|]. split; [done|].
  split; [exact Hk|]. split; [exact Hall|exact Hend].
Qed.

End Externals.

End StatementFacts.

(** ** Numbers in token texts, and the text of an Object Location *)
Module NumberFacts.

Import Parser StreamFacts TermFacts Cursor Nodes Texts RecoveryFacts.

Lemma append_empty (s : string) : s +:+ "" = s.
Proof.
  induction s as [|c s IH]; [done|].
  change (String c (s +:+ "") = String c s). congruence.
Qed.

Lemma digits_stop (rest : string) (acc : Z) :
  IStream.starts_with_digit rest = false -> IStream.digits rest acc = acc.
Proof.
  destruct rest as [|c rest]; [done|]. cbn.
  destruct (IStream.digit c); [|done]. intros H.
  by apply bool_decide_eq_false in H as [].
Qed.

Lemma digits_app_acc (d : Decimal.uint) (acc : positive) (rest : string) :
  IStream.starts_with_digit rest = false ->
  IStream.digits (NilEmpty.string_of_uint d +:+ rest) (Z.pos acc)
  = Z.pos (Pos.of_uint_acc d acc).
Proof.
  intros Hrest. revert acc.
  induction d; intros acc; simpl; [by apply digits_stop|..];
    match goal with
    | |- IStream.digits _ ?a = Z.pos (Pos.of_uint_acc _ ?b) =>
        replace a with (Z.pos b) by lia; apply IHd
    end.
Qed.

Lemma digits_app (d : Decimal.uint) (rest : string) :
  IStream.starts_with_digit rest = false ->
  IStream.digits (NilEmpty.string_of_uint d +:+ rest) 0 = Z.of_N (Pos.of_uint d).
Proof.
  intros Hrest.
  induction d; simpl; [by apply digits_stop|exact IHd|..];
    apply (digits_app_acc _ _ _ Hrest).
Qed.

Lemma stored_app (lo hi : Z) (d : Decimal.uint) (rest : string) :
  d <> Decimal.Nil ->
  IStream.stored lo hi (NilEmpty.string_of_uint d +:+ rest)
  = Some (IStream.clamp lo hi
            (IStream.digits (NilEmpty.string_of_uint d +:+ rest) 0))
  /\ IStream.stored lo hi (String "-" (NilEmpty.string_of_uint d +:+ rest))
     = Some (IStream.clamp lo hi
               (- IStream.digits (NilEmpty.string_of_uint d +:+ rest) 0)).
Proof. by destruct d. Qed.

Lemma NilZero_to_uint (q : positive) :
  NilZero.string_of_uint (Pos.to_uint q) = NilEmpty.string_of_uint (Pos.to_uint q).
Proof.
  pose proof (Unsigned.to_uint_nonnil q). unfold NilZero.string_of_uint.
  by destruct (Pos.to_uint q).
Qed.

(** Reading the decimal text of [n], followed by anything that does not
    start with a digit, gives [n] brought into the range. *)
Lemma stored_decimal_app (lo hi n : Z) (rest : string) :
  IStream.starts_with_digit rest = false ->
  IStream.stored lo hi (IStream.decimal n +:+ rest)
  = Some (IStream.clamp lo hi n).
Proof.
  intros Hrest. unfold IStream.decimal.
  destruct n as [|q|q]; cbn [Z.to_int NilZero.string_of_int].
  - change (NilZero.string_of_uint (Decimal.D0 Decimal.Nil))
      with (NilEmpty.string_of_uint (Decimal.D0 Decimal.Nil)).
    rewrite (proj1 (stored_app lo hi (Decimal.D0 Decimal.Nil) rest ltac:(done))).
    by rewrite (digits_app _ _ Hrest).
  - rewrite NilZero_to_uint.
    rewrite (proj1 (stored_app lo hi _ rest (Unsigned.to_uint_nonnil q))).
    by rewrite (digits_app _ _ Hrest), Unsigned.of_to.
  - rewrite NilZero_to_uint.
    change (String "-" (NilEmpty.string_of_uint (Pos.to_uint q)) +:+ rest)
      with (String "-" (NilEmpty.string_of_uint (Pos.to_uint q) +:+ rest)).
    rewrite (proj2 (stored_app lo hi _ rest (Unsigned.to_uint_nonnil q))).
    by rewrite (digits_app _ _ Hrest), Unsigned.of_to.
Qed.

Lemma extract_decimal_app (lo hi value n : Z) (rest : string) :
  IStream.starts_with_digit rest = false ->
  IStream.extract lo hi value (IStream.decimal n +:+ rest)
  = IStream.clamp lo hi n.
Proof.
  intros Hrest. unfold IStream.extract.
  by rewrite (stored_decimal_app _ _ _ _ Hrest).
Qed.

Section Externals.

Context (tokenTypeToString : TokenClass -> string)
  (indeterminate : Parser.t -> Z).

Local Abbreviation parseIntegerLiteral := (parseIntegerLiteral tokenTypeToString indeterminate).
Local Abbreviation parseRegister := (parseRegister tokenTypeToString indeterminate).
Local Abbreviation parseLocal := (parseLocal tokenTypeToString indeterminate).

(** X15. For an integer token whose text is the decimal text of [n],
    followed by anything that does not start with a digit,
    [parseIntegerLiteral] returns the literal of value [n] when [n] fits a
    64-bit signed integer, and of the nearest bound of that range when it
    does not; it reads the token and appends no diagnostic. *)
Theorem parseIntegerLiteral_value (p : t) (n : Z) (rest : string) :
  let token := TokenStream.peek 0 (m_tokenStream p) in
  Token.getTokenClass token = TK_INTEGER ->
  Token.getValue token = IStream.decimal n +:+ rest ->
  IStream.starts_with_digit rest = false ->
  parseIntegerLiteral p
  = (Some (AstIntegerLiteral
             (if n <? - 2 ^ 63 then - 2 ^ 63
              else if 2 ^ 63 - 1 <? n then 2 ^ 63 - 1 else n)
             (Token.getLocation token)),
     seek (S (position p)) p).
Proof.
  intros token Hc Hvalue Hrest.
  pose proof (class_to_bool _ _ Hc ltac:(done)) as Hb.
  unfold Parser.parseIntegerLiteral.
  rewrite (expect_hit _ _ true p Hb Hc). fold token.
  rewrite Hb, (next_seek p (peek_true_hasNext p Hb)), Hvalue.
  unfold IStream.extract_int64.
  by rewrite (extract_decimal_app _ _ _ _ _ Hrest).
Qed.

(** X20. A register or local token whose index does not fit an [int] does
    not fail: for the decimal text of [n], [parseRegister] and [parseLocal]
    return a data location whose slot is [n] brought into the range of
    [int], the nearest bound when [n] is outside it, and append no
    diagnostic. *)
Theorem parseRegister_saturates (p : t) (n : Z) :
  let token := TokenStream.peek 0 (m_tokenStream p) in
  Token.getValue token = IStream.decimal n ->
  (Token.getTokenClass token = TK_REG ->
   parseRegister p
   = (Some (AstDataLocation
              (if n <? - 2 ^ 31 then - 2 ^ 31
               else if 2 ^ 31 - 1 <? n then 2 ^ 31 - 1 else n)
              ObjLoc.RegisterDataStore (Token.getLocation token)),
      seek (S (position p)) p))
  /\ (Token.getTokenClass token = TK_LOCAL ->
      parseLocal p
      = (Some (AstDataLocation
                 (if n <? - 2 ^ 31 then - 2 ^ 31
                  else if 2 ^ 31 - 1 <? n then 2 ^ 31 - 1 else n)
                 ObjLoc.LocalDataStore (Token.getLocation token)),
         seek (S (position p)) p)).
Proof.
  intros token Hvalue.
  assert (forall value,
            IStream.extract_int value (Token.getValue token)
            = (if n <? - 2 ^ 31 then - 2 ^ 31
               else if 2 ^ 31 - 1 <? n then 2 ^ 31 - 1 else n)) as Hslot.
  { intros value. rewrite Hvalue. unfold IStream.extract_int.
    replace (IStream.decimal n) with (IStream.decimal n +:+ "").
    - by rewrite (extract_decimal_app IStream.INT_MIN IStream.INT_MAX value n ""
                    eq_refl).
    - apply append_empty. }
  split; intros Hc; pose proof (class_to_bool _ _ Hc ltac:(done)) as Hb.
  - unfold Parser.parseRegister. rewrite (expect_hit _ _ true p Hb Hc). fold token.
    by rewrite Hb, (next_seek p (peek_true_hasNext p Hb)), Hslot.
  - unfold Parser.parseLocal. rewrite (expect_hit _ _ true p Hb Hc). fold token.
    by rewrite Hb, (next_seek p (peek_true_hasNext p Hb)), Hslot.
Qed.

End Externals.

(** X18. The text [ObjLoc::toString] gives tells Object Locations apart:
    two locations with the same text have the same slot and the same
    storage class. *)
Theorem ObjLoc_toString_inj (a b : ObjLoc) :
  ObjLoc_toString a = ObjLoc_toString b -> a = b.
Proof.
  destruct a as [la sa], b as [lb sb]. unfold ObjLoc_toString.
  cbn [ObjLoc.getLocation ObjLoc.getDataStoreLocation].
  intros H.
  assert (sa = sb /\ IStream.decimal la +:+ "]" = IStream.decimal lb +:+ "]")
    as [-> Hd].
  { destruct sa, sb; cbn in H; try discriminate H; by simplify_eq. }
  f_equal.
  pose proof (extract_decimal_app (Z.min la lb) (Z.max la lb) 0 la "]" eq_refl)
    as Ha.
  pose proof (extract_decimal_app (Z.min la lb) (Z.max la lb) 0 lb "]" eq_refl)
    as Hb.
  rewrite Hd, Hb in Ha. unfold IStream.clamp in Ha.
  repeat match type of Ha with
         | context [?x <? ?y] => destruct (Z.ltb_spec x y)
         end; lia.
Qed.

End NumberFacts.

(** ** Directives *)
Module DirectiveFacts.

Import Parser StreamFacts TermFacts Cursor Nodes Texts RecoveryFacts NodeFacts
  StatementFacts.

Lemma peek_lookup (p : t) (token : Token) :
  TokenStream.m_tokens (m_tokenStream p) !! position p = Some token ->
  TokenStream.peek 0 (m_tokenStream p) = token.
Proof. intros H. rewrite peek_0. unfold position in H. by rewrite H. Qed.

Lemma classAt_peek_class (p : t) (c : TokenClass) :
  classAt (position p) p = Some c ->
  Token.getTokenClass (TokenStream.peek 0 (m_tokenStream p)) = c
  /\ hasNext p = true.
Proof.
  unfold classAt. intros H.
  destruct (TokenStream.m_tokens (m_tokenStream p) !! position p) as [token|] eqn:Ht;
    [|done].
  rewrite (peek_lookup p token Ht). injection H as <-. split; [done|].
  apply hasNext_lt. by eapply lookup_lt_Some.
Qed.

Section Externals.

Context (Lexer_analyze : SourceFile -> CompilationUnit -> list Token * CompilationUnit)
  (tokenTypeToString : TokenClass -> string)
  (getRepr : Token -> string)
  (indeterminate : Parser.t -> Z).

Local Abbreviation parseDirective_arguments :=
  (parseDirective_arguments Lexer_analyze tokenTypeToString indeterminate).
Local Abbreviation parseDirective_body := (parseDirective_body getRepr).
Local Abbreviation parseDirective :=
  (parseDirective Lexer_analyze tokenTypeToString getRepr indeterminate).

Ltac miss c p H :=
  rewrite (match_miss c false p) by first [exact H | by rewrite H];
  cbv beta iota zeta; change (Token.to_bool Token.EMPTY) with false; cbv iota.

(** One copied token of the body. *)
Lemma parseDirective_body_step (fuel : nat) (parenCounter : Z) (body : string)
    (p : t) (token : Token) :
  TokenStream.m_tokens (m_tokenStream p) !! position p = Some token ->
  Token.getTokenClass token <> TK_OPEN_BRACE ->
  Token.getTokenClass token <> TK_CLOSE_BRACE ->
  parseDirective_body (S fuel) parenCounter body p
  = parseDirective_body fuel parenCounter (body +:+ getRepr token +:+ " ")
      (seek (S (position p)) p).
Proof.
  intros Ht Ho Hc.
  assert (hasNext p = true) as Hn by (apply hasNext_lt; by eapply lookup_lt_Some).
  pose proof (peek_lookup p token Ht) as Hpeek.
  cbn [Parser.parseDirective_body]. rewrite Hn. cbv zeta.
  rewrite (match_miss TK_OPEN_BRACE false p) by (by rewrite Hpeek).
  cbv beta iota zeta. change (Token.to_bool Token.EMPTY) with false. cbv iota.
  rewrite (match_miss TK_CLOSE_BRACE false p) by (by rewrite Hpeek).
  cbv beta iota zeta. change (Token.to_bool Token.EMPTY) with false. cbv iota.
  by rewrite Hpeek, (next_seek p Hn).
Qed.

Lemma plain_tail (p : t) (from : nat) (token : Token) (tokens : list Token) :
  plain p from (token :: tokens) -> plain (seek (S from) p) (S from) tokens.
Proof.
  intros H j other Hj. destruct (H (S j) other Hj) as (Hl & ? & ?).
  split; [|done]. cbn. by rewrite <- Nat.add_succ_r.
Qed.

Lemma parseDirective_body_closed (tokens : list Token) (fuel : nat)
    (body : string) (p : t) :
  (length tokens < fuel)%nat ->
  plain p (position p) tokens ->
  classAt (position p + length tokens) p = Some TK_CLOSE_BRACE ->
  parseDirective_body fuel 1 body p
  = Some (bodyText getRepr body tokens,
          seek (S (position p + length tokens)) p).
Proof.
  revert fuel body p.
  induction tokens as [|token tokens IH]; intros fuel body p Hf Hplain Hclose;
    (destruct fuel as [|fuel]; [cbn in Hf; lia|]).
  - rewrite Nat.add_0_r in *.
    destruct (classAt_peek_class p _ Hclose) as [Hc Hn].
    pose proof (class_to_bool _ _ Hc ltac:(done)) as Hb.
    cbn [Parser.parseDirective_body]. rewrite Hn. cbv zeta.
    rewrite (match_miss TK_OPEN_BRACE false p) by (by rewrite Hc).
    cbv beta iota zeta. change (Token.to_bool Token.EMPTY) with false. cbv iota.
    rewrite (match_hit TK_CLOSE_BRACE false p Hb Hc), Hb.
    by rewrite (next_seek p Hn).
  - destruct (Hplain 0%nat token eq_refl) as (Ht & Ho & Hc).
    rewrite Nat.add_0_r in Ht.
    rewrite (parseDirective_body_step fuel 1 body p token Ht Ho Hc).
    rewrite (IH fuel _ (seek (S (position p)) p)).
    + cbn [length bodyText foldl].
      change (position (seek (S (position p)) p)) with (S (position p)).
      rewrite seek_seek.
      by replace (S (S (position p) + length tokens))
        with (S (position p + S (length tokens))) by lia.
    + cbn in Hf. lia.
    + by eapply plain_tail.
    + cbn [length] in Hclose. rewrite Nat.add_succ_r in Hclose. exact Hclose.
Qed.

Lemma parseDirective_body_open (tokens : list Token) (fuel : nat)
    (parenCounter : Z) (body : string) (p : t) :
  (length tokens < fuel)%nat ->
  plain p (position p) tokens ->
  (position p + length tokens)%nat = length (TokenStream.m_tokens (m_tokenStream p)) ->
  parseDirective_body fuel parenCounter body p
  = Some (bodyText getRepr body tokens, seek (position p + length tokens) p).
Proof.
  revert fuel body p.
  induction tokens as [|token tokens IH]; intros fuel body p Hf Hplain Hend;
    (destruct fuel as [|fuel]; [cbn in Hf; lia|]).
  - rewrite Nat.add_0_r in *. cbn [Parser.parseDirective_body].
    assert (hasNext p = false) as ->.
    { destruct (hasNext p) eqn:H; [|done]. apply hasNext_lt in H. lia. }
    by rewrite seek_position.
  - destruct (Hplain 0%nat token eq_refl) as (Ht & Ho & Hc).
    rewrite Nat.add_0_r in Ht.
    rewrite (parseDirective_body_step fuel parenCounter body p token Ht Ho Hc).
    rewrite (IH fuel _ (seek (S (position p)) p)).
    + cbn [length bodyText foldl].
      change (position (seek (S (position p)) p)) with (S (position p)).
      rewrite seek_seek.
      by replace (S (position p) + length tokens)%nat
        with (position p + S (length tokens))%nat by lia.
    + cbn in Hf. lia.
    + by eapply plain_tail.
    + cbn [length] in Hend. cbn. lia.
Qed.

Lemma parseDirective_arguments_values (nodes : list AstExpression) (fuel : nat)
    (arguments : list AstExpression) (p : t) :
  (length nodes < fuel)%nat ->
  valueTokens p (position p) nodes ->
  (hasNext (seek (position p + length nodes) p) = false
   \/ classAt (position p + length nodes) p = Some TK_NEWLINE
   \/ classAt (position p + length nodes) p = Some TK_OPEN_BRACE) ->
  parseDirective_arguments fuel arguments p
  = Some (arguments ++ nodes, seek (position p + length nodes) p).
Proof.
  revert fuel arguments p.
  induction nodes as [|node nodes IH]; intros fuel arguments p Hf Hvalues Hstop;
    (destruct fuel as [|fuel]; [cbn in Hf; lia|]).
  - rewrite Nat.add_0_r, seek_position, app_nil_r in *.
    cbn [Parser.parseDirective_arguments].
    destruct Hstop as [->|[Hnl|Hbrace]]; [done|..].
    + destruct (classAt_peek_class p _ Hnl) as [Hc Hn].
      pose proof (class_to_bool _ _ Hc ltac:(done)) as Hb.
      by rewrite Hn, (match_hit TK_NEWLINE false p Hb Hc), Hb.
    + destruct (classAt_peek_class p _ Hbrace) as [Hc Hn].
      pose proof (class_to_bool _ _ Hc ltac:(done)) as Hb.
      rewrite Hn. miss TK_NEWLINE p Hc.
      by rewrite (match_hit TK_OPEN_BRACE false p Hb Hc), Hb.
  - pose proof (Hvalues 0%nat node eq_refl) as Hnode.
    rewrite Nat.add_0_r, seek_position in Hnode.
    pose proof (valueNode_to_bool _ _ Hnode) as Hb.
    pose proof (peek_true_hasNext p Hb) as Hn.
    assert (Token.getTokenClass (TokenStream.peek 0 (m_tokenStream p)) <> TK_NEWLINE
            /\ Token.getTokenClass (TokenStream.peek 0 (m_tokenStream p)) <> TK_OPEN_BRACE)
      as [Hnl Hbrace].
    { unfold valueNode in Hnode.
      by destruct (Token.getTokenClass (TokenStream.peek 0 (m_tokenStream p))). }
    cbn [Parser.parseDirective_arguments]. rewrite Hn.
    miss TK_NEWLINE p Hnl. miss TK_OPEN_BRACE p Hbrace.
    rewrite (parseTerm_value Lexer_analyze tokenTypeToString indeterminate p node Hnode).
    rewrite (IH fuel _ (seek (S (position p)) p)).
    + cbn [length]. rewrite <- app_assoc.
      change (position (seek (S (position p)) p)) with (S (position p)).
      rewrite seek_seek.
      by replace (S (position p) + length nodes)%nat
        with (position p + S (length nodes))%nat by lia.
    + cbn in Hf. lia.
    + intros j other Hj. specialize (Hvalues (S j) other Hj).
      cbn. by rewrite <- Nat.add_succ_r.
    + cbn [length] in Hstop. rewrite Nat.add_succ_r in Hstop. exact Hstop.
Qed.

Lemma classAt_lt (p : t) (i : nat) (c : TokenClass) :
  classAt i p = Some c -> (i < length (TokenStream.m_tokens (m_tokenStream p)))%nat.
Proof.
  unfold classAt. intros H.
  destruct (TokenStream.m_tokens (m_tokenStream p) !! i) eqn:Hi; [|done].
  by eapply lookup_lt_Some.
Qed.

Lemma valueTokens_bound (p : t) (from : nat) (nodes : list AstExpression) :
  valueTokens p from nodes ->
  (length nodes <= length (TokenStream.m_tokens (m_tokenStream p)) - from)%nat.
Proof.
  intros H. destruct (decide (length nodes = 0%nat)) as [->|Hne]; [lia|].
  destruct (lookup_lt_is_Some_2 nodes (Nat.pred (length nodes)) ltac:(lia))
    as [node Hnode].
  pose proof (valueNode_to_bool _ _ (H _ _ Hnode)) as Hb.
  apply peek_true_hasNext, hasNext_seek in Hb. lia.
Qed.

Lemma parseDirective_head (p : t) :
  let token := TokenStream.peek 0 (m_tokenStream p) in
  Token.getTokenClass token = TK_DIRECTIVE ->
  Parser.expect tokenTypeToString TK_DIRECTIVE true p
  = (token, seek (S (position p)) p)
  /\ Token.to_bool token = true.
Proof.
  intros token Hc. pose proof (class_to_bool _ _ Hc ltac:(done)) as Hb.
  rewrite (expect_hit _ _ true p Hb Hc).
  by rewrite (next_seek p (peek_true_hasNext p Hb)).
Qed.

(** X13. For a directive token followed by argument tokens (identifiers,
    strings, and integers, registers and locals whose text is not empty or
    blank), an open brace, body tokens none of which is a brace, and a
    close brace, [parseDirective] returns the
    directive with the nodes of the arguments in order and, as body, the
    representation of each body token followed by a space; it reads
    everything up to and including the close brace and appends no
    diagnostic. *)
Theorem parseDirective_braced (p : t) (arguments : list AstExpression)
    (body : list Token) :
  let token := tokenAt 0 p in
  let open := (S (position p) + length arguments)%nat in
  Token.getTokenClass token = TK_DIRECTIVE ->
  valueTokens p (S (position p)) arguments ->
  classAt open p = Some TK_OPEN_BRACE ->
  plain p (S open) body ->
  classAt (S open + length body) p = Some TK_CLOSE_BRACE ->
  parseDirective p
  = Some (Some (AstDirective (Token.getValue token) arguments
                  (bodyText getRepr "" body) (Token.getLocation token)),
          seek (S (S open + length body)) p).
Proof.
  intros token open. subst token open. rewrite tokenAt_0.
  intros Hc Hargs Hopen Hbody Hclose.
  destruct (parseDirective_head p Hc) as [Hexpect Hb].
  unfold Parser.parseDirective. rewrite Hexpect, Hb.
  set (q := seek (S (position p)) p).
  pose proof (classAt_lt _ _ _ Hopen) as Hlt.
  pose proof (classAt_lt _ _ _ Hclose) as Hlt'.
  rewrite (parseDirective_arguments_values arguments _ [] q);
    [|unfold remaining, TokenStream.remaining; cbn; lia|exact Hargs|by right; right].
  cbn [mbind option_bind app].
  change (position q) with (S (position p)).
  set (q1 := seek _ q).
  destruct (classAt_peek_class q1 _ Hopen) as [Hc1 Hn1].
  pose proof (class_to_bool _ _ Hc1 ltac:(done)) as Hb1.
  rewrite (match_hit TK_OPEN_BRACE true q1 Hb1 Hc1), Hb1, (next_seek q1 Hn1).
  set (q2 := seek _ q1).
  rewrite (parseDirective_body_closed body _ "" q2);
    [done|unfold remaining, TokenStream.remaining; cbn; lia|exact Hbody|exact Hclose].
Qed.

(** X14. A directive body that is never closed is accepted without a
    diagnostic: when, after the argument tokens (as in X13) and the open
    brace, the body tokens, none of them a brace, run up to the end of the
    stream, [parseDirective] returns the directive with the nodes of the
    arguments and all of those tokens as body, leaves the cursor at the end
    of the stream and appends nothing. *)
Theorem parseDirective_unterminated (p : t) (arguments : list AstExpression)
    (body : list Token) :
  let token := tokenAt 0 p in
  let open := (S (position p) + length arguments)%nat in
  Token.getTokenClass token = TK_DIRECTIVE ->
  valueTokens p (S (position p)) arguments ->
  classAt open p = Some TK_OPEN_BRACE ->
  plain p (S open) body ->
  (S open + length body)%nat = length (TokenStream.m_tokens (m_tokenStream p)) ->
  parseDirective p
  = Some (Some (AstDirective (Token.getValue token) arguments
                  (bodyText getRepr "" body) (Token.getLocation token)),
          seek (length (TokenStream.m_tokens (m_tokenStream p))) p).
Proof.
  intros token open. subst token open. rewrite tokenAt_0.
  intros Hc Hargs Hopen Hbody Hend.
  destruct (parseDirective_head p Hc) as [Hexpect Hb].
  unfold Parser.parseDirective. rewrite Hexpect, Hb.
  set (q := seek (S (position p)) p).
  pose proof (classAt_lt _ _ _ Hopen) as Hlt.
  rewrite (parseDirective_arguments_values arguments _ [] q);
    [|unfold remaining, TokenStream.remaining; cbn; lia|exact Hargs|by right; right].
  cbn [mbind option_bind app].
  change (position q) with (S (position p)).
  set (q1 := seek _ q).
  destruct (classAt_peek_class q1 _ Hopen) as [Hc1 Hn1].
  pose proof (class_to_bool _ _ Hc1 ltac:(done)) as Hb1.
  rewrite (match_hit TK_OPEN_BRACE true q1 Hb1 Hc1), Hb1, (next_seek q1 Hn1).
  set (q2 := seek _ q1).
  rewrite (parseDirective_body_open body _ 1 "" q2);
    [|unfold remaining, TokenStream.remaining; cbn; lia|exact Hbody|exact Hend].
  cbn [mbind option_bind]. subst q2 q1 q. cbn [position seek m_tokenStream
    TokenStream.m_position]. by rewrite <- Hend.
Qed.

(** X21. For a directive token followed by argument tokens (identifiers,
    strings, and integers, registers and locals whose text is not empty or
    blank) and then a newline or the end of the stream, [parseDirective]
    returns the
    directive with the nodes of the arguments and the empty body; it stops
    before the newline, which it leaves to be read as the end of the
    statement, and appends no diagnostic. *)
Theorem parseDirective_without_body (p : t) (arguments : list AstExpression) :
  let token := tokenAt 0 p in
  let stop := (S (position p) + length arguments)%nat in
  Token.getTokenClass token = TK_DIRECTIVE ->
  valueTokens p (S (position p)) arguments ->
  (hasNext (seek stop p) = false \/ classAt stop p = Some TK_NEWLINE) ->
  parseDirective p
  = Some (Some (AstDirective (Token.getValue token) arguments ""
                  (Token.getLocation token)),
          seek stop p).
Proof.
  intros token stop. subst token stop. rewrite tokenAt_0.
  intros Hc Hargs Hstop.
  destruct (parseDirective_head p Hc) as [Hexpect Hb].
  unfold Parser.parseDirective. rewrite Hexpect, Hb.
  set (q := seek (S (position p)) p).
  pose proof (valueTokens_bound _ _ _ Hargs) as Hbound.
  rewrite (parseDirective_arguments_values arguments _ [] q);
    [|unfold remaining, TokenStream.remaining; cbn; lia|exact Hargs
     |destruct Hstop; [by left|by right; left]].
  cbn [mbind option_bind app].
  change (position q) with (S (position p)).
  set (q1 := seek _ q).
  rewrite (match_miss TK_OPEN_BRACE true q1).
  - by change (Token.to_bool Token.EMPTY) with false.
  - destruct Hstop as [Hend|Hnl].
    + intros Hbrace.
      assert (Token.to_bool (TokenStream.peek 0 (m_tokenStream q1)) = true) as Hb1.
      { by apply (class_to_bool _ _ Hbrace). }
      apply peek_true_hasNext in Hb1.
      change (hasNext q1)
        with (hasNext (seek (S (position p) + length arguments) p)) in Hb1.
      congruence.
    + destruct (classAt_peek_class q1 _ Hnl) as [-> _]. done.
Qed.

End Externals.

End DirectiveFacts.

(** ** Commands with missing operands *)
Module CommandFacts.

Import Parser StreamFacts TermFacts Progress Cursor Nodes RecoveryFacts NodeFacts
  StatementFacts.

Section Externals.

Context (Lexer_analyze : SourceFile -> CompilationUnit -> list Token * CompilationUnit)
  (tokenTypeToString : TokenClass -> string)
  (getRepr : Token -> string)
  (indeterminate : Parser.t -> Z).

Local Abbreviation parseTerm := (parseTerm Lexer_analyze tokenTypeToString indeterminate).
Local Abbreviation parseExpression :=
  (parseExpression Lexer_analyze tokenTypeToString indeterminate).
Local Abbreviation parseCommand := (parseCommand Lexer_analyze tokenTypeToString indeterminate).
Local Abbreviation parse := (parse Lexer_analyze tokenTypeToString getRepr indeterminate).

(** X22. Called on a token that is not an identifier, or at the end of the
    stream, [parseCommand] appends exactly one expected-identifier
    diagnostic at the current location, moves past one token when there is
    one, and returns no statement. *)
Theorem parseCommand_not_identifier (p : t) :
  Token.getTokenClass (TokenStream.peek 0 (m_tokenStream p)) <> TK_IDENT ->
  parseCommand p
  = (None,
     next
       (addError
          (mkCompilerError LEVEL_ERROR Msg_expected_identifier (currentLocation p) "")
          p))
  /\ position (snd (parseCommand p))
     = (if hasNext p then S (position p) else position p).
Proof.
  intros Hc.
  assert (parseCommand p
          = (None,
             next
               (addError
                  (mkCompilerError LEVEL_ERROR Msg_expected_identifier
                     (currentLocation p) "")
                  p))) as ->.
  { unfold Parser.parseCommand, Parser.expect.
    rewrite (match_miss TK_IDENT true p Hc).
    by change (Token.to_bool Token.EMPTY) with false. }
  split; [done|]. cbn [snd]. rewrite addError_next.
  destruct (hasNext p) eqn:Hn.
  - by rewrite (next_seek p Hn).
  - by rewrite (next_at_end p Hn).
Qed.

Lemma parseTerm_else (p : t) :
  let token := TokenStream.peek 0 (m_tokenStream p) in
  Token.to_bool token = true ->
  parseTerm_tests (Token.getTokenClass token) = false ->
  parseTerm p
  = (None, addError (unexpectedError token) (seek (S (position p)) p)).
Proof.
  intros token Hb Hc. unfold Parser.parseTerm. fold token. rewrite Hb. simpl.
  rewrite !match_miss by (fold token; destruct (Token.getTokenClass token); done).
  simpl. rewrite addError_hasNext, (peek_true_hasNext p Hb).
  by rewrite addError_next, (next_seek p (peek_true_hasNext p Hb)).
Qed.

(** X23. For [cmp] with one operand only (an identifier, integer, string,
    register or local token, whatever its text), the operand is parsed and
    then dropped: when the token after the operand is one that starts no
    term (a newline, say), [parseCommand] returns no statement, appends
    exactly one diagnostic, for that token (unexpected end of line for a
    newline, unexpected token otherwise), and reads the three tokens; at
    the end of the stream the diagnostic is unexpected end of file. *)
Theorem parseCommand_cmp_one_operand (p : t) :
  Token.getTokenClass (tokenAt 0 p) = TK_IDENT ->
  Token.getValue (tokenAt 0 p) = "cmp" ->
  valueClass (Token.getTokenClass (tokenAt 1 p)) = true ->
  (Token.to_bool (tokenAt 2 p) = true ->
   parseTerm_tests (Token.getTokenClass (tokenAt 2 p)) = false ->
   parseCommand p
   = (None,
      addError (unexpectedError (tokenAt 2 p)) (seek (S (S (S (position p)))) p)))
  /\ (hasNext (seek (S (S (position p))) p) = false ->
      parseCommand p
      = (None,
         addError
           (mkCompilerError LEVEL_ERROR Msg_unexpected_eof
              (currentLocation (seek (S (S (position p))) p)) "")
           (seek (S (S (position p))) p))).
Proof.
  rewrite !tokenAt_S, !tokenAt_0. intros Hc Hcmp Hclass.
  pose proof (class_to_bool _ _ Hc ltac:(done)) as Hb.
  destruct (parseTerm_operand Lexer_analyze tokenTypeToString indeterminate
              (seek (S (position p)) p) Hclass)
    as [lhs Hlhs].
  change (position (seek (S (position p)) p)) with (S (position p)) in Hlhs.
  rewrite seek_seek in Hlhs.
  assert (parseCommand p
          = (let '(rhs, q) := parseExpression (seek (S (S (position p))) p) in
             match rhs with
             | None => (None, q)
             | Some rhs =>
                 (Some (AstCmpStatement lhs rhs
                          (Token.getLocation (TokenStream.peek 0 (m_tokenStream p)))),
                  q)
             end)) as ->.
  { unfold Parser.parseCommand. rewrite (expect_hit _ _ true p Hb Hc), Hb.
    rewrite Hcmp. change (jumpModeStrings !! "cmp") with (@None JumpMode).
    rewrite bool_decide_true by done.
    rewrite (next_seek p (peek_true_hasNext p Hb)).
    unfold Parser.parseExpression at 1. by rewrite Hlhs. }
  unfold Parser.parseExpression. split.
  - intros Hb2 Hc2.
    pose proof (parseTerm_else (seek (S (S (position p))) p) Hb2 Hc2) as H.
    rewrite H. reflexivity.
  - intros Hn.
    unfold Parser.parseTerm.
    destruct (Token.to_bool (TokenStream.peek 0
                (m_tokenStream (seek (S (S (position p))) p)))) eqn:Hb2.
    + apply peek_true_hasNext in Hb2. congruence.
    + cbn [negb]. by rewrite addError_hasNext, Hn.
Qed.

End Externals.

End CommandFacts.

(** ** Further theorems at concrete inputs *)
Module MoreInstances.

Import Examples Cursor Nodes Texts.

Lemma currentLocation_of_token_witness :
  Parser.currentLocation (seek 1 (start [Token.mk TK_IDENT "x" (at_ 3 7)])) = at_ 3 7.
Proof.
  destruct (proj2 (RecoveryFacts.currentLocation_of_token
                     (seek 1 (start [Token.mk TK_IDENT "x" (at_ 3 7)]))))
    as (token & _ & Hloc & _ & Hlast); [discriminate|].
  rewrite Hloc, (Hlast eq_refl). reflexivity.
Defined.

Lemma expectEndOfStmt_resync_witness :
  exists k,
    Parser.expectEndOfStmt
      (start [ Token.mk TK_IDENT "x" (at_ 1 1); Token.mk TK_IDENT "y" (at_ 1 3);
               Token.mk TK_NEWLINE "" (at_ 1 4); Token.mk TK_IDENT "z" (at_ 2 1) ])
    = Some (false,
            Parser.addError
              (mkCompilerError LEVEL_ERROR Msg_expected_end_of_statement (at_ 1 1) "")
              (seek k
                 (start [ Token.mk TK_IDENT "x" (at_ 1 1);
                          Token.mk TK_IDENT "y" (at_ 1 3);
                          Token.mk TK_NEWLINE "" (at_ 1 4);
                          Token.mk TK_IDENT "z" (at_ 2 1) ]))).
Proof.
  destruct (proj2 (RecoveryFacts.expectEndOfStmt_resync
                     (start [ Token.mk TK_IDENT "x" (at_ 1 1);
                              Token.mk TK_IDENT "y" (at_ 1 3);
                              Token.mk TK_NEWLINE "" (at_ 1 4);
                              Token.mk TK_IDENT "z" (at_ 2 1) ])
                     eq_refl))
    as (k & H & _); [discriminate|].
  exists k. exact H.
Defined.

Lemma parseTerm_end_of_stream_witness :
  Parser.parseTerm lexer tokenTypeToString indeterminate (start [])
  = (None,
     Parser.addError
       (mkCompilerError LEVEL_ERROR Msg_unexpected_eof SourceLocation_eof "")
       (start [])).
Proof.
  exact (NodeFacts.parseTerm_end_of_stream lexer tokenTypeToString indeterminate (start []) eq_refl).
Defined.

Lemma parse_stops_silently_witness :
  parse (start [ Token.mk TK_OPEN_PARENTH "(" (at_ 1 1);
                 Token.mk TK_IDENT "x" (at_ 1 2) ])
  = Some (start [ Token.mk TK_OPEN_PARENTH "(" (at_ 1 1);
                  Token.mk TK_IDENT "x" (at_ 1 2) ]).
Proof.
  exact (proj2 (StatementFacts.parse_stops_silently lexer tokenTypeToString getRepr indeterminate
                  (start [ Token.mk TK_OPEN_PARENTH "(" (at_ 1 1);
                           Token.mk TK_IDENT "x" (at_ 1 2) ])
                  (or_introl eq_refl))).
Defined.

Lemma parseTerm_value_token_witness :
  Parser.parseTerm lexer tokenTypeToString indeterminate
    (start [Token.mk TK_INTEGER " 42" (at_ 1 1)])
  = (Some (AstIntegerLiteral 42 (at_ 1 1)),
     seek 1 (start [Token.mk TK_INTEGER " 42" (at_ 1 1)])).
Proof.
  exact (proj2 (proj2 (NodeFacts.parseTerm_value_token lexer tokenTypeToString
                         indeterminate
                         (start [Token.mk TK_INTEGER " 42" (at_ 1 1)]) eq_refl))
           (AstIntegerLiteral 42 (at_ 1 1)) eq_refl).
Defined.

Lemma parseCommand_jump_witness :
  Parser.parseCommand lexer tokenTypeToString indeterminate
    (start [Token.mk TK_IDENT "jne" (at_ 1 1); Token.mk TK_REG "2" (at_ 1 5)])
  = (Some (AstJmpStatement (AstDataLocation 2 ObjLoc.RegisterDataStore (at_ 1 5))
             JumpIfNotEqual (at_ 1 1)),
     seek 2 (start [Token.mk TK_IDENT "jne" (at_ 1 1);
                    Token.mk TK_REG "2" (at_ 1 5)])).
Proof.
  refine (proj1 (NodeFacts.parseCommand_jump lexer tokenTypeToString indeterminate
                   (start [Token.mk TK_IDENT "jne" (at_ 1 1);
                           Token.mk TK_REG "2" (at_ 1 5)])
                   JumpIfNotEqual
                   (AstDataLocation 2 ObjLoc.RegisterDataStore (at_ 1 5))
                   eq_refl _ eq_refl)).
  apply list_elem_of_further, list_elem_of_further, list_elem_of_here.
Defined.

Lemma parseCommand_cmp_witness :
  Parser.parseCommand lexer tokenTypeToString indeterminate
    (start [Token.mk TK_IDENT "cmp" (at_ 1 1); Token.mk TK_REG "1" (at_ 1 5);
            Token.mk TK_LOCAL "2" (at_ 1 8)])
  = (Some (AstCmpStatement (AstDataLocation 1 ObjLoc.RegisterDataStore (at_ 1 5))
             (AstDataLocation 2 ObjLoc.LocalDataStore (at_ 1 8)) (at_ 1 1)),
     seek 3 (start [Token.mk TK_IDENT "cmp" (at_ 1 1); Token.mk TK_REG "1" (at_ 1 5);
                    Token.mk TK_LOCAL "2" (at_ 1 8)])).
Proof.
  exact (proj1 (NodeFacts.parseCommand_cmp lexer tokenTypeToString indeterminate
                  (start [Token.mk TK_IDENT "cmp" (at_ 1 1);
                          Token.mk TK_REG "1" (at_ 1 5);
                          Token.mk TK_LOCAL "2" (at_ 1 8)])
                  (AstDataLocation 1 ObjLoc.RegisterDataStore (at_ 1 5))
                  (AstDataLocation 2 ObjLoc.LocalDataStore (at_ 1 8))
                  eq_refl eq_refl eq_refl eq_refl)).
Defined.

Lemma parseLabel_declares_witness :
  BoundGlobals.get "lbl"
    (Parser.getBoundGlobals
       (snd (Parser.parseLabel tokenTypeToString
               (withLabel (Token.mk TK_LABEL "lbl" (at_ 4 1))))))
  = Some (AstLabel "lbl" (at_ 4 1)).
Proof.
  destruct (NodeFacts.parseLabel_declares tokenTypeToString
              (withLabel (Token.mk TK_LABEL "lbl" (at_ 4 1))) eq_refl)
    as (_ & _ & _ & H & _).
  exact H.
Defined.

Lemma parseLabel_then_parseInterpolation_witness :
  fst (Parser.parseInterpolation lexer tokenTypeToString
         (snd (Parser.parseLabel tokenTypeToString
                 (start [Token.mk TK_LABEL "lbl" (at_ 1 1);
                         Token.mk TK_INTERPOLATION "lbl" (at_ 1 6)]))))
  = Some (AstLabel "lbl" (at_ 1 1)).
Proof.
  destruct (NodeFacts.parseLabel_then_parseInterpolation lexer tokenTypeToString
              (start [Token.mk TK_LABEL "lbl" (at_ 1 1);
                      Token.mk TK_INTERPOLATION "lbl" (at_ 1 6)])
              (Token.mk TK_IDENT "lbl" (mkSourceLocation 0 0 "a.pie"))
              eq_refl eq_refl)
    as (_ & H & _); [vm_compute; reflexivity|reflexivity|reflexivity|].
  exact H.
Defined.

Lemma parseInterpolation_first_bound_witness :
  Parser.parseInterpolation lexer tokenTypeToString
    (withLabel (Token.mk TK_INTERPOLATION "7 x lbl y" (at_ 2 5)))
  = (Some (AstLabel "lbl" (at_ 1 1)),
     addErrors
       [ mkCompilerError LEVEL_ERROR Msg_expected_identifier
           (mkSourceLocation 0 0 "a.pie") "";
         mkCompilerError LEVEL_ERROR Msg_undeclared_identifier
           (mkSourceLocation 0 0 "a.pie") "x" ]
       (seek 1 (withLabel (Token.mk TK_INTERPOLATION "7 x lbl y" (at_ 2 5))))).
Proof.
  refine (proj1 (NodeFacts.parseInterpolation_first_bound lexer tokenTypeToString
                   (withLabel (Token.mk TK_INTERPOLATION "7 x lbl y" (at_ 2 5)))
                   eq_refl)
            [ Token.mk TK_INTEGER "7" (mkSourceLocation 0 0 "a.pie");
              Token.mk TK_IDENT "x" (mkSourceLocation 0 0 "a.pie") ]
            (Token.mk TK_IDENT "lbl" (mkSourceLocation 0 0 "a.pie"))
            [ Token.mk TK_IDENT "y" (mkSourceLocation 0 0 "a.pie") ]
            (AstLabel "lbl" (at_ 1 1)) _ _ eq_refl _).
  - vm_compute. reflexivity.
  - intros other Hin Hc.
    apply elem_of_cons in Hin as [->|Hin]; [discriminate Hc|].
    apply list_elem_of_singleton in Hin as ->. vm_compute. reflexivity.
  - vm_compute. reflexivity.
Defined.

Lemma parseDirective_braced_witness :
  Parser.parseDirective lexer tokenTypeToString getRepr indeterminate
    (start [ Token.mk TK_DIRECTIVE "macro" (at_ 1 1); Token.mk TK_IDENT "a" (at_ 1 8);
             Token.mk TK_OPEN_BRACE "{" (at_ 1 10); Token.mk TK_IDENT "x" (at_ 2 1);
             Token.mk TK_INTEGER "1" (at_ 2 3); Token.mk TK_CLOSE_BRACE "}" (at_ 3 1) ])
  = Some (Some (AstDirective "macro" [AstIdentifier "a" (at_ 1 8)] "x 1 " (at_ 1 1)),
          seek 6
            (start [ Token.mk TK_DIRECTIVE "macro" (at_ 1 1);
                     Token.mk TK_IDENT "a" (at_ 1 8);
                     Token.mk TK_OPEN_BRACE "{" (at_ 1 10);
                     Token.mk TK_IDENT "x" (at_ 2 1);
                     Token.mk TK_INTEGER "1" (at_ 2 3);
                     Token.mk TK_CLOSE_BRACE "}" (at_ 3 1) ])).
Proof.
  refine (DirectiveFacts.parseDirective_braced lexer tokenTypeToString getRepr indeterminate
            (start [ Token.mk TK_DIRECTIVE "macro" (at_ 1 1);
                     Token.mk TK_IDENT "a" (at_ 1 8);
                     Token.mk TK_OPEN_BRACE "{" (at_ 1 10);
                     Token.mk TK_IDENT "x" (at_ 2 1);
                     Token.mk TK_INTEGER "1" (at_ 2 3);
                     Token.mk TK_CLOSE_BRACE "}" (at_ 3 1) ])
            [AstIdentifier "a" (at_ 1 8)]
            [Token.mk TK_IDENT "x" (at_ 2 1); Token.mk TK_INTEGER "1" (at_ 2 3)]
            eq_refl _ eq_refl _ eq_refl).
  - intros [|j] node H; [by injection H as <-|discriminate H].
  - intros [|[|j]] token H; [injection H as <-|injection H as <-|discriminate H];
      by repeat split.
Defined.

Lemma parseDirective_unterminated_witness :
  Parser.parseDirective lexer tokenTypeToString getRepr indeterminate
    (start [ Token.mk TK_DIRECTIVE "macro" (at_ 1 1);
             Token.mk TK_OPEN_BRACE "{" (at_ 1 8); Token.mk TK_IDENT "x" (at_ 2 1) ])
  = Some (Some (AstDirective "macro" [] "x " (at_ 1 1)),
          seek 3
            (start [ Token.mk TK_DIRECTIVE "macro" (at_ 1 1);
                     Token.mk TK_OPEN_BRACE "{" (at_ 1 8);
                     Token.mk TK_IDENT "x" (at_ 2 1) ])).
Proof.
  refine (DirectiveFacts.parseDirective_unterminated lexer tokenTypeToString getRepr indeterminate
            (start [ Token.mk TK_DIRECTIVE "macro" (at_ 1 1);
                     Token.mk TK_OPEN_BRACE "{" (at_ 1 8);
                     Token.mk TK_IDENT "x" (at_ 2 1) ])
            [] [Token.mk TK_IDENT "x" (at_ 2 1)] eq_refl _ eq_refl _ eq_refl).
  - intros j node H. discriminate H.
  - intros [|j] token H; [injection H as <-|discriminate H]. by repeat split.
Defined.

Lemma parseDirective_without_body_witness :
  Parser.parseDirective lexer tokenTypeToString getRepr indeterminate
    (start [ Token.mk TK_DIRECTIVE "org" (at_ 1 1); Token.mk TK_INTEGER "16" (at_ 1 6);
             Token.mk TK_NEWLINE "" (at_ 1 8) ])
  = Some (Some (AstDirective "org" [AstIntegerLiteral 16 (at_ 1 6)] "" (at_ 1 1)),
          seek 2
            (start [ Token.mk TK_DIRECTIVE "org" (at_ 1 1);
                     Token.mk TK_INTEGER "16" (at_ 1 6);
                     Token.mk TK_NEWLINE "" (at_ 1 8) ])).
Proof.
  refine (DirectiveFacts.parseDirective_without_body lexer tokenTypeToString getRepr indeterminate
            (start [ Token.mk TK_DIRECTIVE "org" (at_ 1 1);
                     Token.mk TK_INTEGER "16" (at_ 1 6);
                     Token.mk TK_NEWLINE "" (at_ 1 8) ])
            [AstIntegerLiteral 16 (at_ 1 6)] eq_refl _ (or_intror eq_refl)).
  intros [|j] node H; [by injection H as <-|discriminate H].
Defined.

Lemma parseIntegerLiteral_value_witness :
  Parser.parseIntegerLiteral tokenTypeToString indeterminate
    (start [Token.mk TK_INTEGER "99999999999999999999" (at_ 1 1)])
  = (Some (AstIntegerLiteral 9223372036854775807 (at_ 1 1)),
     seek 1 (start [Token.mk TK_INTEGER "99999999999999999999" (at_ 1 1)])).
Proof.
  exact (NumberFacts.parseIntegerLiteral_value tokenTypeToString indeterminate
           (start [Token.mk TK_INTEGER "99999999999999999999" (at_ 1 1)])
           99999999999999999999 "" eq_refl eq_refl eq_refl).
Defined.

Lemma parseRegister_saturates_witness :
  Parser.parseRegister tokenTypeToString indeterminate
    (start [Token.mk TK_REG "4294967296" (at_ 1 1)])
  = (Some (AstDataLocation 2147483647 ObjLoc.RegisterDataStore (at_ 1 1)),
     seek 1 (start [Token.mk TK_REG "4294967296" (at_ 1 1)])).
Proof.
  exact (proj1 (NumberFacts.parseRegister_saturates tokenTypeToString indeterminate
                  (start [Token.mk TK_REG "4294967296" (at_ 1 1)])
                  4294967296 eq_refl)
           eq_refl).
Defined.

Lemma parse_blank_stream_witness :
  parse (start [Token.mk TK_NEWLINE "" (at_ 1 1); Token.mk TK_NEWLINE "" (at_ 2 1)])
  = Some (seek 2
            (start [Token.mk TK_NEWLINE "" (at_ 1 1);
                    Token.mk TK_NEWLINE "" (at_ 2 1)])).
Proof.
  refine (StatementFacts.parse_blank_stream lexer tokenTypeToString getRepr indeterminate
            (start [Token.mk TK_NEWLINE "" (at_ 1 1);
                    Token.mk TK_NEWLINE "" (at_ 2 1)]) _ _).
  - cbn. lia.
  - intros [|[|i]] Hi; [reflexivity|reflexivity|cbn in Hi; lia].
Defined.

Lemma ObjLoc_toString_inj_witness :
  ObjLoc_toString (ObjLoc.mk 3 ObjLoc.RegisterDataStore) = "REGISTER[3]"
  /\ ObjLoc.mk 3 ObjLoc.RegisterDataStore
     = ObjLoc.copy (ObjLoc.mk 3 ObjLoc.RegisterDataStore).
Proof.
  split; [reflexivity|].
  exact (NumberFacts.ObjLoc_toString_inj (ObjLoc.mk 3 ObjLoc.RegisterDataStore)
           (ObjLoc.copy (ObjLoc.mk 3 ObjLoc.RegisterDataStore)) eq_refl).
Defined.

Lemma parseStatement_label_unterminated_witness :
  exists k p',
    Parser.parseStatement lexer tokenTypeToString getRepr indeterminate
      (start [ Token.mk TK_LABEL "lbl" (at_ 1 1); Token.mk TK_IDENT "x" (at_ 1 6);
               Token.mk TK_NEWLINE "" (at_ 1 7); Token.mk TK_IDENT "y" (at_ 2 1) ])
    = Some (Some (AstLabelDecl "lbl" (AstLabel "lbl" (at_ 1 1)) (at_ 1 1)), p')
    /\ Parser.getErrors p'
       = [mkCompilerError LEVEL_ERROR Msg_expected_end_of_statement (at_ 1 6) ""]
    /\ Parser.m_tokenStream p'
       = Parser.m_tokenStream
           (seek k
              (start [ Token.mk TK_LABEL "lbl" (at_ 1 1);
                       Token.mk TK_IDENT "x" (at_ 1 6);
                       Token.mk TK_NEWLINE "" (at_ 1 7);
                       Token.mk TK_IDENT "y" (at_ 2 1) ])).
Proof.
  destruct (StatementFacts.parseStatement_label_unterminated lexer tokenTypeToString
              getRepr indeterminate
              (start [ Token.mk TK_LABEL "lbl" (at_ 1 1);
                       Token.mk TK_IDENT "x" (at_ 1 6);
                       Token.mk TK_NEWLINE "" (at_ 1 7);
                       Token.mk TK_IDENT "y" (at_ 2 1) ])
              eq_refl)
    as (k & p' & Hp & He & _ & Ht & _); [cbn; lia|discriminate|].
  exists k, p'. split; [exact Hp|]. split; [exact He|exact Ht].
Defined.

Lemma parseCommand_not_identifier_witness :
  Parser.position
    (snd (Parser.parseCommand lexer tokenTypeToString indeterminate
            (start [Token.mk TK_INTEGER "1" (at_ 1 1)])))
  = 1%nat.
Proof.
  refine (proj2 (CommandFacts.parseCommand_not_identifier lexer tokenTypeToString indeterminate
                   (start [Token.mk TK_INTEGER "1" (at_ 1 1)]) _)).
  discriminate.
Defined.

Lemma parseCommand_cmp_one_operand_witness :
  Parser.parseCommand lexer tokenTypeToString indeterminate
    (start [Token.mk TK_IDENT "cmp" (at_ 1 1); Token.mk TK_REG "1" (at_ 1 5);
            Token.mk TK_NEWLINE "" (at_ 1 7)])
  = (None,
     Parser.addError (mkCompilerError LEVEL_ERROR Msg_unexpected_eol (at_ 1 7) "")
       (seek 3 (start [Token.mk TK_IDENT "cmp" (at_ 1 1);
                       Token.mk TK_REG "1" (at_ 1 5);
                       Token.mk TK_NEWLINE "" (at_ 1 7)]))).
Proof.
  exact (proj1 (CommandFacts.parseCommand_cmp_one_operand lexer tokenTypeToString indeterminate
                  (start [Token.mk TK_IDENT "cmp" (at_ 1 1);
                          Token.mk TK_REG "1" (at_ 1 5);
                          Token.mk TK_NEWLINE "" (at_ 1 7)])
                  eq_refl eq_refl eq_refl)
           eq_refl eq_refl).
Defined.

End MoreInstances.
